(** * word-of-wisdom: a proof-of-work gated TCP quote server

    A shallow embedding of the Go sources and the properties they are
    specified to have.

    - [GoStrings], [Hex], [SHA256]: the parts of the Go standard library
      the program calls ([strings], [encoding/hex], [crypto/sha256]).
    - [Pow]: internal/pow/sha256.go.
    - [Quotes]: internal/quotes/quotes.go.
    - [Handler]: internal/app/handler.go, over an explicit model of the
      connection and of [io.LimitedReader] / [bufio.Reader].
    - [Server]: internal/app/server.go, as a pool of goroutines stepping
      over a shared server state; [ServerStates] and [Holdings]: states
      and schedules of the server, and what each goroutine holds.
    - [Client]: cmd/client/main.go; [PowTest]: the solver of
      internal/pow/sha256_test.go; [Decimal], [Edges], [Numerals]: the
      verb [%d], [strings.TrimPrefix] and the reading of digits.

    Go strings are byte sequences; they are modelled by [string], whose
    characters are the 256 values of [ascii].  A Go [int] is a [Z];
    a value of [uint32] is a [Z] reduced modulo [2^32] after every
    addition.  A run-time panic is the result [None] of a function of type
    [option _], or an explicit outcome of a goroutine.  The memory of
    the process is a [Heap]: it decides the one allocation whose size
    an input of the program sets, that of [strings.Repeat]. *)

From Stdlib Require Import ZArith Lia List Bool Ascii String.
From stdpp Require Import base tactics option list numbers strings gmap.

Import ListNotations.
Local Open Scope string_scope.
Local Open Scope list_scope.
Local Open Scope Z_scope.

(** The largest value of Go's [int] on the 64-bit targets the program is
    built for (GOARCH=amd64). *)
Definition maxInt : Z := 2 ^ 63 - 1.

(** The size of the largest object the runtime allocates on amd64,
    where heap addresses have 48 bits: asked for more, [make] panics
    ("makeslice: len out of range"). *)
Definition maxAlloc : Z := 2 ^ 48.

(** The memory of the process at the moment of a call: [room] is the
    size in bytes of the largest object the system still grants.  Asked
    for more, the runtime ends the process ("fatal error: runtime: out
    of memory"). *)
Class Heap := { room : Z }.

(** An object no larger than the buffer [bufio.NewReader] allocates for
    every connection is granted: the allocations of that size, which
    the program makes at every step, are taken to succeed. *)
Definition smallSize : Z := 4096.

(** Whether the runtime allocates an object of [size] bytes. *)
Definition mallocgc {heap : Heap} (size : Z) : bool :=
  (size <=? maxAlloc) && ((size <=? smallSize) || (size <=? room)).

(** The heap of the examples: a gibibyte can be had. *)
#[global] Instance gibibyte : Heap := {| room := 2 ^ 30 |}.

(* ================================================================== *)
(** ** Package [strings] *)
(* ================================================================== *)

Module GoStrings.

(** [len(s)] *)
Definition len (s : string) : Z := Z.of_nat (String.length s).

(** [[]byte(s)]: every byte as a number below 256. *)
Definition bytes (s : string) : list Z :=
  map (fun a => Z.of_N (N_of_ascii a)) (list_ascii_of_string s).

(** [s] written [n] times. *)
Fixpoint repeat_nat (s : string) (n : nat) : string :=
  match n with
  | O => ""
  | S n' => s +:+ repeat_nat s n'
  end.

(** [strings.Repeat(s, count)] (Go 1.24, the version of the build).
    The counts 0 and 1 return at once.  The function panics on a
    negative count and when the length of the result overflows an
    [int]; otherwise [Builder.Grow] allocates the whole result before
    anything is written.  [None]: the call does not return - it panics,
    or the process runs out of memory. *)
Definition Repeat {heap : Heap} (s : string) (count : Z) : option string :=
  if count =? 0 then Some ""
  else if count =? 1 then Some s
  else if count <? 0 then None
  else if maxInt <? len s * count then None
  else if len s =? 0 then Some ""
  else if mallocgc (len s * count) then Some (repeat_nat s (Z.to_nat count))
  else None.

(** [strings.HasPrefix(s, prefix)]:
    [len(s) >= len(prefix) && s[:len(prefix)] == prefix]. *)
Definition HasPrefix (s prefix : string) : bool :=
  (String.length prefix <=? String.length s)%nat
  && String.eqb (substring 0 (String.length prefix) s) prefix.

(** The line feed ['\n']. *)
Definition LF : string := String "010" "".

(** A string given by the values of its bytes. *)
Definition str (l : list nat) : string :=
  string_of_list_ascii (map ascii_of_nat l).

(** [s[i]] as a number, and the slice [s[i:j]]. *)
Definition code (c : ascii) : Z := Z.of_N (N_of_ascii c).

Definition byte_at (s : string) (i : nat) : Z :=
  match get i s with
  | Some c => code c
  | None => 0
  end.

Definition slice (s : string) (i j : nat) : string := substring i (j - i) s.

(** [strings.IndexByte(s, c)], [None] standing for [-1]. *)
Fixpoint IndexByte (s : string) (c : ascii) : option nat :=
  match s with
  | "" => None
  | String a rest =>
      if Ascii.eqb a c then Some O
      else match IndexByte rest c with
           | Some i => Some (S i)
           | None => None
           end
  end.

(** *** Package [unicode/utf8] *)

Definition RuneError : Z := 65533.
Definition RuneSelf : Z := 128.

(** The tables [first] and [acceptRanges]: for a leading byte, the size
    of the sequence and the range its second byte must lie in; [None]
    for a byte that starts no sequence. *)
Definition first (s0 : Z) : option (nat * Z * Z) :=
  if (194 <=? s0) && (s0 <=? 223) then Some (2%nat, 128, 191)
  else if s0 =? 224 then Some (3%nat, 160, 191)
  else if (225 <=? s0) && (s0 <=? 236) then Some (3%nat, 128, 191)
  else if s0 =? 237 then Some (3%nat, 128, 159)
  else if (238 <=? s0) && (s0 <=? 239) then Some (3%nat, 128, 191)
  else if s0 =? 240 then Some (4%nat, 144, 191)
  else if (241 <=? s0) && (s0 <=? 243) then Some (4%nat, 128, 191)
  else if s0 =? 244 then Some (4%nat, 128, 143)
  else None.

(** A continuation byte lies between [locb] and [hicb]. *)
Definition outside (lo hi b : Z) : bool := (b <? lo) || (hi <? b).

(** [utf8.DecodeRuneInString(s)]: the first rune of [s] and its width
    in bytes; [(RuneError, 1)] on an invalid encoding. *)
Definition DecodeRuneInString (s : string) : Z * nat :=
  let n := String.length s in
  if (n <? 1)%nat then (RuneError, O)
  else
    let s0 := byte_at s 0 in
    if s0 <? RuneSelf then (s0, 1%nat)
    else
      match first s0 with
      | None => (RuneError, 1%nat)
      | Some (sz, lo, hi) =>
          if (n <? sz)%nat then (RuneError, 1%nat)
          else
            let s1 := byte_at s 1 in
            if outside lo hi s1 then (RuneError, 1%nat)
            else if (sz <=? 2)%nat then
              (Z.lor (Z.shiftl (Z.land s0 31) 6) (Z.land s1 63), 2%nat)
            else
              let s2 := byte_at s 2 in
              if outside 128 191 s2 then (RuneError, 1%nat)
              else if (sz <=? 3)%nat then
                (Z.lor (Z.lor (Z.shiftl (Z.land s0 15) 12)
                              (Z.shiftl (Z.land s1 63) 6))
                       (Z.land s2 63), 3%nat)
              else
                let s3 := byte_at s 3 in
                if outside 128 191 s3 then (RuneError, 1%nat)
                else
                  (Z.lor (Z.lor (Z.lor (Z.shiftl (Z.land s0 7) 18)
                                       (Z.shiftl (Z.land s1 63) 12))
                                (Z.shiftl (Z.land s2 63) 6))
                         (Z.land s3 63), 4%nat)
      end.

(** [utf8.RuneStart(b)] *)
Definition RuneStart (b : Z) : bool := negb (Z.land b 192 =? 128).

(** The loop [for start--; start >= lim; start--] of
    [DecodeLastRuneInString], [tries] bounding its iterations. *)
Fixpoint back_to_start (tries : nat) (s : string) (lim : Z) (start : Z) : Z :=
  match tries with
  | O => start
  | S tries' =>
      if start <? lim then start
      else if RuneStart (byte_at s (Z.to_nat start)) then start
      else back_to_start tries' s lim (start - 1)
  end.

(** [utf8.DecodeLastRuneInString(s)] *)
Definition DecodeLastRuneInString (s : string) : Z * nat :=
  let end_ := String.length s in
  if (end_ =? 0)%nat then (RuneError, O)
  else
    let r := byte_at s (end_ - 1) in
    if r <? RuneSelf then (r, 1%nat)
    else
      let lim := Z.max 0 (Z.of_nat end_ - 4) in
      let start := back_to_start 4 s lim (Z.of_nat end_ - 2) in
      let start := Z.to_nat (Z.max 0 start) in
      let '(r, size) := DecodeRuneInString (slice s start end_) in
      if (start + size =? end_)%nat then (r, size) else (RuneError, 1%nat).

(** *** Package [unicode] *)

(** [unicode.IsSpace(r)]: the Latin-1 cases, then the table
    [White_Space]. *)
Definition IsSpace (r : Z) : bool :=
  if (0 <=? r) && (r <=? 255) then
    (r =? 9) || (r =? 10) || (r =? 11) || (r =? 12) || (r =? 13)
    || (r =? 32) || (r =? 133) || (r =? 160)
  else
    (r =? 5760) || ((8192 <=? r) && (r <=? 8202)) || (r =? 8232)
    || (r =? 8233) || (r =? 8239) || (r =? 8287) || (r =? 12288).

(** *** Trimming *)

(** [indexFunc(s, f, truth)]: the [range] loop over the runes of [s],
    from byte [i] on. *)
Fixpoint indexFunc_from (fuel : nat) (s : string) (i : nat)
    (f : Z -> bool) (truth : bool) : option nat :=
  match fuel with
  | O => None
  | S fuel' =>
      if (String.length s <=? i)%nat then None
      else
        let '(r, size) := DecodeRuneInString (slice s i (String.length s)) in
        if Bool.eqb (f r) truth then Some i
        else indexFunc_from fuel' s (i + size) f truth
  end.

Definition indexFunc (s : string) (f : Z -> bool) (truth : bool) : option nat :=
  indexFunc_from (String.length s) s 0 f truth.

(** [lastIndexFunc(s, f, truth)] *)
Fixpoint lastIndexFunc_from (fuel : nat) (s : string) (i : nat)
    (f : Z -> bool) (truth : bool) : option nat :=
  match fuel with
  | O => None
  | S fuel' =>
      if (i =? 0)%nat then None
      else
        let '(r, size) := DecodeLastRuneInString (slice s 0 i) in
        let i := (i - size)%nat in
        if Bool.eqb (f r) truth then Some i
        else lastIndexFunc_from fuel' s i f truth
  end.

Definition lastIndexFunc (s : string) (f : Z -> bool) (truth : bool) : option nat :=
  lastIndexFunc_from (String.length s) s (String.length s) f truth.

(** [strings.TrimLeftFunc], [strings.TrimRightFunc], [strings.TrimFunc] *)
Definition TrimLeftFunc (s : string) (f : Z -> bool) : string :=
  match indexFunc s f false with
  | None => ""
  | Some i => slice s i (String.length s)
  end.

Definition TrimRightFunc (s : string) (f : Z -> bool) : string :=
  match lastIndexFunc s f false with
  | Some i =>
      if RuneSelf <=? byte_at s i then
        let '(_, wid) := DecodeRuneInString (slice s i (String.length s)) in
        slice s 0 (i + wid)
      else slice s 0 (i + 1)
  | None => slice s 0 0
  end.

Definition TrimFunc (s : string) (f : Z -> bool) : string :=
  TrimRightFunc (TrimLeftFunc s f) f.

(** The table [asciiSpace]. *)
Definition asciiSpace (c : Z) : bool :=
  (c =? 9) || (c =? 10) || (c =? 11) || (c =? 12) || (c =? 13) || (c =? 32).

(** The two loops of [strings.TrimSpace].  Each returns either the
    index it stopped at or, having met a byte that is not ASCII, the
    index from which the slower functions take over. *)
Inductive scan := Stop (i : nat) | NonASCII (i : nat).

Fixpoint scan_start (fuel : nat) (s : string) (start : nat) : scan :=
  match fuel with
  | O => Stop start
  | S fuel' =>
      if (String.length s <=? start)%nat then Stop start
      else
        let c := byte_at s start in
        if RuneSelf <=? c then NonASCII start
        else if asciiSpace c then scan_start fuel' s (S start)
        else Stop start
  end.

Fixpoint scan_stop (fuel : nat) (s : string) (start stop : nat) : scan :=
  match fuel with
  | O => Stop stop
  | S fuel' =>
      if (stop <=? start)%nat then Stop stop
      else
        let c := byte_at s (stop - 1) in
        if RuneSelf <=? c then NonASCII stop
        else if asciiSpace c then scan_stop fuel' s start (stop - 1)
        else Stop stop
  end.

(** [strings.TrimSpace(s)] *)
Definition TrimSpace (s : string) : string :=
  let n := String.length s in
  match scan_start n s 0 with
  | NonASCII start => TrimFunc (slice s start n) IsSpace
  | Stop start =>
      match scan_stop n s start n with
      | NonASCII stop => TrimRightFunc (slice s start stop) IsSpace
      | Stop stop => slice s start stop
      end
  end.

End GoStrings.

(* ================================================================== *)
(** ** Package [encoding/hex] *)
(* ================================================================== *)

Module Hex.

(** [hextable = "0123456789abcdef"] *)
Definition hextable (n : Z) : ascii :=
  match get (Z.to_nat n) "0123456789abcdef" with
  | Some c => c
  | None => "0"%char
  end.

(** [hex.EncodeToString]: two digits per byte, high nibble first. *)
Fixpoint EncodeToString (src : list Z) : string :=
  match src with
  | [] => ""
  | v :: rest =>
      String (hextable (Z.shiftr v 4))
        (String (hextable (Z.land v 15)) (EncodeToString rest))
  end.

End Hex.

(* ================================================================== *)
(** ** Package [crypto/sha256] *)
(* ================================================================== *)

Module SHA256.

Definition u32 (x : Z) : Z := x mod 2 ^ 32.

(** Addition of [uint32] values wraps around. *)
Definition add32 (x y : Z) : Z := u32 (x + y).

(** [bits.RotateLeft32(x, -k)], a rotation to the right by [k]. *)
Definition rotr (k x : Z) : Z :=
  Z.lor (Z.shiftr x k) (u32 (Z.shiftl x (32 - k))).

(** [^x] on a [uint32]. *)
Definition not32 (x : Z) : Z := Z.lxor x (2 ^ 32 - 1).

(** The round constants [_K]. *)
Definition _K : list Z :=
  [ 1116352408; 1899447441; 3049323471; 3921009573;
    961987163; 1508970993; 2453635748; 2870763221;
    3624381080; 310598401; 607225278; 1426881987;
    1925078388; 2162078206; 2614888103; 3248222580;
    3835390401; 4022224774; 264347078; 604807628;
    770255983; 1249150122; 1555081692; 1996064986;
    2554220882; 2821834349; 2952996808; 3210313671;
    3336571891; 3584528711; 113926993; 338241895;
    666307205; 773529912; 1294757372; 1396182291;
    1695183700; 1986661051; 2177026350; 2456956037;
    2730485921; 2820302411; 3259730800; 3345764771;
    3516065817; 3600352804; 4094571909; 275423344;
    430227734; 506948616; 659060556; 883997877;
    958139571; 1322822218; 1537002063; 1747873779;
    1955562222; 2024104815; 2227730452; 2361852424;
    2428436474; 2756734187; 3204031479; 3329325298 ].

(** The initial chaining value [init0 .. init7]. *)
Definition init : list Z :=
  [ 1779033703; 3144134277; 1013904242; 2773480762;
    1359893119; 2600822924; 528734635; 1541459225 ].

(** The first loop of [blockGeneric]: sixteen big-endian words. *)
Fixpoint words (p : list Z) : list Z :=
  match p with
  | b0 :: b1 :: b2 :: b3 :: rest =>
      Z.lor (Z.lor (Z.lor (Z.shiftl b0 24) (Z.shiftl b1 16)) (Z.shiftl b2 8)) b3
      :: words rest
  | _ => []
  end.

Definition at_ (w : list Z) (i : nat) : Z := nth i w 0.

(** The second loop: [w[i]] for [i] from 16 to 63.  [w] grows at its
    end, so that [w[i-2]] is read at index [length w - 2]. *)
Fixpoint schedule (n : nat) (w : list Z) : list Z :=
  match n with
  | O => w
  | S n' =>
      let i := List.length w in
      let v1 := at_ w (i - 2) in
      let t1 := Z.lxor (Z.lxor (rotr 17 v1) (rotr 19 v1)) (Z.shiftr v1 10) in
      let v2 := at_ w (i - 15) in
      let t2 := Z.lxor (Z.lxor (rotr 7 v2) (rotr 18 v2)) (Z.shiftr v2 3) in
      schedule n'
        (w ++ [add32 (add32 (add32 t1 (at_ w (i - 7))) t2) (at_ w (i - 16))])
  end.

Record regs := Regs { ra : Z; rb : Z; rc : Z; rd : Z;
                      re : Z; rf : Z; rg : Z; rh : Z }.

(** One iteration of the third loop. *)
Definition round (r : regs) (kw : Z * Z) : regs :=
  let '(Regs a b c d e f g h) := r in
  let t1 :=
    add32 (add32 (add32 (add32 h
      (Z.lxor (Z.lxor (rotr 6 e) (rotr 11 e)) (rotr 25 e)))
      (Z.lxor (Z.land e f) (Z.land (not32 e) g)))
      (fst kw)) (snd kw) in
  let t2 :=
    add32 (Z.lxor (Z.lxor (rotr 2 a) (rotr 13 a)) (rotr 22 a))
          (Z.lxor (Z.lxor (Z.land a b) (Z.land a c)) (Z.land b c)) in
  Regs (add32 t1 t2) a b c (add32 d t1) e f g.

(** The body of [blockGeneric] for one chunk of 64 bytes. *)
Definition block (h : list Z) (chunk : list Z) : list Z :=
  let w := schedule 48 (words chunk) in
  let r0 := Regs (at_ h 0) (at_ h 1) (at_ h 2) (at_ h 3)
                 (at_ h 4) (at_ h 5) (at_ h 6) (at_ h 7) in
  let '(Regs a b c d e f g hh) := fold_left round (combine _K w) r0 in
  [ add32 (at_ h 0) a; add32 (at_ h 1) b; add32 (at_ h 2) c; add32 (at_ h 3) d;
    add32 (at_ h 4) e; add32 (at_ h 5) f; add32 (at_ h 6) g; add32 (at_ h 7) hh ].

(** [for len(p) >= chunk { ...; p = p[chunk:] }] *)
Fixpoint blocks (n : nat) (h : list Z) (p : list Z) : list Z :=
  match n with
  | O => h
  | S n' => blocks n' (block h (firstn 64 p)) (skipn 64 p)
  end.

(** [binary.BigEndian.PutUint64] and [PutUint32]. *)
Definition be_bytes (k : nat) (v : Z) : list Z :=
  map (fun i => Z.land (Z.shiftr v (8 * Z.of_nat i)) 255) (rev (seq 0 k)).

(** The padding of [checkSum]: a byte 0x80, zeros up to 56 modulo 64,
    and the length in bits as a [uint64]. *)
Definition padding (len : Z) : list Z :=
  let t := if len mod 64 <? 56 then 56 - len mod 64 else 64 + 56 - len mod 64 in
  128 :: repeat 0 (Z.to_nat t - 1) ++ be_bytes 8 ((len * 8) mod 2 ^ 64).

(** [sha256.Sum256(data)] *)
Definition Sum256 (data : list Z) : list Z :=
  let p := data ++ padding (Z.of_nat (List.length data)) in
  let h := blocks (List.length p / 64) init p in
  concat (map (be_bytes 4) h).

End SHA256.

(* ================================================================== *)
(** ** Packages [math/rand] and [fmt] *)
(* ================================================================== *)

Module Rand.

(** A [*rand.Rand].  The generator is abstracted to the sequence of the
    numbers it will draw: [draws r i] is the [i]-th of them and [used r]
    counts those already drawn.  Every behaviour of a seeded source is
    one such sequence. *)
Record t := { draws : nat -> Z; used : nat }.

Definition advance (r : t) : t :=
  {| draws := draws r; used := S (used r) |}.

(** [r.Int63()]: a non-negative 63-bit integer. *)
Definition Int63 (r : t) : Z * t :=
  (draws r (used r) mod 2 ^ 63, advance r).

(** [r.Intn(n)]: an integer of the half-open interval [0, n); it
    panics if [n <= 0]. *)
Definition Intn (r : t) (n : Z) : option (Z * t) :=
  if n <=? 0 then None
  else Some (draws r (used r) mod n, advance r).

(** The generator of the examples: it draws 7 for ever. *)
Definition sevens : t := {| draws := fun _ => 7; used := O |}.

End Rand.

Module Fmt.

(** The verb [%x] of [fmt.Sprintf] on a non-negative integer: the
    digits in base 16, lower case, most significant first, a single
    ["0"] for zero.  Sixteen digits are enough for 63 bits. *)
Fixpoint hex_digits (n : nat) (v : Z) (acc : string) : string :=
  match n with
  | O => acc
  | S n' =>
      let acc' := String (Hex.hextable (v mod 16)) acc in
      if v / 16 =? 0 then acc' else hex_digits n' (v / 16) acc'
  end.

Definition Sprintf_x (v : Z) : string := hex_digits 16 v "".

End Fmt.

(* ================================================================== *)
(** ** internal/pow/sha256.go *)
(* ================================================================== *)

Module Pow.

(** [type SHA256PoW struct { difficulty int; rng *rand.Rand }] *)
Record SHA256PoW := {
  difficulty : Z;
  rng : Rand.t
}.

(** [NewSHA256PoW(difficulty)]; [seeded] is the generator that
    [rand.New(rand.NewSource(time.Now().UnixNano()))] returns. *)
Definition NewSHA256PoW (difficulty : Z) (seeded : Rand.t) : SHA256PoW :=
  {| difficulty := difficulty; rng := seeded |}.

(** [func (p *SHA256PoW) GenerateChallenge() string] *)
Definition GenerateChallenge (p : SHA256PoW) : string * SHA256PoW :=
  let '(v, r) := Rand.Int63 (rng p) in
  (Fmt.Sprintf_x v, {| difficulty := difficulty p; rng := r |}).

(** Whether [strings.Repeat("0", n)] finds the memory for its result:
    the counts 0 and 1 need none. *)
Definition zeros_fit {heap : Heap} (n : Z) : bool := (n <=? 1) || mallocgc n.

(** [func (p *SHA256PoW) ValidateChallenge(challenge, solution string) bool].
    [None]: [strings.Repeat] does not return. *)
Definition ValidateChallenge {heap : Heap} (p : SHA256PoW) (challenge solution : string)
  : option bool :=
  let hash := SHA256.Sum256 (GoStrings.bytes (challenge +:+ solution)) in
  let hashStr := Hex.EncodeToString hash in
  match GoStrings.Repeat "0" (difficulty p) with
  | Some zeros => Some (GoStrings.HasPrefix hashStr zeros)
  | None => None
  end.

(** The number of leading ['0'] characters of a string: the measure in
    which the specification states the difficulty target. *)
Fixpoint leading_zeros (s : string) : nat :=
  match s with
  | String "0" rest => S (leading_zeros rest)
  | _ => O
  end.

(** The hexadecimal SHA-256 digest of [challenge ++ solution]. *)
Definition digest (challenge solution : string) : string :=
  Hex.EncodeToString (SHA256.Sum256 (GoStrings.bytes (challenge +:+ solution))).

End Pow.

(* ================================================================== *)
(** ** internal/quotes/quotes.go *)
(* ================================================================== *)

Module Quotes.

(** [const Stub] *)
Definition Stub : string := "Angry people are not always wise.".

(** [type RandomQuoteProvider struct { quotes []string; rng *rand.Rand }] *)
Record RandomQuoteProvider := {
  quotes : list string;
  rng : Rand.t
}.

Definition NewRandomQuoteProvider (quotes : list string) (seeded : Rand.t)
  : RandomQuoteProvider :=
  {| quotes := quotes; rng := seeded |}.

(** [func (q *RandomQuoteProvider) GetQuote() string].  [None] is a
    panic, of [Intn] or of an index out of range. *)
Definition GetQuote (q : RandomQuoteProvider)
  : option (string * RandomQuoteProvider) :=
  if Z.of_nat (List.length (quotes q)) =? 0 then Some (Stub, q)
  else
    match Rand.Intn (rng q) (Z.of_nat (List.length (quotes q))) with
    | None => None
    | Some (i, r) =>
        match quotes q !! Z.to_nat i with
        | Some s => Some (s, {| quotes := quotes q; rng := r |})
        | None => None
        end
    end.

End Quotes.

(* ================================================================== *)
(** ** Programs over an interface *)
(* ================================================================== *)

(** Code that talks to its collaborators through interfaces ([net.Conn],
    [powChallenge], [quoteProvider], the shared state of the server) is a
    tree: a returned value, or a call [e] of the interface followed by the
    rest of the code, which depends on what the call returned. *)

Section Programs.
Context {E : Type -> Type}.

Inductive prog (A : Type) : Type :=
| Ret (a : A)
| Vis (B : Type) (e : E B) (k : B -> prog A).

Arguments Ret {A} a.
Arguments Vis {A B} e k.

Fixpoint bind {A C : Type} (p : prog A) (f : A -> prog C) : prog C :=
  match p with
  | Ret a => f a
  | Vis e k => Vis e (fun b => bind (k b) f)
  end.

Definition call {B : Type} (e : E B) : prog B := Vis e Ret.

End Programs.

Arguments prog E A : clear implicits.
Arguments Ret {E A} a.
Arguments Vis {E A B} e k.

Notation "x <- p ;; q" := (bind p (fun x => q))
  (at level 20, p at level 99, q at level 200, only parsing).
Notation "' pat <- p ;; q" := (bind p (fun x => let 'pat := x in q))
  (at level 20, pat pattern, p at level 99, q at level 200, only parsing).

Section Semantics.
Context {E : Type -> Type} {event : Type}.

(** What a call and its result leave in the trace, and which results
    the contract of the interface allows. *)
Variable observe : forall B : Type, E B -> B -> event.
Variable valid : forall B : Type, E B -> B -> Prop.

(** [runs p tr a]: against some collaborators that keep their contract,
    [p] makes the calls of [tr], in this order, and returns [a]. *)
Inductive runs {A : Type} : prog E A -> list event -> A -> Prop :=
| runs_Ret (a : A) : runs (Ret a) [] a
| runs_Vis (B : Type) (e : E B) (k : B -> prog E A) (b : B) tr a :
    valid B e b -> runs (k b) tr a -> runs (Vis e k) (observe B e b :: tr) a.

(** [always p Q]: every run of [p] ends with a trace and a value that
    satisfy [Q]. *)
Fixpoint always {A : Type} (p : prog E A) (Q : list event -> A -> Prop) : Prop :=
  match p with
  | Ret a => Q [] a
  | Vis e k =>
      forall b, valid _ e b -> always (k b) (fun tr => Q (observe _ e b :: tr))
  end.

(** Collaborators that compute: a state and, for every call, its result
    and the next state. *)
Fixpoint run {S A : Type} (oracle : forall B : Type, E B -> S -> B * S)
    (p : prog E A) (s : S) : list event * A * S :=
  match p with
  | Ret a => ([], a, s)
  | Vis e k =>
      let '(b, s') := oracle _ e s in
      let '(tr, a, s'') := run oracle (k b) s' in
      (observe _ e b :: tr, a, s'')
  end.

End Semantics.

(* ================================================================== *)
(** ** pkg/protocol *)
(* ================================================================== *)

Module Protocol.

(** Modelled from the spec: the package [pkg/protocol] that declares the
    three prefixes is not among the sources; the wire protocol of the
    specification gives the lines as [CHALLENGE:<token>],
    [ERROR:<message>] and [QUOTE:<text>]. *)
Definition PrefixChallenge : string := "CHALLENGE:".
Definition PrefixError : string := "ERROR:".
Definition PrefixQuote : string := "QUOTE:".

End Protocol.

(* ================================================================== *)
(** ** internal/app/handler.go *)
(* ================================================================== *)

Module Handler.
Import GoStrings.

(** Values of the interface [error]. *)
Inductive error :=
| EOF                                   (* io.EOF *)
| ErrNoProgress                         (* io.ErrNoProgress *)
| ErrBufferFull                         (* bufio.ErrBufferFull *)
| NetError (msg : string)               (* an error of the connection *)
| Wrapped (msg : string) (cause : error). (* fmt.Errorf(msg + ": %w", cause) *)

(** [err.Error()] *)
Fixpoint Error (e : error) : string :=
  match e with
  | EOF => "EOF"
  | ErrNoProgress => "multiple Read calls return no data or error"
  | ErrBufferFull => "bufio: buffer full"
  | NetError msg => msg
  | Wrapped msg cause => msg +:+ ": " +:+ Error cause
  end.

(** The calls [HandleConnection] makes on [Conn], [powChallenge] and
    [quoteProvider] (internal/app/types.go).  [Read n] is
    [conn.Read(p)] with [len(p) = n]; it returns the bytes stored in
    [p] and the error. *)
Inductive Call : Type -> Type :=
| Write (b : string) : Call (Z * option error)
| Read (n : Z) : Call (string * option error)
| GenerateChallenge : Call string
| ValidateChallenge (challenge response : string) : Call bool
| GetQuote : Call string.

Inductive event :=
| EvWrite (b : string) (n : Z) (err : option error)
| EvRead (n : Z) (data : string) (err : option error)
| EvGenerateChallenge (challenge : string)
| EvValidateChallenge (challenge response : string) (ok : bool)
| EvGetQuote (quote : string).

Definition observe (B : Type) (e : Call B) : B -> event :=
  match e in Call B return B -> event with
  | Write b => fun r => EvWrite b (fst r) (snd r)
  | Read n => fun r => EvRead n (fst r) (snd r)
  | GenerateChallenge => fun c => EvGenerateChallenge c
  | ValidateChallenge c s => fun ok => EvValidateChallenge c s ok
  | GetQuote => fun q => EvGetQuote q
  end.

(** The contract of [io.Reader]: [Read] stores at most [len(p)] bytes.
    A connection does not return the sentinel of package [bufio]. *)
Definition valid (B : Type) (e : Call B) : B -> Prop :=
  match e in Call B return B -> Prop with
  | Read n => fun r => len (fst r) <= Z.max 0 n /\ snd r <> Some ErrBufferFull
  | _ => fun _ => True
  end.

(** [const InvalidMsg] *)
Definition InvalidMsg : string := "Invalid PoW solution".

(** [func sendMessage(conn Conn, message string) error].
    [fmt.Fprintln] formats the line and makes one call of [Write]. *)
Definition sendMessage (message : string) : prog Call (option error) :=
  '(_, err) <- call (Write (message +:+ LF));;
  match err with
  | Some e => Ret (Some (Wrapped "failed to send message" e))
  | None => Ret None
  end.

(** *** [io.LimitedReader] and [bufio.Reader] *)

Definition maxReadSize : Z := 1024.
Definition defaultBufSize : Z := 4096.
Definition maxConsecutiveEmptyReads : nat := 100.

(** [func (l *LimitedReader) Read(p []byte) (n int, err error)], with
    the new value of [l.N]. *)
Definition LimitedReader_Read (l_N : Z) (len_p : Z)
  : prog Call (string * option error * Z) :=
  if l_N <=? 0 then Ret ("", Some EOF, l_N)
  else
    let len_p := if l_N <? len_p then l_N else len_p in
    '(data, err) <- call (Read len_p);;
    Ret (data, err, l_N - len data).

(** A [bufio.Reader] over an [io.LimitedReader] over the connection:
    [N] is the remaining budget [l.N], [buf] the bytes [b.buf[b.r:b.w]]
    and [err] the pending error [b.err]. *)
Record Reader := { N : Z; buf : string; err : option error }.

(** [bufio.NewReader(&io.LimitedReader{R: conn, N: n})] *)
Definition NewReader (n : Z) : Reader := {| N := n; buf := ""; err := None |}.

(** [func (b *Reader) fill()]: up to [maxConsecutiveEmptyReads] reads
    into [b.buf[b.w:]]. *)
Fixpoint fill_from (i : nat) (b : Reader) : prog Call Reader :=
  match i with
  | O => Ret {| N := N b; buf := buf b; err := Some ErrNoProgress |}
  | S i' =>
      '(data, e, n') <- LimitedReader_Read (N b) (defaultBufSize - len (buf b));;
      match e with
      | Some e => Ret {| N := n'; buf := buf b +:+ data; err := Some e |}
      | None =>
          let b' := {| N := n'; buf := buf b +:+ data; err := err b |} in
          if 0 <? len data then Ret b' else fill_from i' b'
      end
  end.

Definition fill (b : Reader) : prog Call Reader :=
  fill_from maxConsecutiveEmptyReads b.

(** [func (b *Reader) ReadSlice(delim byte) (line []byte, err error)].
    [s] is the index the search resumes at.  The loop has no bound in
    the source; [fuel] bounds it here, and [None] is returned if it is
    used up. *)
Fixpoint ReadSlice_from (fuel : nat) (s : nat) (delim : ascii) (b : Reader)
  : prog Call (option (string * option error * Reader)) :=
  match fuel with
  | O => Ret None
  | S fuel' =>
      let n := String.length (buf b) in
      match IndexByte (slice (buf b) s n) delim with
      | Some i =>
          let i := (i + s)%nat in
          Ret (Some (slice (buf b) 0 (i + 1), None,
                     {| N := N b; buf := slice (buf b) (i + 1) n; err := err b |}))
      | None =>
          match err b with
          | Some e =>
              Ret (Some (buf b, Some e, {| N := N b; buf := ""; err := None |}))
          | None =>
              if defaultBufSize <=? len (buf b) then
                Ret (Some (buf b, Some ErrBufferFull,
                           {| N := N b; buf := ""; err := None |}))
              else
                b' <- fill b;;
                ReadSlice_from fuel' n delim b'
          end
      end
  end.

(** Every turn of the loops of [ReadSlice] and [collectFragments] but
    the last two takes at least one byte from the budget. *)
Definition fuel_for (b : Reader) : nat := Z.to_nat (N b) + 2.

Definition ReadSlice (delim : ascii) (b : Reader) :=
  ReadSlice_from (fuel_for b) 0 delim b.

(** [func (b *Reader) ReadString(delim byte) (string, error)], through
    [collectFragments]: full buffers are accumulated in [full] until
    [ReadSlice] returns something else than [ErrBufferFull]. *)
Fixpoint ReadString_from (fuel : nat) (full : string) (delim : ascii) (b : Reader)
  : prog Call (option (string * option error)) :=
  match fuel with
  | O => Ret None
  | S fuel' =>
      r <- ReadSlice delim b;;
      match r with
      | None => Ret None
      | Some (frag, None, _) => Ret (Some (full +:+ frag, None))
      | Some (frag, Some ErrBufferFull, b') =>
          ReadString_from fuel' (full +:+ frag) delim b'
      | Some (frag, Some e, _) => Ret (Some (full +:+ frag, Some e))
      end
  end.

Definition ReadString (delim : ascii) (b : Reader) :=
  ReadString_from (fuel_for b) "" delim b.

(** [func readClientResponse(conn Conn) (string, error)] *)
Definition readClientResponse : prog Call (option (string * option error)) :=
  let reader := NewReader maxReadSize in
  r <- ReadString "010" reader;;
  match r with
  | None => Ret None
  | Some (_, Some e) => Ret (Some ("", Some e))
  | Some (solution, None) => Ret (Some (TrimSpace solution, None))
  end.

(** What [HandleConnection] returns; [Diverges] stands for a loop of
    [readClientResponse] that used up its fuel. *)
Inductive result := Returns (err : option error) | Diverges.

(** [func (h *H) HandleConnection(conn Conn) error] *)
Definition HandleConnection : prog Call result :=
  challenge <- call GenerateChallenge;;
  e <- sendMessage (Protocol.PrefixChallenge +:+ challenge);;
  match e with
  | Some e => Ret (Returns (Some (Wrapped "failed to send challenge" e)))
  | None =>
      r <- readClientResponse;;
      match r with
      | None => Ret Diverges
      | Some (_, Some e) =>
          Ret (Returns (Some (Wrapped "failed to read client response" e)))
      | Some (solution, None) =>
          ok <- call (ValidateChallenge challenge solution);;
          if negb ok then
            e <- sendMessage (Protocol.PrefixError +:+ InvalidMsg);;
            match e with
            | Some e => Ret (Returns (Some (Wrapped "failed to send validate" e)))
            | None => Ret (Returns None)
            end
          else
            quote <- call GetQuote;;
            e <- sendMessage (Protocol.PrefixQuote +:+ quote);;
            match e with
            | Some e => Ret (Returns (Some (Wrapped "failed to send quote" e)))
            | None => Ret (Returns None)
            end
      end
  end.

(** *** Reading a trace *)

Definition is_read (ev : event) : Prop :=
  match ev with EvRead _ _ _ => True | _ => False end.

(** The bytes the reads of a trace took from the connection, in order. *)
Fixpoint received (tr : list event) : string :=
  match tr with
  | [] => ""
  | EvRead _ data _ :: tr' => data +:+ received tr'
  | _ :: tr' => received tr'
  end.

(** The bytes up to and including the first line feed, if there is one. *)
Definition first_line (s : string) : option string :=
  match IndexByte s "010" with
  | Some i => Some (slice s 0 (i + 1))
  | None => None
  end.

(** [fmt.Errorf(msg + ": %w", err)] on the error of [sendMessage], [nil]
    staying [nil]. *)
Definition send_error (msg : string) (err : option error) : option error :=
  match err with
  | Some e => Some (Wrapped msg (Wrapped "failed to send message" e))
  | None => None
  end.

(** The four ways through [HandleConnection], as the calls made and the
    value returned: the challenge could not be sent; the solution could
    not be read; the solution was rejected; the solution was accepted. *)
Inductive exchange : list event -> result -> Prop :=
| SendFailed challenge n e :
    exchange
      [EvGenerateChallenge challenge;
       EvWrite (Protocol.PrefixChallenge +:+ challenge +:+ LF) n (Some e)]
      (Returns (send_error "failed to send challenge" (Some e)))
| ReadFailed challenge n reads e :
    Forall is_read reads ->
    len (received reads) <= maxReadSize ->
    first_line (received reads) = None ->
    exchange
      (EvGenerateChallenge challenge
       :: EvWrite (Protocol.PrefixChallenge +:+ challenge +:+ LF) n None
       :: reads)
      (Returns (Some (Wrapped "failed to read client response" e)))
| Rejected challenge n reads line n' err :
    Forall is_read reads ->
    len (received reads) <= maxReadSize ->
    first_line (received reads) = Some line ->
    exchange
      (EvGenerateChallenge challenge
       :: EvWrite (Protocol.PrefixChallenge +:+ challenge +:+ LF) n None
       :: reads
       ++ [EvValidateChallenge challenge (TrimSpace line) false;
           EvWrite (Protocol.PrefixError +:+ InvalidMsg +:+ LF) n' err])
      (Returns (send_error "failed to send validate" err))
| Accepted challenge n reads line quote n' err :
    Forall is_read reads ->
    len (received reads) <= maxReadSize ->
    first_line (received reads) = Some line ->
    exchange
      (EvGenerateChallenge challenge
       :: EvWrite (Protocol.PrefixChallenge +:+ challenge +:+ LF) n None
       :: reads
       ++ [EvValidateChallenge challenge (TrimSpace line) true;
           EvGetQuote quote;
           EvWrite (Protocol.PrefixQuote +:+ quote +:+ LF) n' err])
      (Returns (send_error "failed to send quote" err)).

(** What a read of one line leaves: only reads in the trace, within
    the budget; the line up to the first line feed of everything
    buffered and read, or an error when there is no line feed. *)
Definition line_read (b : Reader) (tr : list event)
    (res : option (string * option error * Reader)) : Prop :=
  Forall is_read tr
  /\ len (received tr) <= N b
  /\ exists line e b',
      res = Some (line, e, b')
      /\ match e with
         | None => first_line (buf b +:+ received tr) = Some line
         | Some x => first_line (buf b +:+ received tr) = None
                     /\ x <> ErrBufferFull
         end.

(** What [readClientResponse] leaves: the trimmed first line, or an
    error when no line feed came within the budget. *)
Definition solution_read (tr : list event)
    (res : option (string * option error)) : Prop :=
  Forall is_read tr
  /\ len (received tr) <= maxReadSize
  /\ match first_line (received tr) with
     | Some line => res = Some (TrimSpace line, None)
     | None => exists e, res = Some ("", Some e)
     end.

(** [HandleConnection] reports that the solution could not be read. *)
Definition read_failure (r : result) : Prop :=
  exists e, r = Returns (Some (Wrapped "failed to read client response" e)).

(** A read that brought no byte and no error. *)
Definition empty_read (ev : event) : Prop := exists n, ev = EvRead n "" None.

(** Why the reading of the line was given up with the error [e]: the
    last read of the connection returned [e]; or the budget is used up,
    which the size-limiting reader reports as the end of the stream;
    or [maxConsecutiveEmptyReads] reads in a row brought nothing. *)
Definition gave_up (tr : list event) (e : error) : Prop :=
  (exists before n data, tr = before ++ [EvRead n data (Some e)])
  \/ (e = EOF /\ len (received tr) = maxReadSize)
  \/ (e = ErrNoProgress
      /\ exists before last,
           tr = before ++ last
           /\ List.length last = maxConsecutiveEmptyReads
           /\ Forall empty_read last).

(** The lines written to the client, with the error of each write. *)
Fixpoint writes (tr : list event) : list (string * option error) :=
  match tr with
  | [] => []
  | EvWrite b _ err :: tr' => (b, err) :: writes tr'
  | _ :: tr' => writes tr'
  end.

(** The number of calls of [GetQuote]. *)
Fixpoint quote_calls (tr : list event) : nat :=
  match tr with
  | [] => O
  | EvGetQuote _ :: tr' => S (quote_calls tr')
  | _ :: tr' => quote_calls tr'
  end.

End Handler.

(* ================================================================== *)
(** ** cmd/server/main.go: the handler and its collaborators *)
(* ================================================================== *)

Module Wiring.
Import GoStrings Handler.

(** The peer and the collaborators [main] hands to [app.NewHandler]:
    the engine, the payload source, and a connection given by what its
    successive reads deliver and how its successive writes end. *)
Record world := {
  pow : Pow.SHA256PoW;
  quoteProvider : Quotes.RandomQuoteProvider;
  incoming : list (string * option error);
  outcomes : list (option error);
  sent : list string
}.

(** [conn.Read(p)] with [len(p) = n]: at most [n] bytes of what has
    arrived; the end of the stream once nothing is left. *)
Definition conn_Read (n : Z) (w : world) : (string * option error) * world :=
  match incoming w with
  | [] => (("", Some EOF), w)
  | (data, e) :: rest =>
      if len data <=? n then
        ((data, match e with Some ErrBufferFull => None | _ => e end),
         {| pow := pow w; quoteProvider := quoteProvider w; incoming := rest;
            outcomes := outcomes w; sent := sent w |})
      else
        let k := Z.to_nat (Z.max 0 n) in
        ((slice data 0 k, None),
         {| pow := pow w; quoteProvider := quoteProvider w;
            incoming := (slice data k (String.length data), e) :: rest;
            outcomes := outcomes w; sent := sent w |})
  end.

(** [conn.Write(b)] *)
Definition conn_Write (b : string) (w : world) : (Z * option error) * world :=
  match outcomes w with
  | Some e :: rest =>
      ((0, Some e),
       {| pow := pow w; quoteProvider := quoteProvider w; incoming := incoming w;
          outcomes := rest; sent := sent w |})
  | o =>
      ((len b, None),
       {| pow := pow w; quoteProvider := quoteProvider w; incoming := incoming w;
          outcomes := tl o; sent := sent w ++ [b] |})
  end.

(** [ValidateChallenge] returns a [bool] to the handler.  At a
    difficulty at which the engine does not return, the panic unwinds
    [HandleConnection]; the answer [false] this oracle gives then is no
    behaviour of the program, and no world used below has such a
    difficulty. *)
Definition oracle {heap : Heap} (B : Type) (e : Call B) : world -> B * world :=
  match e in Call B return world -> B * world with
  | Write b => conn_Write b
  | Read n => conn_Read n
  | GenerateChallenge => fun w =>
      let '(c, p) := Pow.GenerateChallenge (pow w) in
      (c, {| pow := p; quoteProvider := quoteProvider w; incoming := incoming w;
             outcomes := outcomes w; sent := sent w |})
  | ValidateChallenge c s => fun w =>
      (match Pow.ValidateChallenge (pow w) c s with
       | Some ok => ok
       | None => false
       end, w)
  | GetQuote => fun w =>
      match Quotes.GetQuote (quoteProvider w) with
      | Some (q, qp) =>
          (q, {| pow := pow w; quoteProvider := qp; incoming := incoming w;
                 outcomes := outcomes w; sent := sent w |})
      | None => ("", w)
      end
  end.

(** The collaborators as [main] builds them: difficulty 4 and the
    eight quotes; the peer sends [incoming]. *)
Definition main_world (incoming : list (string * option error))
    (outcomes : list (option error)) : world :=
  {| pow := Pow.NewSHA256PoW 4 Rand.sevens;
     quoteProvider :=
       Quotes.NewRandomQuoteProvider
         [ "We are not what we know but what we are willing to learn.";
           "Good people are good because they've come to wisdom through failure.";
           "Your word is a lamp for my feet, a light for my path.";
           "The first problem for all of us, men and women, is not to learn, but to unlearn.";
           "The only limit to our realization of tomorrow is our doubts of today.";
           "Do what you can, with what you have, where you are.";
           "The journey of a thousand miles begins with one step.";
           "Opportunities don't happen. You create them." ]
         Rand.sevens;
     incoming := incoming;
     outcomes := outcomes;
     sent := [] |}.

(** [HandleConnection] against these collaborators. *)
Definition serve {heap : Heap} (w : world) : list event * result * world :=
  run Handler.observe oracle HandleConnection w.

End Wiring.

(* ================================================================== *)
(** ** internal/config and internal/app/server.go *)
(* ================================================================== *)

(** The sources hold two revisions of server.go; the later one, with
    the limiter registry and [recoverPanic], is the one embedded here. *)
Module Server.
Import GoStrings.

(** [type Config struct]; a [time.Duration] counts nanoseconds. *)
Record Config := {
  Port : string;
  MaxConnections : Z;
  ConnectionTimeout : Z;
  ShutdownTimeout : Z;
  RateLimitEvery100MS : Z
}.

Definition Millisecond : Z := 1000000.

Definition MsgOnManyReq : string :=
  "Too many requests. Please try again later." +:+ LF.
Definition MsgOnErrInternal : string :=
  "Internal server error. Please try again later." +:+ LF.

(** A [*rate.Limiter] of golang.org/x/time/rate, as far as the server
    sees it: the interval of [rate.Every], the burst, and the number of
    tokens taken so far. *)
Record Limiter := { every : Z; burst : Z; taken : nat }.

(** An accepted socket: the IP of its remote address when that is a
    TCP address, the calls of [Close], the bytes written to the peer
    and the timeout of the deadline last set. *)
Record Conn := {
  remote : option string;
  closes : nat;
  written : list string;
  deadline : option Z
}.

Inductive Level := Info | Warn | Error.

(** [type Server struct], once [Start] has bound the listener.
    [listener_closes] counts the calls of [s.listener.Close()], the
    socket listening until the first; [semaphore] is [len(s.semaphore)], the capacity of the channel being
    [MaxConnections]; [once_done] and [once_m] are the flag and the
    mutex of [shutdownOnce]; [limiterMap] maps an IP to the address of
    its limiter in [limiters]; a connection is named by its index in
    [conns]. *)
Record Server := mkServer {
  config : Config;
  listener_closes : nat;
  ctx_done : bool;
  wg : Z;
  semaphore : nat;
  once_done : bool;
  once_m : bool;
  limiterMap : gmap string nat;
  limiters : list Limiter;
  conns : list Conn;
  log : list (Level * string)
}.

Definition set_listener_closes (v : nat) (s : Server) : Server :=
  mkServer (config s) v (ctx_done s) (wg s) (semaphore s) (once_done s)
    (once_m s) (limiterMap s) (limiters s) (conns s) (log s).
Definition set_ctx_done (v : bool) (s : Server) : Server :=
  mkServer (config s) (listener_closes s) v (wg s) (semaphore s) (once_done s)
    (once_m s) (limiterMap s) (limiters s) (conns s) (log s).
Definition set_wg (v : Z) (s : Server) : Server :=
  mkServer (config s) (listener_closes s) (ctx_done s) v (semaphore s) (once_done s)
    (once_m s) (limiterMap s) (limiters s) (conns s) (log s).
Definition set_semaphore (v : nat) (s : Server) : Server :=
  mkServer (config s) (listener_closes s) (ctx_done s) (wg s) v (once_done s)
    (once_m s) (limiterMap s) (limiters s) (conns s) (log s).
Definition set_once_done (v : bool) (s : Server) : Server :=
  mkServer (config s) (listener_closes s) (ctx_done s) (wg s) (semaphore s) v
    (once_m s) (limiterMap s) (limiters s) (conns s) (log s).
Definition set_once_m (v : bool) (s : Server) : Server :=
  mkServer (config s) (listener_closes s) (ctx_done s) (wg s) (semaphore s) (once_done s)
    v (limiterMap s) (limiters s) (conns s) (log s).
Definition set_limiterMap (v : gmap string nat) (s : Server) : Server :=
  mkServer (config s) (listener_closes s) (ctx_done s) (wg s) (semaphore s) (once_done s)
    (once_m s) v (limiters s) (conns s) (log s).
Definition set_limiters (v : list Limiter) (s : Server) : Server :=
  mkServer (config s) (listener_closes s) (ctx_done s) (wg s) (semaphore s) (once_done s)
    (once_m s) (limiterMap s) v (conns s) (log s).
Definition set_conns (v : list Conn) (s : Server) : Server :=
  mkServer (config s) (listener_closes s) (ctx_done s) (wg s) (semaphore s) (once_done s)
    (once_m s) (limiterMap s) (limiters s) v (log s).
Definition add_log (lvl : Level) (msg : string) (s : Server) : Server :=
  mkServer (config s) (listener_closes s) (ctx_done s) (wg s) (semaphore s) (once_done s)
    (once_m s) (limiterMap s) (limiters s) (conns s) (log s ++ [(lvl, msg)]).

(** [cap(s.semaphore)] *)
Definition capacity (s : Server) : nat := Z.to_nat (MaxConnections (config s)).

(** How a goroutine or a function ends: it returns, it panics, or - the
    body of a [for] loop - it goes round again. *)
Inductive Exit := Returned | Panicking (v : string) | Again.

(** What [s.handler.HandleConnection(conn)] does: the interface value
    is any handler, one that panics included. *)
Inductive HandlerResult :=
| HandlerNil
| HandlerError (msg : string)
| HandlerPanic (v : string).

(** The atomic operations of the goroutines on the server, the sockets
    and the clock. *)
Inductive Op : Type -> Type :=
| Accept : Op (nat + string)                (* s.listener.Accept() *)
| CtxErr : Op bool                          (* s.ctx.Err() != nil *)
| AwaitCtx : Op unit                        (* <-s.ctx.Done() *)
| Log (lvl : Level) (msg : string) : Op unit
| TryAcquire : Op bool                      (* select { case s.semaphore <- struct{}{}: default: } *)
| WgAdd (delta : Z) : Op unit               (* s.wg.Add(delta) *)
| GoHandleClient (conn : nat) : Op unit     (* go s.handleClient(conn) *)
| Close (conn : nat) : Op unit              (* conn.Close() *)
| Release : Op unit                         (* <-s.semaphore *)
| WgDone : Op (option string)               (* s.wg.Done(); Some v: it panics *)
| RemoteIP (conn : nat) : Op (option string)
    (* the IP of conn.RemoteAddr() asserted to be a TCP address; None: the assertion panics *)
| NewLimiter (every burst : Z) : Op nat     (* rate.NewLimiter(rate.Every(every), burst) *)
| LoadOrStore (ip : string) (l : nat) : Op (nat * bool)
    (* s.limiterMap.LoadOrStore(ip, l) *)
| Allow (l : nat) : Op bool                 (* limiter.Allow() *)
| ConnWrite (conn : nat) (b : string) : Op unit   (* _, _ = conn.Write(b) *)
| SetDeadline (conn : nat) (timeout : Z) : Op (option string)
    (* conn.SetDeadline(time.Now().Add(timeout)) *)
| Handle (conn : nat) : Op HandlerResult    (* s.handler.HandleConnection(conn) *)
| ListenerClose : Op (option string)        (* s.listener.Close() *)
| DrainWait (timeout : Z) : Op bool
    (* go func() { s.wg.Wait(); close(done) }(); select { case <-done: case <-time.After(timeout): };
       true: done came first *)
| Cancel : Op unit                          (* s.cancel() *)
| OnceLoad : Op bool                        (* o.done.Load() != 0 *)
| OnceLock : Op unit                        (* o.m.Lock() *)
| OnceStore : Op unit                       (* o.done.Store(1) *)
| OnceUnlock : Op unit.                     (* o.m.Unlock() *)

(** *** The code *)

Section Code.
Variable cfg : Config.

Local Abbreviation call e := (@call Op _ e).

(** [func (s *Server) getLimiterForIP(ip string) *rate.Limiter].  The
    argument of [LoadOrStore] is evaluated first: a limiter is
    allocated at every call. *)
Definition getLimiterForIP (ip : string) : prog Op nat :=
  fresh <- call (NewLimiter (100 * Millisecond) (RateLimitEvery100MS cfg));;
  '(limiter, loaded) <- call (LoadOrStore ip fresh);;
  _ <- (if negb loaded
        then call (Log Info ("Created new rate limiter for IP: " +:+ ip))
        else Ret tt);;
  Ret limiter.

(** The body of [handleClient], its deferred calls apart. *)
Definition handleClient_body (conn : nat) : prog Op Exit :=
  addr <- call (RemoteIP conn);;
  match addr with
  | None => Ret (Panicking "interface conversion: net.Addr is not *net.TCPAddr")
  | Some ip =>
      limiter <- getLimiterForIP ip;;
      ok <- call (Allow limiter);;
      if negb ok then
        _ <- call (ConnWrite conn MsgOnManyReq);;
        Ret Returned
      else
        err <- call (SetDeadline conn (ConnectionTimeout cfg));;
        _ <- match err with
             | Some e =>
                 call (Log Error ("Failed to set deadline for client "
                                  +:+ ip +:+ ": " +:+ e))
             | None => Ret tt
             end;;
        r <- call (Handle conn);;
        match r with
        | HandlerNil => Ret Returned
        | HandlerError e =>
            _ <- call (Log Error ("Error handling client " +:+ ip +:+ ": " +:+ e));;
            Ret Returned
        | HandlerPanic v => Ret (Panicking v)
        end
  end.

(** [func (s *Server) recoverPanic(funcName string, conn net.Conn)],
    deferred: [recover()] returns the value of the panic in flight,
    and the function that deferred it then returns normally.  The log
    entry is kept without its stack trace. *)
Definition recoverPanic (funcName : string) (conn : nat) (e : Exit)
  : prog Op Exit :=
  match e with
  | Panicking v =>
      _ <- call (Log Error ("Panic recovered in " +:+ funcName +:+ ": " +:+ v));;
      _ <- call (ConnWrite conn MsgOnErrInternal);;
      Ret Returned
  | e => Ret e
  end.

(** [func (s *Server) handleClient(conn net.Conn)]: the body, then the
    four deferred calls, last deferred first.  A panic of [wg.Done]
    has nothing left to recover it. *)
Definition handleClient (conn : nat) : prog Op Exit :=
  e <- handleClient_body conn;;
  e <- recoverPanic "handleClient" conn e;;
  _ <- call Release;;
  _ <- call (Close conn);;
  r <- call WgDone;;
  match r with
  | Some v => Ret (Panicking v)
  | None => Ret e
  end.

(** [strings.Contains(s, substr)] *)
Definition Contains (s substr : string) : bool :=
  match index 0 substr s with
  | Some _ => true
  | None => false
  end.

(** What [acceptConnections] does with an accepted socket. *)
Definition dispatch (conn : nat) : prog Op Exit :=
  ok <- call TryAcquire;;
  if ok then
    _ <- call (WgAdd 1);;
    _ <- call (GoHandleClient conn);;
    Ret Again
  else
    _ <- call (Log Warn "Too many connections. Rejecting client.");;
    _ <- call (Close conn);;
    Ret Again.

(** One turn of the loop of [func (s *Server) acceptConnections()]. *)
Definition acceptConnections : prog Op Exit :=
  r <- call Accept;;
  match r with
  | inr err =>
      stopping <- call CtxErr;;
      if stopping then
        _ <- call (Log Info "Server is shutting down, stopping connection handling...");;
        Ret Returned
      else if Contains err "use of closed network connection" then
        _ <- call (Log Info "Listener closed, stopping connection handling...");;
        Ret Returned
      else
        _ <- call (Log Error ("Failed to accept connection: " +:+ err));;
        Ret Again
  | inl conn => dispatch conn
  end.

(** The function [Shutdown] hands to [shutdownOnce.Do]. *)
Definition Shutdown_body : prog Op Exit :=
  _ <- call (Log Info "Shutting down server...");;
  err <- call ListenerClose;;
  _ <- match err with
       | Some e => call (Log Error ("Error closing listener: " +:+ e))
       | None => Ret tt
       end;;
  drained <- call (DrainWait (ShutdownTimeout cfg));;
  _ <- (if drained
        then call (Log Info "All connections closed. Server stopped.")
        else call (Log Warn "Shutdown timeout reached. Forcing termination."));;
  _ <- call Cancel;;
  Ret Returned.

(** [func (o *Once) Do(f func())] of package sync: the fast path on
    [done], then [doSlow], whose deferred [done.Store(1)] and
    [m.Unlock()] run however [f] ends. *)
Definition Once_Do (f : prog Op Exit) : prog Op Exit :=
  done <- call OnceLoad;;
  if done then Ret Returned
  else
    _ <- call OnceLock;;
    done <- call OnceLoad;;
    if done then
      _ <- call OnceUnlock;;
      Ret Returned
    else
      e <- f;;
      _ <- call OnceStore;;
      _ <- call OnceUnlock;;
      Ret e.

(** [func (s *Server) Shutdown()] *)
Definition Shutdown : prog Op Exit := Once_Do Shutdown_body.

(** [Start], from [<-s.ctx.Done()] on. *)
Definition Start_wait : prog Op Exit :=
  _ <- call AwaitCtx;;
  Shutdown.

End Code.

(** *** The operations *)

(** What the surroundings decide in one step: what [Accept] finds on a
    listening socket (a peer with its address, or an error), whether the
    bucket holds a token at this instant, whether the deadline can be
    set, what the handler does and writes, and whether the connections
    drain before the timer fires. *)
Record Choice := {
  arrival : option string + string;
  token_left : bool;
  deadline_error : option string;
  handler_result : HandlerResult;
  handler_output : list string;
  drained : bool
}.

Definition update_conn (c : nat) (f : Conn -> Conn) (s : Server) : Server :=
  match conns s !! c with
  | Some x => set_conns (<[c := f x]> (conns s)) s
  | None => s
  end.

Definition closed_once (x : Conn) : Conn :=
  {| remote := remote x; closes := S (closes x); written := written x;
     deadline := deadline x |}.
Definition with_written (b : list string) (x : Conn) : Conn :=
  {| remote := remote x; closes := closes x; written := written x ++ b;
     deadline := deadline x |}.
Definition with_deadline (d : Z) (x : Conn) : Conn :=
  {| remote := remote x; closes := closes x; written := written x;
     deadline := Some d |}.
Definition took_token (l : Limiter) : Limiter :=
  {| every := every l; burst := burst l; taken := S (taken l) |}.

(** [op e ch s]: the result of [e] in the state [s] and the state it
    leaves; [None] when [e] blocks. *)
Definition op (B : Type) (e : Op B) (ch : Choice) (s : Server)
  : option (B * Server) :=
  match e in Op B return option (B * Server) with
  | Accept =>
      match listener_closes s with
      | S _ => Some (inr "accept tcp: use of closed network connection", s)
      | O =>
          match arrival ch with
          | inl addr =>
              Some (inl (List.length (conns s)),
                    set_conns (conns s ++ [ {| remote := addr; closes := O;
                                               written := []; deadline := None |} ]) s)
          | inr err => Some (inr err, s)
          end
      end
  | CtxErr => Some (ctx_done s, s)
  | AwaitCtx => if ctx_done s then Some (tt, s) else None
  | Log lvl msg => Some (tt, add_log lvl msg s)
  | TryAcquire =>
      if (semaphore s <? capacity s)%nat
      then Some (true, set_semaphore (S (semaphore s)) s)
      else Some (false, s)
  | WgAdd delta => Some (tt, set_wg (wg s + delta) s)
  | GoHandleClient _ => Some (tt, s)
  | Close c => Some (tt, update_conn c closed_once s)
  | Release =>
      match semaphore s with
      | O => None
      | S n => Some (tt, set_semaphore n s)
      end
  | WgDone =>
      if wg s - 1 <? 0
      then Some (Some "sync: negative WaitGroup counter", set_wg (wg s - 1) s)
      else Some (None, set_wg (wg s - 1) s)
  | RemoteIP c =>
      match conns s !! c with
      | Some x => Some (remote x, s)
      | None => Some (None, s)
      end
  | NewLimiter d b =>
      Some (List.length (limiters s),
            set_limiters (limiters s ++ [ {| every := d; burst := b; taken := O |} ]) s)
  | LoadOrStore ip l =>
      match limiterMap s !! ip with
      | Some actual => Some ((actual, true), s)
      | None => Some ((l, false), set_limiterMap (<[ip := l]> (limiterMap s)) s)
      end
  | Allow l =>
      match limiters s !! l with
      | Some x =>
          if token_left ch && (1 <=? burst x)
          then Some (true, set_limiters (<[l := took_token x]> (limiters s)) s)
          else Some (false, s)
      | None => Some (false, s)
      end
  | ConnWrite c b => Some (tt, update_conn c (with_written [b]) s)
  | SetDeadline c d =>
      match deadline_error ch with
      | Some e => Some (Some e, s)
      | None => Some (None, update_conn c (with_deadline d) s)
      end
  | Handle c =>
      Some (handler_result ch, update_conn c (with_written (handler_output ch)) s)
  | ListenerClose =>
      match listener_closes s with
      | O => Some (None, set_listener_closes 1 s)
      | S n =>
          Some (Some "close tcp: use of closed network connection",
                set_listener_closes (S (S n)) s)
      end
  | DrainWait _ => Some (drained ch && (wg s =? 0), s)
  | Cancel => Some (tt, set_ctx_done true s)
  | OnceLoad => Some (once_done s, s)
  | OnceLock => if once_m s then None else Some (tt, set_once_m true s)
  | OnceStore => Some (tt, set_once_done true s)
  | OnceUnlock => Some (tt, set_once_m false s)
  end.

(** *** Goroutines *)

(** A goroutine: the code it has left to run and, for a [for] loop
    without end, the body it starts again on [Again]. *)
Inductive Thread := Go (body : option (prog Op Exit)) (p : prog Op Exit).

(** The goroutines an operation starts. *)
Definition spawned (cfg : Config) (B : Type) (e : Op B) : list Thread :=
  match e with
  | GoHandleClient c => [Go None (handleClient cfg c)]
  | _ => []
  end.

(** One function run by itself to its end, no other goroutine taking
    a step in between: the value it ends with, the state it leaves and
    the goroutines it started; [None] if it blocks.  A function of this
    program consults the surroundings at most once about each thing, so
    that one [Choice] describes them for the whole call. *)
Fixpoint solo {A : Type} (ch : Choice) (p : prog Op A) (s : Server)
  : option (A * Server * list Thread) :=
  match p with
  | Ret e => Some (e, s, [])
  | Vis e k =>
      match op _ e ch s with
      | None => None
      | Some (b, s') =>
          match solo ch (k b) s' with
          | None => None
          | Some (x, s'', ts) => Some (x, s'', spawned (config s) _ e ++ ts)
          end
      end
  end.

(** Calls of [Shutdown] one after the other, each to its end. *)
Fixpoint Shutdown_calls (chs : list Choice) (s : Server) : option Server :=
  match chs with
  | [] => Some s
  | ch :: chs' =>
      match solo ch (Shutdown (config s)) s with
      | Some (_, s', _) => Shutdown_calls chs' s'
      | None => None
      end
  end.

(** The process: the server, its goroutines, and whether a panic has
    reached the top of one of them. *)
Record World := { srv : Server; threads : list Thread; crashed : bool }.

(** A step of one goroutine. *)
Definition thread_step (s : Server) (t : Thread)
    (s' : Server) (ts' : list Thread) (crash : bool) : Prop :=
  let '(Go body p) := t in
  match p with
  | Vis e k =>
      exists ch b, op _ e ch s = Some (b, s')
                   /\ ts' = Go body (k b) :: spawned (config s) _ e
                   /\ crash = false
  | Ret Again =>
      s' = s /\ crash = false
      /\ ts' = match body with Some q => [Go body q] | None => [] end
  | Ret Returned => s' = s /\ crash = false /\ ts' = []
  | Ret (Panicking _) => s' = s /\ crash = true /\ ts' = []
  end.

(** A step of the process: a goroutine moves; SIGINT or SIGTERM
    arrives and [signal.NotifyContext] cancels the context; some other
    goroutine calls [Shutdown]. *)
Inductive step : World -> World -> Prop :=
| step_thread s l1 t l2 s' ts' crash :
    thread_step s t s' ts' crash ->
    step {| srv := s; threads := l1 ++ t :: l2; crashed := false |}
         {| srv := s'; threads := l1 ++ ts' ++ l2; crashed := crash |}
| step_signal s ts :
    step {| srv := s; threads := ts; crashed := false |}
         {| srv := set_ctx_done true s; threads := ts; crashed := false |}
| step_call_Shutdown s ts :
    step {| srv := s; threads := ts; crashed := false |}
         {| srv := s; threads := ts ++ [Go None (Shutdown (config s))];
            crashed := false |}.

(** [NewServer(c, logger, handler)] followed by [Start] as far as
    [go s.acceptConnections()], the listener bound: [make] panics on a
    negative capacity. *)
Definition started (c : Config) : option World :=
  if MaxConnections c <? 0 then None
  else Some {| srv := mkServer c O false 0 O false false ∅ [] [] [];
               threads := [Go (Some acceptConnections) acceptConnections;
                           Go None (Start_wait c)];
               crashed := false |}.

Inductive reachable (c : Config) : World -> Prop :=
| reachable_started w : started c = Some w -> reachable c w
| reachable_step w w' : reachable c w -> step w w' -> reachable c w'.

(** *** Schedules *)

(** The step of a goroutine, computed. *)
Definition thread_run (ch : Choice) (s : Server) (t : Thread)
  : option (Server * list Thread * bool) :=
  let '(Go body p) := t in
  match p with
  | Vis e k =>
      match op _ e ch s with
      | Some (b, s') => Some (s', Go body (k b) :: spawned (config s) _ e, false)
      | None => None
      end
  | Ret Again => Some (s, match body with Some q => [Go body q] | None => [] end, false)
  | Ret Returned => Some (s, [], false)
  | Ret (Panicking _) => Some (s, [], true)
  end.

(** A schedule names, step by step, the goroutine that moves and what
    the surroundings decide, or an event from outside. *)
Inductive Move := Run (i : nat) (ch : Choice) | Signal | CallShutdown.

Definition move (m : Move) (w : World) : option World :=
  if crashed w then None
  else
    match m with
    | Run i ch =>
        match threads w !! i with
        | Some t =>
            match thread_run ch (srv w) t with
            | Some (s', ts', crash) =>
                Some {| srv := s';
                        threads := take i (threads w) ++ ts' ++ drop (S i) (threads w);
                        crashed := crash |}
            | None => None
            end
        | None => None
        end
    | Signal =>
        Some {| srv := set_ctx_done true (srv w); threads := threads w;
                crashed := false |}
    | CallShutdown =>
        Some {| srv := srv w;
                threads := threads w ++ [Go None (Shutdown (config (srv w)))];
                crashed := false |}
    end.

Fixpoint play (ms : list Move) (w : World) : option World :=
  match ms with
  | [] => Some w
  | m :: ms' =>
      match move m w with
      | Some w' => play ms' w'
      | None => None
      end
  end.

(** The configuration of the tests of the connection limit, and
    another with no field in common. *)
Definition test_config : Config :=
  {| Port := "localhost:8083"; MaxConnections := 2;
     ConnectionTimeout := 5000 * Millisecond;
     ShutdownTimeout := 5000 * Millisecond;
     RateLimitEvery100MS := 5 |}.

Definition other_config : Config :=
  {| Port := ":9000"; MaxConnections := 100;
     ConnectionTimeout := 2000 * Millisecond;
     ShutdownTimeout := 3000 * Millisecond;
     RateLimitEvery100MS := 50 |}.

(** A peer at 127.0.0.1 arrives; the bucket has a token; the handler
    does what [r] says. *)
Definition peer (r : HandlerResult) : Choice :=
  {| arrival := inl (Some "127.0.0.1"); token_left := true;
     deadline_error := None; handler_result := r; handler_output := [];
     drained := true |}.

(** The accept loop takes a connection in: [Accept], the [select], the
    [wg.Add], the [go] statement, and round again. *)
Definition take_in : list Move :=
  [Run 0 (peer HandlerNil); Run 0 (peer HandlerNil); Run 0 (peer HandlerNil);
   Run 0 (peer HandlerNil); Run 0 (peer HandlerNil)].

(** The goroutine [i] runs [handleClient] to its end, for a peer whose
    IP has no limiter yet: eleven steps when the handler returns [nil],
    twelve when it returns an error, thirteen when it panics. *)
Definition serve_first (i : nat) (r : HandlerResult) : list Move :=
  repeat (Run i (peer r))
    match r with HandlerNil => 11 | HandlerError _ => 12 | HandlerPanic _ => 13 end.

(** The first peer is served and its handler panics; then two more
    peers are taken in. *)
Definition served_once : option World :=
  w ← started test_config;
  play (take_in ++ serve_first 1 (HandlerPanic "hello panic")) w.

Definition after_a_panic : option World :=
  w ← served_once;
  play (take_in ++ take_in) w.

(** Two peers are being served and a third has just been accepted. *)
Definition full_house : option World :=
  w ← started test_config;
  play (take_in ++ take_in ++ [Run 0 (peer HandlerNil)]) w.

(** [Shutdown] is called twice from outside while a peer is served;
    the first caller runs up to the wait for the connections, the second
    finds the mutex taken, the signal arrives and [Start] calls
    [Shutdown] for the third time; the first caller finishes after the
    peer was served, the others return, and the accept loop ends. *)
Definition three_shutdowns : option World :=
  w ← started test_config;
  play (take_in
        ++ [CallShutdown; CallShutdown]
        ++ repeat (Run 3 (peer HandlerNil)) 5
        ++ [Run 4 (peer HandlerNil); Signal; Run 2 (peer HandlerNil);
            Run 2 (peer HandlerNil)]
        ++ serve_first 1 HandlerNil
        ++ repeat (Run 2 (peer HandlerNil)) 6
        ++ repeat (Run 2 (peer HandlerNil)) 4
        ++ repeat (Run 1 (peer HandlerNil)) 4
        ++ repeat (Run 0 (peer HandlerNil)) 4) w.

(** The limiters a server holds after its first call of
    [getLimiterForIP]. *)
Definition first_limiter (cfg : Config) : option (list Limiter) :=
  match solo (peer HandlerNil) (getLimiterForIP cfg "127.0.0.1")
          (mkServer cfg O false 0 O false false ∅ [] [] []) with
  | Some (_, s, _) => Some (limiters s)
  | None => None
  end.

(** The numbers a configuration holds. *)
Definition numbers (cfg : Config) : list Z :=
  [MaxConnections cfg; ConnectionTimeout cfg; ShutdownTimeout cfg;
   RateLimitEvery100MS cfg].

(** *** What a goroutine owes *)

(** Where a goroutine stands in [shutdownOnce.Do]: outside; holding the
    mutex; having found [done] unset; having closed the listener;
    having set [done]; or holding the mutex with nothing left to do. *)
Inductive Phase := Outside | Locked | Entering | InBody | Stored | Leaving.

(** The obligations of a goroutine: a slot of the semaphore to give
    back, a unit of the wait group to give back, and its phase. *)
Record Debt := { slot : bool; counted : bool; phase : Phase }.

Definition idle : Debt := {| slot := false; counted := false; phase := Outside |}.
Definition unit_debt : Debt :=
  {| slot := true; counted := true; phase := Outside |}.

Definition with_slot (v : bool) (d : Debt) : Debt :=
  {| slot := v; counted := counted d; phase := phase d |}.
Definition with_counted (v : bool) (d : Debt) : Debt :=
  {| slot := slot d; counted := v; phase := phase d |}.
Definition with_phase (v : Phase) (d : Debt) : Debt :=
  {| slot := slot d; counted := counted d; phase := v |}.

(** The debt after an operation that returned [b]: [Next d], or
    [Never] when a goroutine with this debt cannot see this result, or
    [Wrong] when a goroutine with this debt must not make this call. *)
Inductive Verdict := Next (d : Debt) | Never | Wrong.

Definition after (cfg : Config) (d : Debt) (B : Type) (e : Op B) : B -> Verdict :=
  match e in Op B return B -> Verdict with
  | TryAcquire => fun b =>
      if b then (if slot d then Wrong else Next (with_slot true d)) else Next d
  | WgAdd n => fun _ =>
      if (n =? 1) && negb (counted d) then Next (with_counted true d) else Wrong
  | GoHandleClient _ => fun _ =>
      if slot d && counted d then Next (with_slot false (with_counted false d))
      else Wrong
  | Release => fun _ => if slot d then Next (with_slot false d) else Wrong
  | WgDone => fun r =>
      if counted d
      then match r with Some _ => Never | None => Next (with_counted false d) end
      else Wrong
  | NewLimiter t b => fun _ =>
      if (t =? 100 * Millisecond) && (b =? RateLimitEvery100MS cfg)
      then Next d else Wrong
  | OnceLock => fun _ =>
      match phase d with Outside => Next (with_phase Locked d) | _ => Wrong end
  | OnceLoad => fun b =>
      match phase d with
      | Outside => Next d
      | Locked => Next (with_phase (if b then Leaving else Entering) d)
      | _ => Wrong
      end
  | ListenerClose => fun _ =>
      match phase d with Entering => Next (with_phase InBody d) | _ => Wrong end
  | OnceStore => fun _ =>
      match phase d with InBody => Next (with_phase Stored d) | _ => Wrong end
  | OnceUnlock => fun _ =>
      match phase d with
      | Stored | Leaving => Next (with_phase Outside d)
      | _ => Wrong
      end
  | _ => fun _ => Next d
  end.

(** [settles cfg d p]: on every path, [p] makes only the calls its
    debt allows and ends, without a panic, owing nothing. *)
Fixpoint settles (cfg : Config) (d : Debt) (p : prog Op Exit) : Prop :=
  match p with
  | Ret e => d = idle /\ match e with Panicking _ => False | _ => True end
  | Vis e k =>
      forall b, match after cfg d _ e b with
                | Next d' => settles cfg d' (k b)
                | Never => True
                | Wrong => False
                end
  end.

Definition thread_settles (cfg : Config) (d : Debt) (t : Thread) : Prop :=
  match t with
  | Go body p =>
      settles cfg d p
      /\ match body with Some q => settles cfg idle q | None => True end
  end.

(** The number of debts with a property. *)
Fixpoint tally (f : Debt -> bool) (ds : list Debt) : nat :=
  match ds with
  | [] => O
  | d :: ds' => (if f d then 1 else 0) + tally f ds'
  end.

Definition busy (d : Debt) : bool :=
  match phase d with Outside => false | _ => true end.
Definition entering (d : Debt) : bool :=
  match phase d with Entering => true | _ => false end.
Definition in_body (d : Debt) : bool :=
  match phase d with InBody => true | _ => false end.

Definition limiter_ok (cfg : Config) (l : Limiter) : Prop :=
  every l = 100 * Millisecond /\ burst l = RateLimitEvery100MS cfg.

(** The server and the debts of its goroutines agree. *)
Record balanced (cfg : Config) (s : Server) (ds : list Debt) : Prop := {
  bal_config : config s = cfg;
  bal_slots : semaphore s = tally slot ds;
  bal_capacity : (semaphore s <= capacity s)%nat;
  bal_counted : wg s = Z.of_nat (tally counted ds);
  bal_mutex : tally busy ds = if once_m s then 1%nat else 0%nat;
  bal_closes : listener_closes s = if once_done s then 1%nat else tally in_body ds;
  bal_done : once_done s = true -> tally entering ds = 0%nat /\ tally in_body ds = 0%nat;
  bal_limiters : Forall (limiter_ok cfg) (limiters s)
}.

(** The debts of the goroutines an operation starts. *)
Definition spawned_debts (B : Type) (e : Op B) : list Debt :=
  match e with
  | GoHandleClient _ => [unit_debt]
  | _ => []
  end.

Definition invariant (cfg : Config) (w : World) : Prop :=
  crashed w = false
  /\ exists ds, Forall2 (thread_settles cfg) ds (threads w)
                /\ balanced cfg (srv w) ds.

(** Every path of [p] makes exactly [n] calls of [<-s.semaphore]. *)
Fixpoint releases (n : nat) (p : prog Op Exit) : Prop :=
  match p with
  | Ret _ => n = O
  | Vis e k =>
      match e with
      | Release => match n with S n' => forall b, releases n' (k b) | O => False end
      | _ => forall b, releases n (k b)
      end
  end.

(** The results the invariants of the server rule out: [wg.Done()]
    does not panic while the goroutine that calls it is counted. *)
Definition expected (B : Type) (e : Op B) : B -> Prop :=
  match e in Op B return B -> Prop with
  | WgDone => fun r => r = None
  | _ => fun _ => True
  end.

(** [p] returns on every path, whatever its calls return: no panic
    leaves it. *)
Fixpoint returns_always (p : prog Op Exit) : Prop :=
  match p with
  | Ret e => e = Returned
  | Vis e k => forall b, expected _ e b -> returns_always (k b)
  end.

End Server.

(* ================================================================== *)
(** ** Reading a challenge back *)
(* ================================================================== *)

Module Numerals.
Import GoStrings.

(** The value of a digit of [hextable]; [None] for any other byte. *)
Definition hex_value (a : ascii) : option Z :=
  Z.of_nat <$> IndexByte "0123456789abcdef" a.

(** The number a string of such digits denotes, most significant digit
    first. *)
Fixpoint parse_hex_from (acc : Z) (s : string) : option Z :=
  match s with
  | "" => Some acc
  | String a rest =>
      match hex_value a with
      | Some d => parse_hex_from (acc * 16 + d) rest
      | None => None
      end
  end.

Definition parse_hex (s : string) : option Z := parse_hex_from 0 s.

(** Every byte of [s] is one of [0-9a-f]. *)
Fixpoint lower_hex (s : string) : bool :=
  match s with
  | "" => true
  | String a rest => bool_decide (is_Some (hex_value a)) && lower_hex rest
  end.

End Numerals.

(* ================================================================== *)
(** ** Package [fmt]: the verb [%d] *)
(* ================================================================== *)

Module Decimal.
(** The verb [%d] of [fmt.Sprintf] on an [int] or [int64]: a minus sign
    for a negative number, then the digits in base 10, most significant
    first.  Nineteen digits are enough for 63 bits. *)
Fixpoint dec_digits (n : nat) (v : Z) (acc : string) : string :=
  match n with
  | O => acc
  | S n' =>
      let acc' := String (Hex.hextable (v mod 10)) acc in
      if v / 10 =? 0 then acc' else dec_digits n' (v / 10) acc'
  end.

Definition Sprintf_d (v : Z) : string :=
  if v <? 0 then "-" +:+ dec_digits 19 (- v) "" else dec_digits 19 v "".

(** [v++] on an [int] or [int64]: it wraps around. *)
Definition incr (v : Z) : Z := if v =? maxInt then - 2 ^ 63 else v + 1.
End Decimal.

(* ================================================================== *)
(** ** Package [strings]: [TrimPrefix], and the bytes [TrimSpace] drops *)
(* ================================================================== *)

Module Edges.
Import GoStrings.

(** [strings.TrimPrefix(s, prefix)] *)
Definition TrimPrefix (s prefix : string) : string :=
  if HasPrefix s prefix then slice s (String.length prefix) (String.length s) else s.

(** A byte of the table [asciiSpace], and a byte of ASCII that is not
    in it. *)
Definition blank (a : ascii) : bool := asciiSpace (code a).
Definition solid (a : ascii) : bool := (code a <? RuneSelf) && negb (asciiSpace (code a)).

Fixpoint blanks (s : string) : bool :=
  match s with
  | "" => true
  | String a rest => blank a && blanks rest
  end.

Fixpoint solids (s : string) : bool :=
  match s with
  | "" => true
  | String a rest => solid a && solids rest
  end.

(** [s] is empty, or starts and ends with a solid byte. *)
Definition solid_ends (s : string) : bool :=
  match s with
  | "" => true
  | String a _ =>
      solid a && match get (String.length s - 1) s with
                 | Some z => solid z
                 | None => false
                 end
  end.

End Edges.

(* ================================================================== *)
(** ** cmd/client/main.go *)
(* ================================================================== *)

Module Client.
Import GoStrings Edges Decimal.

(** [const difficulty = 4] *)
Definition difficulty : Z := 4.

(** The loop of [func solvePoW(challenge string) string], from
    [solution] on.  It has no bound in the source; [fuel] bounds it
    here, and [None] is returned if it is used up. *)
Fixpoint solvePoW_from {heap : Heap} (fuel : nat) (challenge : string) (solution : Z)
  : option string :=
  match fuel with
  | O => None
  | S fuel' =>
      let hash := SHA256.Sum256 (bytes (challenge +:+ Sprintf_d solution)) in
      let hashStr := Hex.EncodeToString hash in
      match Repeat "0" difficulty with
      | Some zeros =>
          if HasPrefix hashStr zeros then Some (Sprintf_d solution)
          else solvePoW_from fuel' challenge (incr solution)
      | None => None
      end
  end.

Definition solvePoW {heap : Heap} (fuel : nat) (challenge : string) : option string :=
  solvePoW_from fuel challenge 0.

(** What [main] does with the first line it reads: it sends a solution
    followed by a line feed, or sends nothing because the line does not
    start with the prefix, or is still searching when [fuel] is used
    up. *)
Inductive answer := Sends (line : string) | Silent | Searching.

Definition reply {heap : Heap} (fuel : nat) (message : string) : answer :=
  if HasPrefix message Protocol.PrefixChallenge then
    let challenge := TrimPrefix message Protocol.PrefixChallenge in
    let challenge := TrimSpace challenge in
    match solvePoW fuel challenge with
    | Some solution => Sends (solution +:+ LF)
    | None => Searching
    end
  else Silent.

End Client.

(* ================================================================== *)
(** ** internal/pow/sha256_test.go: the helper [solvePoW] *)
(* ================================================================== *)

Module PowTest.
Import GoStrings Decimal.

(** The loop of [func solvePoW(challenge string, difficulty int) string]
    of sha256_test.go, from [nonce] on. *)
Fixpoint search (fuel : nat) (prefix challenge : string) (nonce : Z) : option string :=
  match fuel with
  | O => None
  | S fuel' =>
      let hash := SHA256.Sum256 (bytes (challenge +:+ Sprintf_d nonce)) in
      let hashStr := Hex.EncodeToString hash in
      if HasPrefix hashStr prefix then Some (Sprintf_d nonce)
      else search fuel' prefix challenge (incr nonce)
  end.

(** The outer [None]: [strings.Repeat] does not return; the inner one:
    the search used up its fuel. *)
Definition solvePoW {heap : Heap} (fuel : nat) (challenge : string) (difficulty : Z)
  : option (option string) :=
  match Repeat "0" difficulty with
  | Some prefix => Some (search fuel prefix challenge 0)
  | None => None
  end.

End PowTest.

(* ================================================================== *)
(** ** What a trace of the handler shows *)
(* ================================================================== *)

Module HandlerTrace.
Import GoStrings Handler.

(** [budgeted n tr]: every read of [tr] asks for all that is left of a
    budget of [n] bytes, the reads before it having taken what they
    delivered, and for one byte at least. *)
Fixpoint budgeted (n : Z) (tr : list event) : Prop :=
  match tr with
  | [] => True
  | EvRead k data _ :: tr' => k = n /\ 0 < k /\ budgeted (n - len data) tr'
  | _ :: tr' => budgeted n tr'
  end.

(** The number of calls of [ValidateChallenge] and of
    [GenerateChallenge]. *)
Fixpoint validations (tr : list event) : nat :=
  match tr with
  | [] => O
  | EvValidateChallenge _ _ _ :: tr' => S (validations tr')
  | _ :: tr' => validations tr'
  end.

Fixpoint challenges (tr : list event) : nat :=
  match tr with
  | [] => O
  | EvGenerateChallenge _ :: tr' => S (challenges tr')
  | _ :: tr' => challenges tr'
  end.

End HandlerTrace.

(* ================================================================== *)
(** ** States and schedules of the server *)
(* ================================================================== *)

Module ServerStates.
Import GoStrings Server.

(** The limiter [getLimiterForIP] allocates at every call. *)
Definition fresh_limiter (cfg : Config) : Limiter :=
  {| every := 100 * Millisecond; burst := RateLimitEvery100MS cfg; taken := O |}.

(** The limiter an IP is charged against has room for a burst: the one
    registered for it, or else the one a first call registers. *)
Definition has_burst (cfg : Config) (s : Server) (ip : string) : Prop :=
  1 <= RateLimitEvery100MS cfg
  /\ forall a, limiterMap s !! ip = Some a ->
       exists l, limiters s !! a = Some l /\ 1 <= burst l.

(** The configuration of cmd/server/main.go: [RateLimitEvery100MS] is
    not set there and keeps its zero value. *)
Definition main_config : Config :=
  {| Port := ":9000"; MaxConnections := 100;
     ConnectionTimeout := 2000 * Millisecond;
     ShutdownTimeout := 5000 * Millisecond;
     RateLimitEvery100MS := 0 |}.

(** A socket just accepted, and a server that has taken it in and
    nothing else. *)
Definition waiting_conn : Conn :=
  {| remote := Some "127.0.0.1"; closes := O; written := []; deadline := None |}.

Definition one_admitted (cfg : Config) : Server :=
  mkServer cfg O false 1 1 false false ∅ [] [waiting_conn] [].

(** A server whose limiter for 127.0.0.1 has given out its burst: five
    tokens taken of five. *)
Definition bucket_used (cfg : Config) : Server :=
  mkServer cfg O false 1 1 false false {[ "127.0.0.1" := O ]}
    [ {| every := 100 * Millisecond; burst := 5; taken := 5 |} ] [waiting_conn] [].

(** The bucket is empty at this instant. *)
Definition no_token : Choice :=
  {| arrival := inl (Some "127.0.0.1"); token_left := false;
     deadline_error := None; handler_result := HandlerNil; handler_output := [];
     drained := true |}.

(** A handler that writes the challenge and the rejection and returns
    [nil], and one that panics after the challenge. *)
Definition rejecting : Choice :=
  {| arrival := inl (Some "127.0.0.1"); token_left := true;
     deadline_error := None; handler_result := HandlerNil;
     handler_output := ["CHALLENGE:7" +:+ LF; "ERROR:Invalid PoW solution" +:+ LF];
     drained := true |}.

Definition panicking : Choice :=
  {| arrival := inl (Some "127.0.0.1"); token_left := true;
     deadline_error := Some "use of closed network connection";
     handler_result := HandlerPanic "hello panic";
     handler_output := ["CHALLENGE:7" +:+ LF];
     drained := true |}.

(** The timer of [Shutdown] fires first. *)
Definition too_slow : Choice :=
  {| arrival := inr "timeout"; token_left := true;
     deadline_error := None; handler_result := HandlerNil; handler_output := [];
     drained := false |}.

(** The server of [main] after its accept loop took the first peer in. *)
Definition main_first_peer : option World :=
  w ← started main_config;
  play take_in w.

(** The first peer is served as far as the deferred calls. *)
Definition about_to_release : option World :=
  w ← started test_config;
  play (take_in ++ repeat (Run 1 (peer HandlerNil)) 7) w.

End ServerStates.

(* ================================================================== *)
(** ** What a goroutine holds *)
(* ================================================================== *)

Module Holdings.
Import Server.

(** What a goroutine holds besides its debts: the socket it has still
    to close or to hand on, and whether it has cancelled the context. *)
Record Grip := { socket : option nat; cancelled : bool }.

Definition empty_handed : Grip := {| socket := None; cancelled := false |}.
Definition holding (c : nat) : Grip := {| socket := Some c; cancelled := false |}.

Definition with_socket (v : option nat) (g : Grip) : Grip :=
  {| socket := v; cancelled := cancelled g |}.

Definition has_socket (c : nat) (g : Grip) : bool :=
  match socket g with
  | Some c' => (c' =? c)%nat
  | None => false
  end.

(** The grip after an operation that returned [b]; [None] when a
    goroutine with this grip must not make this call: a socket is used
    and closed by the goroutine that holds it, and [done] is stored
    after the context was cancelled. *)
Definition grip_after (g : Grip) (B : Type) (e : Op B) : B -> option Grip :=
  match e in Op B return B -> option Grip with
  | Accept => fun r =>
      match r with
      | inl c => match socket g with
                 | None => Some (with_socket (Some c) g)
                 | Some _ => None
                 end
      | inr _ => Some g
      end
  | GoHandleClient c => fun _ =>
      if has_socket c g then Some (with_socket None g) else None
  | Close c => fun _ =>
      if has_socket c g then Some (with_socket None g) else None
  | RemoteIP c => fun _ => if has_socket c g then Some g else None
  | ConnWrite c _ => fun _ => if has_socket c g then Some g else None
  | SetDeadline c _ => fun _ => if has_socket c g then Some g else None
  | Handle c => fun _ => if has_socket c g then Some g else None
  | Cancel => fun _ => Some {| socket := socket g; cancelled := true |}
  | OnceStore => fun _ => if cancelled g then Some g else None
  | _ => fun _ => Some g
  end.

(** [keeps g p]: on every path, [p] makes only the calls its grip
    allows and ends with no socket in hand. *)
Fixpoint keeps (g : Grip) (p : prog Op Exit) : Prop :=
  match p with
  | Ret _ => socket g = None
  | Vis e k =>
      forall b, match grip_after g _ e b with
                | Some g' => keeps g' (k b)
                | None => False
                end
  end.

Definition thread_keeps (g : Grip) (t : Thread) : Prop :=
  match t with
  | Go body p =>
      keeps g p
      /\ match body with
         | Some q => forall c, keeps {| socket := None; cancelled := c |} q
         | None => True
         end
  end.

(** The number of goroutines that hold the socket [c]. *)
Fixpoint holders (c : nat) (gs : list Grip) : nat :=
  match gs with
  | [] => O
  | g :: gs' => (if has_socket c g then 1 else 0) + holders c gs'
  end.

(** The calls of [Close] on the socket [c]. *)
Definition closes_at (s : Server) (c : nat) : nat :=
  match conns s !! c with
  | Some x => closes x
  | None => O
  end.

(** The server and the grips of its goroutines agree: an accepted
    socket is either held by one goroutine or closed once. *)
Record kept (s : Server) (gs : list Grip) : Prop := {
  kept_sockets : forall c,
    (holders c gs + closes_at s c
     = if (c <? List.length (conns s))%nat then 1 else 0)%nat;
  kept_cancelled : Forall (fun g => cancelled g = true -> ctx_done s = true) gs;
  kept_done : once_done s = true -> ctx_done s = true
}.

Definition spawned_grips (B : Type) (e : Op B) : list Grip :=
  match e with
  | GoHandleClient c => [holding c]
  | _ => []
  end.

Definition in_hand (w : World) : Prop :=
  exists gs, Forall2 thread_keeps gs (threads w) /\ kept (srv w) gs.

End Holdings.


(* ################################################################## *)
(** * Properties *)
(* ################################################################## *)

Section ProgramFacts.
Context {E : Type -> Type} {event : Type}.
Variable observe : forall B : Type, E B -> B -> event.
Variable valid : forall B : Type, E B -> B -> Prop.

Local Abbreviation runs := (runs observe valid).
Local Abbreviation always := (always observe valid).

Lemma always_mono {A} (p : prog E A) (Q Q' : list event -> A -> Prop) :
  (forall tr a, Q tr a -> Q' tr a) -> always p Q -> always p Q'.
Proof.
  revert Q Q'. induction p as [a|B e k IH]; intros Q Q' HQ; cbn.
  - apply HQ.
  - intros H b Hb. eapply IH; [|exact (H b Hb)]. cbn. auto.
Qed.

Lemma always_and {A} (p : prog E A) (Q Q' : list event -> A -> Prop) :
  always p Q -> always p Q' -> always p (fun tr a => Q tr a /\ Q' tr a).
Proof.
  revert Q Q'. induction p as [a|B e k IH]; intros Q Q'; cbn.
  - auto.
  - intros H H' b Hb. apply IH; auto.
Qed.

(** What holds of every run, holds of each. *)
Lemma always_runs {A} (p : prog E A) (Q : list event -> A -> Prop) tr a :
  always p Q -> runs p tr a -> Q tr a.
Proof.
  intros H Hr. revert Q H.
  induction Hr as [a|B e k b tr a Hb _ IH]; intros Q H; cbn in H.
  - exact H.
  - exact (IH _ (H b Hb)).
Qed.

Lemma runs_always {A} (p : prog E A) (Q : list event -> A -> Prop) :
  (forall tr a, runs p tr a -> Q tr a) -> always p Q.
Proof.
  revert Q. induction p as [a|B e k IH]; intros Q H; cbn.
  - apply H. constructor.
  - intros b Hb. apply IH. intros tr a Hr. apply H. now constructor.
Qed.

(** Sequencing: the trace of [bind p f] is a trace of [p] followed by a
    trace of [f]. *)
Lemma always_bind {A C} (p : prog E A) (f : A -> prog E C)
    (Q : list event -> C -> Prop) :
  always p (fun tr a => always (f a) (fun tr' => Q (tr ++ tr'))) ->
  always (bind p f) Q.
Proof.
  revert Q. induction p as [a|B e k IH]; intros Q; cbn.
  - intros H. exact H.
  - intros H b Hb. apply IH. exact (H b Hb).
Qed.

Lemma runs_bind {A C} (p : prog E A) (f : A -> prog E C) tr a tr' c :
  runs p tr a -> runs (f a) tr' c -> runs (bind p f) (tr ++ tr') c.
Proof.
  induction 1 as [a|B e k b tr a Hb _ IH]; intros Hf; cbn.
  - exact Hf.
  - constructor; auto.
Qed.

(** Collaborators that compute and keep the contract produce a run. *)
Lemma run_runs {S A} (oracle : forall B : Type, E B -> S -> B * S)
    (p : prog E A) (s : S) :
  (forall B e s, valid B e (fst (oracle B e s))) ->
  runs p (fst (fst (run observe oracle p s))) (snd (fst (run observe oracle p s))).
Proof.
  intros Hv. revert s. induction p as [a|B e k IH]; intros s; cbn.
  - constructor.
  - specialize (Hv B e s). destruct (oracle B e s) as [b s'].
    specialize (IH b s'). destruct (run observe oracle (k b) s') as [[tr a] s''].
    cbn in *. now constructor.
Qed.

End ProgramFacts.

Module GoStringsFacts.
Import GoStrings.

Lemma append_cons (c : ascii) (s t : string) :
  String c s +:+ t = String c (s +:+ t).
Proof. reflexivity. Qed.

Lemma append_nil_l (t : string) : "" +:+ t = t.
Proof. reflexivity. Qed.

Lemma length_repeat_zero (n : nat) :
  String.length (repeat_nat "0" n) = n.
Proof.
  induction n as [|n IH]; [reflexivity|].
  cbn [repeat_nat]. rewrite append_cons, append_nil_l.
  cbn [String.length]. now rewrite IH.
Qed.

(** A string has the prefix ["0" * n] exactly when it starts with at
    least [n] zeros. *)
Lemma HasPrefix_zeros (n : nat) (s : string) :
  HasPrefix s (repeat_nat "0" n) = (n <=? Pow.leading_zeros s)%nat.
Proof.
  unfold HasPrefix. rewrite length_repeat_zero.
  revert s. induction n as [|n IH]; intros s.
  - simpl. destruct s; reflexivity.
  - destruct s as [|c s].
    + reflexivity.
    + specialize (IH s). cbn [repeat_nat]. rewrite append_cons, append_nil_l.
      cbn [String.length substring].
      change (S n <=? S (String.length s))%nat with (n <=? String.length s)%nat.
      cbn [String.eqb].
      destruct (Ascii.eqb_spec c "0") as [->|Hc].
      * cbn [Pow.leading_zeros]. exact IH.
      * rewrite andb_false_r.
        assert (Pow.leading_zeros (String c s) = O) as ->; [|reflexivity].
        destruct c as [[] [] [] [] [] [] [] []]; try reflexivity. congruence.
Qed.

Example TrimSpace_samples :
  TrimSpace ("solution-1234" +:+ LF) = "solution-1234"
  /\ TrimSpace ("  12 34" +:+ str [9; 13; 10]%nat) = "12 34"
  /\ TrimSpace LF = ""
  /\ TrimSpace "" = ""
  /\ TrimSpace (str [32; 9; 11; 12; 32]%nat) = ""
  /\ TrimSpace (str [194; 160]%nat +:+ "a b" +:+ str [227; 128; 128; 10]%nat) = "a b"
  /\ TrimSpace (" a" +:+ str [194; 160; 32]%nat) = "a".
Proof. repeat split; vm_compute; reflexivity. Qed.

Example TrimSpace_invalid_utf8 :
  TrimSpace (" a" +:+ str [255; 32]%nat) = "a" +:+ str [255]%nat
  /\ TrimSpace (str [32; 160; 32]%nat +:+ "x") = str [160; 32]%nat +:+ "x".
Proof. split; vm_compute; reflexivity. Qed.

End GoStringsFacts.

Module StringFacts.
Import GoStrings GoStringsFacts.

Lemma append_nil_r (s : string) : s +:+ "" = s.
Proof. induction s as [|c s IH]; [reflexivity|]. rewrite append_cons. now f_equal. Qed.

Lemma append_assoc (s t u : string) : (s +:+ t) +:+ u = s +:+ (t +:+ u).
Proof.
  induction s as [|c s IH]; [reflexivity|]. rewrite !append_cons. now f_equal.
Qed.

Lemma length_append (s t : string) :
  String.length (s +:+ t) = (String.length s + String.length t)%nat.
Proof.
  induction s as [|c s IH]; [reflexivity|].
  rewrite append_cons. cbn [String.length]. now rewrite IH.
Qed.

Lemma len_append (s t : string) : len (s +:+ t) = len s + len t.
Proof. unfold len. rewrite length_append. lia. Qed.

Lemma len_nonneg (s : string) : 0 <= len s.
Proof. unfold len. lia. Qed.

Lemma substring_0_length (s : string) : substring 0 (String.length s) s = s.
Proof. induction s as [|c s IH]; [reflexivity|]. cbn. now f_equal. Qed.

Lemma slice_0_length (s : string) : slice s 0 (String.length s) = s.
Proof. unfold slice. rewrite Nat.sub_0_r. apply substring_0_length. Qed.

(** [s = s[:i] + s[i:]] *)
Lemma slice_split (s : string) (i : nat) :
  (i <= String.length s)%nat ->
  s = slice s 0 i +:+ slice s i (String.length s).
Proof.
  unfold slice. rewrite Nat.sub_0_r. revert i.
  induction s as [|c s IH]; intros [|i] Hi; cbn in Hi; try lia.
  - reflexivity.
  - cbn [substring String.length]. rewrite append_nil_l.
    rewrite Nat.sub_0_r. cbn. now rewrite substring_0_length.
  - cbn [substring String.length]. rewrite append_cons. f_equal.
    change (S (String.length s) - S i)%nat with (String.length s - i)%nat.
    apply IH. lia.
Qed.

Lemma length_slice_prefix (s : string) (i : nat) :
  (i <= String.length s)%nat -> String.length (slice s 0 i) = i.
Proof.
  unfold slice. rewrite Nat.sub_0_r. revert i.
  induction s as [|c s IH]; intros [|i] Hi; cbn in *; try lia.
  rewrite IH; lia.
Qed.

Lemma slice_append_prefix (s t : string) :
  slice (s +:+ t) 0 (String.length s) = s.
Proof.
  unfold slice. rewrite Nat.sub_0_r.
  induction s as [|c s IH]; cbn.
  - destruct t; reflexivity.
  - rewrite append_cons. cbn. now f_equal.
Qed.

Lemma IndexByte_append (s t : string) (c : ascii) :
  IndexByte (s +:+ t) c =
  match IndexByte s c with
  | Some i => Some i
  | None => match IndexByte t c with
            | Some j => Some (String.length s + j)%nat
            | None => None
            end
  end.
Proof.
  induction s as [|a s IH].
  - rewrite append_nil_l. cbn. destruct (IndexByte t c); reflexivity.
  - rewrite append_cons. cbn [IndexByte String.length].
    destruct (Ascii.eqb a c); [reflexivity|]. rewrite IH.
    destruct (IndexByte s c); [reflexivity|].
    destruct (IndexByte t c); reflexivity.
Qed.

(** The search of [ReadSlice], resumed at [k], finds the first
    occurrence when there is none before [k]. *)
Lemma IndexByte_resume (s : string) (k : nat) (c : ascii) :
  (k <= String.length s)%nat ->
  IndexByte (slice s 0 k) c = None ->
  IndexByte s c =
  match IndexByte (slice s k (String.length s)) c with
  | Some i => Some (i + k)%nat
  | None => None
  end.
Proof.
  intros Hk Hnone. rewrite (slice_split s k Hk) at 1.
  rewrite IndexByte_append, Hnone, length_slice_prefix by exact Hk.
  destruct (IndexByte (slice s k (String.length s)) c); [f_equal; lia | reflexivity].
Qed.

End StringFacts.

Module SHA256Facts.

Example sha256_empty :
  Hex.EncodeToString (SHA256.Sum256 (GoStrings.bytes ""))
  = "e3b0c44298fc1c149afbf4c8996fb92427ae41e4649b934ca495991b7852b855".
Proof. vm_compute. reflexivity. Qed.

Example sha256_abc :
  Hex.EncodeToString (SHA256.Sum256 (GoStrings.bytes "abc"))
  = "ba7816bf8f01cfea414140de5dae2223b00361a396177a9cb410ff61f20015ad".
Proof. vm_compute. reflexivity. Qed.

Example sha256_two_blocks :
  Hex.EncodeToString (SHA256.Sum256 (GoStrings.bytes
    "abcdbcdecdefdefgefghfghighijhijkijkljklmklmnlmnomnopnopq"))
  = "248d6a61d20638b8e5c026930c3e6039a33ce45964ff2167f6ecedd419db06c1".
Proof. vm_compute. reflexivity. Qed.

End SHA256Facts.

(* ================================================================== *)
(** ** The proof-of-work engine *)
(* ================================================================== *)

Module PowFacts.
Import Pow.

(** [strings.Repeat("0", n)] for a count that is no negative number:
    the zeros, if there is memory for them. *)
Lemma Repeat_zero {heap : Heap} (n : Z) :
  0 <= n <= maxInt ->
  GoStrings.Repeat "0" n
  = if zeros_fit n then Some (GoStrings.repeat_nat "0" (Z.to_nat n)) else None.
Proof.
  intros [Hlo Hhi]. unfold GoStrings.Repeat, zeros_fit.
  change (GoStrings.len "0") with 1. rewrite Z.mul_1_l.
  destruct (Z.eqb_spec n 0) as [->|H0]; [reflexivity|].
  destruct (Z.eqb_spec n 1) as [->|H1]; [reflexivity|].
  destruct (Z.ltb_spec n 0) as [?|_]; [lia|].
  destruct (Z.ltb_spec maxInt n) as [?|_]; [lia|].
  change (1 =? 0) with false. cbv iota.
  destruct (Z.leb_spec n 1) as [?|_]; [lia|]. reflexivity.
Qed.

Lemma zeros_fit_small {heap : Heap} (n : Z) : n <= smallSize -> zeros_fit n = true.
Proof.
  intros Hn. unfold zeros_fit, mallocgc.
  assert (Hs : (n <=? smallSize) = true) by now apply Z.leb_le.
  assert (Hm : (n <=? maxAlloc) = true)
    by (apply Z.leb_le; unfold smallSize, maxAlloc in *; lia).
  rewrite Hs, Hm. now destruct (n <=? 1).
Qed.

Lemma zeros_fit_beyond {heap : Heap} (n : Z) : maxAlloc < n -> zeros_fit n = false.
Proof.
  intros Hn. unfold zeros_fit, mallocgc.
  destruct (Z.leb_spec n 1) as [?|_]; [unfold maxAlloc in Hn; lia|].
  destruct (Z.leb_spec n maxAlloc) as [?|_]; [lia|]. reflexivity.
Qed.

Lemma Repeat_zero_ok {heap : Heap} (n : Z) :
  0 <= n <= smallSize ->
  GoStrings.Repeat "0" n = Some (GoStrings.repeat_nat "0" (Z.to_nat n)).
Proof.
  intros Hn. rewrite Repeat_zero by (unfold smallSize, maxInt in *; lia).
  now rewrite zeros_fit_small by lia.
Qed.

(** What [strings.Repeat("0", n)] returns, when it returns. *)
Lemma Repeat_zero_returns {heap : Heap} (n : Z) (zeros : string) :
  GoStrings.Repeat "0" n = Some zeros ->
  0 <= n /\ zeros = GoStrings.repeat_nat "0" (Z.to_nat n).
Proof.
  unfold GoStrings.Repeat.
  destruct (Z.eqb_spec n 0) as [->|H0]; [intros [= <-]; split; [lia|reflexivity]|].
  destruct (Z.eqb_spec n 1) as [->|H1]; [intros [= <-]; split; [lia|reflexivity]|].
  destruct (Z.ltb_spec n 0) as [?|Hn]; [discriminate|].
  destruct (maxInt <? _); [discriminate|].
  change (GoStrings.len "0" =? 0) with false. cbv iota.
  destruct (mallocgc _); [|discriminate].
  intros [= <-]. split; [exact Hn|reflexivity].
Qed.

Lemma leading_zeros_test (n : Z) (s : string) :
  (Z.to_nat n <=? leading_zeros s)%nat = (n <=? Z.of_nat (leading_zeros s)).
Proof.
  destruct (Nat.leb_spec (Z.to_nat n) (leading_zeros s));
    destruct (Z.leb_spec n (Z.of_nat (leading_zeros s)));
    first [reflexivity | lia].
Qed.

(** C1, as the code has it.  For a difficulty [N >= 0] for which
    [strings.Repeat] finds the memory to write [N] zeros,
    [ValidateChallenge] returns true when the hexadecimal SHA-256 digest
    of [challenge ++ solution] starts with at least [N] characters
    ['0'], and false otherwise; for any other [N >= 0] the call does
    not return.  The memory is there up to 4096 bytes, and it is not
    above 2^48: there [make] panics. *)
Theorem ValidateChallenge_leading_zeros {heap : Heap}
    (p : SHA256PoW) (challenge solution : string) :
  0 <= difficulty p <= maxInt ->
  ValidateChallenge p challenge solution
  = (if zeros_fit (difficulty p)
     then Some (difficulty p <=? Z.of_nat (leading_zeros (digest challenge solution)))
     else None)
  /\ (difficulty p <= smallSize -> zeros_fit (difficulty p) = true)
  /\ (maxAlloc < difficulty p -> zeros_fit (difficulty p) = false).
Proof.
  intros Hd. split; [|split; [apply zeros_fit_small|apply zeros_fit_beyond]].
  unfold ValidateChallenge. rewrite (Repeat_zero _ Hd).
  destruct (zeros_fit (difficulty p)); [|reflexivity].
  rewrite GoStringsFacts.HasPrefix_zeros. fold (digest challenge solution).
  now rewrite leading_zeros_test.
Qed.

Lemma ValidateChallenge_leading_zeros_witness :
  0 <= difficulty (NewSHA256PoW 4 Rand.sevens) <= maxInt
  /\ ValidateChallenge (NewSHA256PoW 4 Rand.sevens) "5f3a" "invalid" = Some false.
Proof.
  assert (H : 0 <= difficulty (NewSHA256PoW 4 Rand.sevens) <= maxInt)
    by (vm_compute; split; discriminate).
  split; [exact H|].
  destruct (ValidateChallenge_leading_zeros _ "5f3a" "invalid" H) as [-> _].
  vm_compute. reflexivity.
Defined.

(** C1 as stated fails: at the difficulty 2^62 the digest has fewer
    zeros than asked for, and the call does not return false: the
    4 EiB of zeros are beyond what [make] allocates, and
    [strings.Repeat] panics. *)
Lemma ValidateChallenge_huge_difficulty :
  0 <= 2 ^ 62 <= maxInt
  /\ Z.of_nat (leading_zeros (digest "7" "54822")) < 2 ^ 62
  /\ ValidateChallenge (NewSHA256PoW (2 ^ 62) Rand.sevens) "7" "54822" = None.
Proof. vm_compute. repeat split; discriminate. Qed.

(** C2, evaluated.  At difficulty 4 the empty challenge is accepted with
    the solution ["88484"]: the digest of ["88484"] starts with four
    zeros, and nothing in [ValidateChallenge] looks at the challenge
    alone. *)
Theorem ValidateChallenge_empty_challenge_accepted {heap : Heap} :
  digest "" "88484"
  = "0000a456e7b5a5eb059e721fb431436883143101275c4077f83fe70298f5623d"
  /\ ValidateChallenge (NewSHA256PoW 4 Rand.sevens) "" "88484" = Some true.
Proof.
  split; [vm_compute; reflexivity|].
  unfold ValidateChallenge. cbn [difficulty NewSHA256PoW].
  rewrite Repeat_zero_ok by (unfold smallSize; lia).
  vm_compute. reflexivity.
Qed.

(** C10.  An engine constructed with difficulty 0 accepts every pair of
    challenge and solution, the empty ones included. *)
Theorem ValidateChallenge_difficulty_zero {heap : Heap}
  (seeded : Rand.t) (challenge solution : string) :
  ValidateChallenge (NewSHA256PoW 0 seeded) challenge solution = Some true.
Proof.
  unfold ValidateChallenge. cbn [difficulty NewSHA256PoW].
  rewrite Repeat_zero_ok by (unfold smallSize; lia).
  rewrite GoStringsFacts.HasPrefix_zeros. reflexivity.
Qed.

Example ValidateChallenge_zero_empty :
  ValidateChallenge (NewSHA256PoW 0 Rand.sevens) "" "" = Some true.
Proof. vm_compute. reflexivity. Qed.

(** [strings.Repeat] panics below zero. *)
Example ValidateChallenge_negative_difficulty {heap : Heap} :
  ValidateChallenge (NewSHA256PoW (-1) Rand.sevens) "a" "b" = None.
Proof. reflexivity. Qed.

Example GenerateChallenge_sevens :
  fst (GenerateChallenge (NewSHA256PoW 4 Rand.sevens)) = "7".
Proof. reflexivity. Qed.

Example Sprintf_x_samples :
  Fmt.Sprintf_x 0 = "0" /\ Fmt.Sprintf_x 255 = "ff"
  /\ Fmt.Sprintf_x (2 ^ 63 - 1) = "7fffffffffffffff".
Proof. repeat split; vm_compute; reflexivity. Qed.

End PowFacts.

(* ================================================================== *)
(** ** The payload source *)
(* ================================================================== *)

Module QuotesFacts.
Import Quotes.

Lemma Stub_nonempty : Stub <> "".
Proof. discriminate. Qed.

(** C9, as the code has it.  [GetQuote] never panics.  On an empty list
    it returns the stub, which is not empty; on a non-empty list it
    returns one of the elements of the list, so its result is non-empty
    whenever no element of the list is the empty string. *)
Theorem GetQuote_stub_or_element (q : RandomQuoteProvider) :
  exists s q',
    GetQuote q = Some (s, q')
    /\ quotes q' = quotes q
    /\ (quotes q = [] -> s = Stub /\ s <> "")
    /\ (quotes q <> [] -> s ∈ quotes q)
    /\ ((forall x, x ∈ quotes q -> x <> "") -> s <> "").
Proof.
  unfold GetQuote. destruct (quotes q) as [|x l] eqn:Hq.
  - exists Stub, q. cbn. rewrite Hq.
    repeat split; auto using Stub_nonempty; congruence.
  - set (n := Z.of_nat (List.length (x :: l))).
    assert (Hn : 0 < n) by (unfold n; cbn [List.length]; lia).
    destruct (Z.eqb_spec n 0) as [?|_]; [lia|].
    unfold Rand.Intn. destruct (Z.leb_spec n 0) as [?|_]; [lia|].
    set (i := Rand.draws (rng q) (Rand.used (rng q)) mod n).
    assert (Hi : 0 <= i < n) by (apply Z.mod_pos_bound; exact Hn).
    destruct ((x :: l) !! Z.to_nat i) as [s|] eqn:Hs.
    + exists s, {| quotes := quotes q; rng := Rand.advance (rng q) |}.
      assert (Hin : s ∈ x :: l) by (eapply list_elem_of_lookup_2; exact Hs).
      cbn [quotes]. rewrite Hq. repeat split; auto; congruence.
    + apply lookup_ge_None in Hs. unfold n in Hi. lia.
Qed.

(** C9 as stated fails: a list may hold the empty string, and then
    [GetQuote] returns it. *)
Lemma GetQuote_returns_empty_string :
  fst <$> GetQuote (NewRandomQuoteProvider [""] Rand.sevens) = Some "".
Proof. reflexivity. Qed.

Example GetQuote_empty_list :
  fst <$> GetQuote (NewRandomQuoteProvider [] Rand.sevens) = Some Stub.
Proof. reflexivity. Qed.

Example GetQuote_picks :
  fst <$> GetQuote (NewRandomQuoteProvider ["a"; "b"; "c"] Rand.sevens)
  = Some "b".
Proof. reflexivity. Qed.

End QuotesFacts.

(* ================================================================== *)
(** ** The protocol handler *)
(* ================================================================== *)

Module HandlerFacts.
Import GoStrings GoStringsFacts StringFacts Handler.

Local Abbreviation always := (always Handler.observe Handler.valid).
Local Abbreviation runs := (runs Handler.observe Handler.valid).

Lemma received_app (tr tr' : list event) :
  received (tr ++ tr') = received tr +:+ received tr'.
Proof.
  induction tr as [|ev tr IH]; [reflexivity|].
  destruct ev; cbn [received app]; try exact IH.
  now rewrite IH, append_assoc.
Qed.

Lemma reads_one n data e : Forall is_read [EvRead n data e].
Proof. repeat constructor. Qed.

(** [fill] appends what it reads to the buffer and takes it from the
    budget; if it leaves no error, it has read at least one byte. *)
Lemma fill_from_spec (i : nat) (b : Reader) :
  0 <= N b -> err b = None ->
  always (fill_from i b) (fun tr b' =>
    Forall is_read tr
    /\ buf b' = buf b +:+ received tr
    /\ N b' = N b - len (received tr)
    /\ 0 <= N b'
    /\ (err b' = None -> 0 < len (received tr))
    /\ err b' <> Some ErrBufferFull).
Proof.
  revert b. induction i as [|i IH]; intros b HN Herr.
  - cbn. rewrite append_nil_r. change (len "") with 0.
    repeat split; auto; try lia; discriminate.
  - cbn [fill_from]. unfold LimitedReader_Read.
    destruct (Z.leb_spec (N b) 0) as [Hle|Hgt].
    + cbn. rewrite append_nil_r. change (len "") with 0.
      repeat split; auto; try lia; discriminate.
    + cbn. intros [data e] [Hlen He]. cbn in Hlen, He.
      assert (Hdata : 0 <= len data <= N b).
      { pose proof (len_nonneg data).
        destruct (Z.ltb_spec (N b) (defaultBufSize - len (buf b))); lia. }
      destruct e as [e|].
      * cbn. rewrite append_nil_r.
        repeat split; auto using reads_one; try lia; try discriminate.
      * cbn. destruct (Z.ltb_spec 0 (len data)) as [Hpos|Hzero].
        -- cbn. rewrite append_nil_r. rewrite Herr.
           repeat split; auto using reads_one; try lia; discriminate.
        -- eapply always_mono; [|apply IH; cbn; [lia|exact Herr]].
           cbn. intros tr b' (Hr & Hb & Hn & Hn0 & He' & Hne).
           rewrite len_append.
           repeat split; auto; try lia.
           ++ constructor; [exact I|exact Hr].
           ++ rewrite Hb. apply append_assoc.
           ++ intros H. specialize (He' H). lia.
Qed.

Lemma ReadSlice_from_spec (fuel : nat) :
  forall (s : nat) (b : Reader),
    0 <= N b ->
    len (buf b) + N b <= maxReadSize ->
    (s <= String.length (buf b))%nat ->
    IndexByte (slice (buf b) 0 s) "010" = None ->
    err b <> Some ErrBufferFull ->
    (match err b with None => Z.to_nat (N b) + 2 | Some _ => 1 end <= fuel)%nat ->
    always (ReadSlice_from fuel s "010" b) (line_read b).
Proof.
  induction fuel as [|fuel IH]; intros s b HN Hsize Hs Hscan Herr Hfuel.
  - destruct (err b); lia.
  - cbn [ReadSlice_from].
    pose proof (IndexByte_resume (buf b) s "010" Hs Hscan) as Hidx.
    destruct (IndexByte (slice (buf b) s (String.length (buf b))) "010")
      as [i|] eqn:Hfound.
    + cbn. unfold line_read. cbn [received]. rewrite append_nil_r.
      change (len "") with 0. repeat split; auto.
      eexists _, None, _. split; [reflexivity|].
      unfold first_line. rewrite Hidx. reflexivity.
    + destruct (err b) as [e|] eqn:He.
      * cbn. unfold line_read. cbn [received]. rewrite append_nil_r.
        change (len "") with 0. repeat split; auto.
        eexists _, (Some e), _. split; [reflexivity|].
        unfold first_line. rewrite Hidx. split; congruence.
      * pose proof (len_nonneg (buf b)) as Hlen.
        destruct (Z.leb_spec defaultBufSize (len (buf b))) as [Hfull|_];
          [unfold defaultBufSize, maxReadSize in *; lia|].
        apply always_bind. eapply always_mono; [|apply fill_from_spec; assumption].
        cbn beta. intros tr b' (Hr & Hb & Hn & Hn0 & Hprog & Hne).
        eapply always_mono; [|apply (IH (String.length (buf b)) b')].
        -- intros tr' res (Hr' & Hlen' & line & e & b'' & -> & Hline).
           unfold line_read. rewrite received_app, len_append.
           repeat split.
           ++ apply Forall_app; auto.
           ++ lia.
           ++ exists line, e, b''. split; [reflexivity|].
              rewrite Hb, append_assoc in Hline. exact Hline.
        -- exact Hn0.
        -- rewrite Hb, len_append. lia.
        -- rewrite Hb, length_append. lia.
        -- rewrite Hb, slice_append_prefix. exact Hidx.
        -- exact Hne.
        -- destruct (err b') eqn:He'; [lia|].
           specialize (Hprog eq_refl). lia.
Qed.

(** [ReadString] on a fresh reader: [ReadSlice] never reports a full
    buffer, and the loop of [collectFragments] is left at once. *)
Lemma ReadString_spec :
  always (ReadString "010" (NewReader maxReadSize)) (fun tr res =>
    Forall is_read tr
    /\ len (received tr) <= maxReadSize
    /\ match first_line (received tr) with
       | Some line => res = Some (line, None)
       | None => exists line e, res = Some (line, Some e)
       end).
Proof.
  unfold ReadString, fuel_for.
  replace (Z.to_nat (N (NewReader maxReadSize)) + 2)%nat
    with (S (S (Z.to_nat (N (NewReader maxReadSize))))) by lia.
  cbn [ReadString_from]. apply always_bind.
  eapply always_mono; [|apply ReadSlice_from_spec].
  - intros tr res (Hr & Hlen & line & e & b' & -> & Hline).
    cbn [NewReader N buf] in *. rewrite append_nil_l in Hline.
    destruct e as [x|].
    + destruct Hline as [Hnone Hx].
      assert (Hgoal : always (Ret (Some ("" +:+ line, Some x)))
                (fun tr' res => Forall is_read (tr ++ tr')
                   /\ len (received (tr ++ tr')) <= maxReadSize
                   /\ match first_line (received (tr ++ tr')) with
                      | Some line => res = Some (line, None)
                      | None => exists line e, res = Some (line, Some e)
                      end)).
      { cbn. rewrite app_nil_r, Hnone. repeat split; eauto. }
      destruct x; try exact Hgoal. congruence.
    + cbn. rewrite app_nil_r, Hline, append_nil_l. auto.
  - cbn. unfold maxReadSize. lia.
  - cbn. unfold len, maxReadSize. cbn. lia.
  - cbn. lia.
  - reflexivity.
  - cbn. discriminate.
  - unfold fuel_for. cbn [NewReader err N]. lia.
Qed.

Lemma readClientResponse_spec : always readClientResponse solution_read.
Proof.
  unfold readClientResponse. apply always_bind.
  eapply always_mono; [|apply ReadString_spec].
  intros tr res (Hr & Hlen & Hres). unfold solution_read.
  destruct (first_line (received tr)) as [line|] eqn:Hline.
  - subst res. cbn. rewrite app_nil_r, Hline. auto.
  - destruct Hres as (line & e & ->). cbn. rewrite app_nil_r, Hline. eauto.
Qed.

(** Every run of [HandleConnection] is one of the four exchanges. *)
Lemma HandleConnection_always : always HandleConnection exchange.
Proof.
  unfold HandleConnection. cbn. intros challenge _ [n e] _.
  destruct e as [e|]; cbn.
  - rewrite append_assoc. apply SendFailed.
  - apply always_bind. eapply always_mono; [|apply readClientResponse_spec].
    intros reads res (Hr & Hlen & Hres).
    destruct (first_line (received reads)) as [line|] eqn:Hline.
    + subst res. cbn. intros [|] _; cbn.
      * intros quote _ [n' e'] _. rewrite !append_assoc.
        destruct e'; cbn; eapply Accepted; eauto.
      * intros [n' e'] _. rewrite !append_assoc.
        destruct e'; cbn; eapply Rejected; eauto.
    + destruct Hres as (e & ->). cbn. rewrite app_nil_r, append_assoc.
      now apply ReadFailed.
Qed.

Lemma HandleConnection_exchange tr r :
  runs HandleConnection tr r -> exchange tr r.
Proof. apply always_runs, HandleConnection_always. Qed.

Lemma writes_reads (reads : list event) :
  Forall is_read reads -> writes reads = [].
Proof.
  induction 1 as [|ev reads Hev _ IH]; [reflexivity|].
  destruct ev; cbn in *; tauto.
Qed.

Lemma quote_calls_reads (reads : list event) :
  Forall is_read reads -> quote_calls reads = O.
Proof.
  induction 1 as [|ev reads Hev _ IH]; [reflexivity|].
  destruct ev; cbn in *; tauto.
Qed.

Lemma writes_app (tr tr' : list event) : writes (tr ++ tr') = writes tr ++ writes tr'.
Proof.
  induction tr as [|ev tr IH]; [reflexivity|].
  destruct ev; cbn; now rewrite ?IH.
Qed.

Lemma quote_calls_app (tr tr' : list event) :
  quote_calls (tr ++ tr') = (quote_calls tr + quote_calls tr')%nat.
Proof.
  induction tr as [|ev tr IH]; [reflexivity|].
  destruct ev; cbn; now rewrite ?IH.
Qed.

Lemma not_read_in (reads : list event) ev :
  Forall is_read reads -> In ev reads -> is_read ev.
Proof. intros H Hin. rewrite Forall_forall in H. apply H. now apply list_elem_of_In. Qed.

(** C3.  When [ValidateChallenge] rejects the solution - which it is
    asked about only after the challenge was written and a line was
    read, and which is that line trimmed, empty or not -
    [HandleConnection] writes one more line, the error prefix followed
    by ["Invalid PoW solution"], never calls [GetQuote], and returns
    [nil] if that write succeeds. *)
Theorem HandleConnection_rejects tr r challenge solution :
  runs HandleConnection tr r ->
  In (EvValidateChallenge challenge solution false) tr ->
  exists n reads line n' err,
    tr = EvGenerateChallenge challenge
         :: EvWrite (Protocol.PrefixChallenge +:+ challenge +:+ LF) n None
         :: reads
         ++ [EvValidateChallenge challenge solution false;
             EvWrite ("ERROR:Invalid PoW solution" +:+ LF) n' err]
    /\ Forall is_read reads
    /\ first_line (received reads) = Some line
    /\ solution = TrimSpace line
    /\ writes tr = [(Protocol.PrefixChallenge +:+ challenge +:+ LF, None);
                    (Protocol.PrefixError +:+ InvalidMsg +:+ LF, err)]
    /\ quote_calls tr = O
    /\ r = Returns (send_error "failed to send validate" err)
    /\ (err = None -> r = Returns None).
Proof.
  intros Hrun Hin. apply HandleConnection_exchange in Hrun.
  destruct Hrun as [c n e|c n reads e Hr Hlen Hline
                   |c n reads line n' err Hr Hlen Hline
                   |c n reads line q n' err Hr Hlen Hline].
  - cbn in Hin. intuition discriminate.
  - cbn in Hin. destruct Hin as [H|[H|H]]; try discriminate.
    apply (not_read_in _ _ Hr) in H. contradiction.
  - cbn in Hin. destruct Hin as [H|[H|H]]; try discriminate.
    apply in_app_or in H. destruct H as [H|H].
    + apply (not_read_in _ _ Hr) in H. contradiction.
    + cbn in H. destruct H as [H|[H|[]]]; try discriminate.
      injection H as <- <-.
      exists n, reads, line, n', err. cbn [writes quote_calls].
      rewrite writes_app, quote_calls_app, (writes_reads _ Hr),
        (quote_calls_reads _ Hr).
      repeat split; auto. intros ->. reflexivity.
  - cbn in Hin. destruct Hin as [H|[H|H]]; try discriminate.
    apply in_app_or in H. destruct H as [H|H].
    + apply (not_read_in _ _ Hr) in H. contradiction.
    + cbn in H. destruct H as [H|[H|[H|[]]]]; discriminate.
Qed.


Lemma received_reads_only (tr tr' : list event) :
  received tr' = "" -> received (tr ++ tr') = received tr.
Proof. intros H. now rewrite received_app, H, append_nil_r. Qed.

(** [fill] leaves an error for one of three reasons. *)
Lemma fill_from_cause (i : nat) : forall b : Reader,
  err b = None ->
  always (fill_from i b) (fun tr b' =>
    forall e, err b' = Some e ->
      (exists before n data, tr = before ++ [EvRead n data (Some e)])
      \/ (e = EOF /\ N b <= 0 /\ tr = [])
      \/ (e = ErrNoProgress /\ List.length tr = i /\ Forall empty_read tr)).
Proof.
  induction i as [|i IH]; intros b Herr.
  - cbn. intros e [= <-]. right. right. repeat split; constructor.
  - cbn [fill_from]. unfold LimitedReader_Read.
    destruct (Z.leb_spec (N b) 0) as [Hle|Hgt].
    + cbn. intros e [= <-]. right. left. auto.
    + cbn. intros [data e0] _. destruct e0 as [e0|].
      * cbn. intros e [= <-]. left. eexists [], _, data. reflexivity.
      * cbn. destruct (Z.ltb_spec 0 (len data)) as [Hpos|Hzero].
        -- cbn. rewrite Herr. discriminate.
        -- assert (Hdata : data = "").
           { destruct data; [reflexivity|]. unfold len in Hzero. cbn in Hzero. lia. }
           subst data. change (len "") with 0.
           eapply always_mono; [|apply IH; exact Herr].
           cbn. intros tr b' H e He.
           destruct (H e He) as [(before & n & d & ->)|[(-> & HN & ->)|(-> & Hlen & Hall)]].
           ++ left. eexists (_ :: before), n, d. reflexivity.
           ++ lia.
           ++ right. right. split; [reflexivity|]. split; [cbn; now rewrite Hlen|].
              constructor; [eexists; reflexivity|exact Hall].
Qed.

(** [ReadSlice] returns an error for one of these reasons. *)
Lemma ReadSlice_from_cause (fuel : nat) :
  forall (s : nat) (b : Reader) (pre : list event),
    0 <= N b ->
    N b = maxReadSize - len (received pre) ->
    (forall e, err b = Some e -> gave_up pre e) ->
    always (ReadSlice_from fuel s "010" b) (fun tr res =>
      forall line e b', res = Some (line, Some e, b') ->
        e = ErrBufferFull \/ gave_up (pre ++ tr) e).
Proof.
  induction fuel as [|fuel IH]; intros s b pre HN Hbudget Hpending.
  - cbn. discriminate.
  - cbn [ReadSlice_from].
    destruct (IndexByte (slice (buf b) s (String.length (buf b))) "010").
    + cbn. discriminate.
    + destruct (err b) as [e0|] eqn:He.
      * cbn. intros line e b' [= _ <- _]. right. rewrite app_nil_r. now apply Hpending.
      * destruct (defaultBufSize <=? len (buf b)).
        -- cbn. intros line e b' [= _ <- _]. now left.
        -- apply always_bind.
           eapply always_mono;
             [|apply always_and;
               [apply (fill_from_spec maxConsecutiveEmptyReads b HN He)
               |apply (fill_from_cause maxConsecutiveEmptyReads b He)]].
           cbn beta. intros tr1 b1 [(Hr & Hb & Hn & Hn0 & Hprog & Hne) Hcause].
           eapply always_mono; [|apply (IH (String.length (buf b)) b1 (pre ++ tr1))].
           ++ cbn beta. intros tr' res H line e b' Hres.
              rewrite app_assoc. exact (H line e b' Hres).
           ++ exact Hn0.
           ++ rewrite received_app, len_append, Hn. lia.
           ++ intros e He1.
              destruct (Hcause e He1)
                as [(before & n & d & ->)|[(-> & HN0 & ->)|(-> & Hlen & Hall)]].
              ** left. exists (pre ++ before), n, d. now rewrite app_assoc.
              ** right. left. split; [reflexivity|]. rewrite app_nil_r. lia.
              ** right. right. split; [reflexivity|]. exists pre, tr1. auto.
Qed.

Lemma readClientResponse_cause :
  always readClientResponse (fun tr res =>
    forall solution e, res = Some (solution, Some e) -> gave_up tr e).
Proof.
  unfold readClientResponse. apply always_bind.
  unfold ReadString, fuel_for.
  replace (Z.to_nat (N (NewReader maxReadSize)) + 2)%nat
    with (S (S (Z.to_nat (N (NewReader maxReadSize))))) by lia.
  cbn [ReadString_from]. apply always_bind.
  eapply always_mono;
    [|apply always_and;
      [apply (ReadSlice_from_spec _ O (NewReader maxReadSize))
      |apply (ReadSlice_from_cause _ O (NewReader maxReadSize) [])]].
  - cbn beta. intros tr res [(Hr & Hlen & line & e & b' & -> & Hline) Hcause].
    destruct e as [x|].
    + destruct Hline as [_ Hx].
      destruct (Hcause line x b' eq_refl) as [->|Hgave]; [congruence|].
      cbn [app] in Hgave.
      destruct x; try congruence; cbn; intros solution e [= _ <-];
        now rewrite !app_nil_r.
    + cbn. discriminate.
  - cbn. unfold maxReadSize. lia.
  - cbn. unfold len, maxReadSize. cbn. lia.
  - cbn. lia.
  - reflexivity.
  - cbn. discriminate.
  - unfold fuel_for. cbn [NewReader err N]. lia.
  - cbn. unfold maxReadSize. lia.
  - cbn. change (len "") with 0. lia.
  - cbn. discriminate.
Qed.

Lemma gave_up_after (pre tr : list event) (e : error) :
  received pre = "" -> gave_up tr e -> gave_up (pre ++ tr) e.
Proof.
  intros Hpre [(before & n & d & ->)|[(-> & Hlen)|(-> & before & last & -> & Hl & Hall)]].
  - left. exists (pre ++ before), n, d. now rewrite app_assoc.
  - right. left. split; [reflexivity|].
    now rewrite received_app, Hpre, append_nil_l.
  - right. right. split; [reflexivity|].
    exists (pre ++ before), last. now rewrite app_assoc.
Qed.

(** [HandleConnection] gives the reading up only for one of the three
    reasons. *)
Lemma HandleConnection_cause :
  always HandleConnection (fun tr r =>
    forall e, r = Returns (Some (Wrapped "failed to read client response" e)) ->
      gave_up tr e).
Proof.
  unfold HandleConnection. cbn. intros challenge _ [n e] _.
  destruct e as [e|]; cbn; [discriminate|].
  apply always_bind. eapply always_mono; [|apply readClientResponse_cause].
  cbn beta. intros reads res Hcause.
  destruct res as [[solution [x|]]|]; cbn.
  - intros e [= <-]. rewrite app_nil_r.
    apply (gave_up_after [_; _] reads x); [reflexivity|].
    exact (Hcause solution x eq_refl).
  - intros [|] _; cbn.
    + intros quote _ [n' e'] _. destruct e'; cbn; discriminate.
    + intros [n' e'] _. destruct e'; cbn; discriminate.
  - discriminate.
Qed.

(** C7.  The reads of [HandleConnection] take at most 1024 bytes from
    the connection and the handler returns.  When a line feed is among
    the bytes received, the first line, trimmed, is given to
    [ValidateChallenge], and nothing else ever is.  When the challenge
    was written and no line feed is among the bytes received,
    [HandleConnection] returns the failure to read and has written
    nothing after the challenge; it returns that failure in no other
    case, and only for a reason: the connection returned the error at
    the last read, or the 1024 bytes are used up, or a hundred reads in
    a row brought nothing. *)
Theorem HandleConnection_reads_one_line tr r :
  runs HandleConnection tr r ->
  len (received tr) <= 1024
  /\ (exists err, r = Returns err)
  /\ (forall c s ok, In (EvValidateChallenge c s ok) tr ->
        exists line, first_line (received tr) = Some line /\ s = TrimSpace line)
  /\ (forall line, first_line (received tr) = Some line ->
        exists c ok, In (EvValidateChallenge c (TrimSpace line) ok) tr)
  /\ (forall b rest, writes tr = (b, None) :: rest ->
        first_line (received tr) = None -> read_failure r /\ rest = [])
  /\ (read_failure r ->
        first_line (received tr) = None /\ exists b, writes tr = [(b, None)])
  /\ (forall e, r = Returns (Some (Wrapped "failed to read client response" e)) ->
        gave_up tr e).
Proof.
  intros Hrun.
  pose proof (always_runs _ _ _ _ _ _ HandleConnection_cause Hrun) as Hcause.
  apply HandleConnection_exchange in Hrun.
  destruct Hrun as [c n e|c n reads e Hr Hlen Hline
                   |c n reads line n' err Hr Hlen Hline
                   |c n reads line q n' err Hr Hlen Hline];
    cbn [received writes] in *; rewrite ?writes_app, ?(writes_reads _ Hr);
    rewrite ?received_reads_only by reflexivity; cbn [writes app].
  - split; [change (len "") with 0; lia|]. split; [eauto|].
    split; [|split; [|split; [|split; [|exact Hcause]]]].
    + intros c' s ok [H|[H|[]]]; discriminate.
    + intros line H. discriminate H.
    + intros b rest H. discriminate.
    + intros [e' H]. discriminate.
  - split; [exact Hlen|]. split; [eauto|].
    split; [|split; [|split; [|split; [|exact Hcause]]]].
    + intros c' s ok [H|[H|H]]; try discriminate.
      apply (not_read_in _ _ Hr) in H. contradiction.
    + intros line H. congruence.
    + intros b rest H _. injection H as _ <-. split; [eexists; reflexivity|reflexivity].
    + intros _. split; [exact Hline|eauto].
  - split; [exact Hlen|]. split; [eauto|].
    split; [|split; [|split; [|split; [|exact Hcause]]]].
    + intros c' s ok [H|[H|H]]; try discriminate.
      apply in_app_or in H. destruct H as [H|H].
      * apply (not_read_in _ _ Hr) in H. contradiction.
      * destruct H as [H|[H|[]]]; try discriminate.
        injection H as _ <- _. eauto.
    + intros line' H. rewrite Hline in H. injection H as <-.
      exists c, false. right. right. apply in_or_app. right. left. reflexivity.
    + intros b rest _ H. congruence.
    + intros [e' H]. destruct err; discriminate.
  - split; [exact Hlen|]. split; [eauto|].
    split; [|split; [|split; [|split; [|exact Hcause]]]].
    + intros c' s ok [H|[H|H]]; try discriminate.
      apply in_app_or in H. destruct H as [H|H].
      * apply (not_read_in _ _ Hr) in H. contradiction.
      * destruct H as [H|[H|[H|[]]]]; try discriminate.
        injection H as _ <- _. eauto.
    + intros line' H. rewrite Hline in H. injection H as <-.
      exists c, true. right. right. apply in_or_app. right. left. reflexivity.
    + intros b rest _ H. congruence.
    + intros [e' H]. destruct err; discriminate.
Qed.

Lemma length_slice_le (s : string) (k : nat) :
  (String.length (slice s 0 k) <= k)%nat.
Proof.
  unfold slice. rewrite Nat.sub_0_r. revert k.
  induction s as [|c s IH]; intros [|k]; cbn; try lia.
  specialize (IH k). lia.
Qed.

(** The scripted connection keeps the contract of [io.Reader]. *)
Lemma oracle_valid {heap : Heap} (B : Type) (e : Call B) (w : Wiring.world) :
  valid B e (fst (Wiring.oracle B e w)).
Proof.
  destruct e; cbn; auto.
  unfold Wiring.conn_Read. destruct (Wiring.incoming w) as [|[data e] rest]; cbn.
  - split; [change (len "") with 0; lia|discriminate].
  - destruct (Z.leb_spec (len data) n); cbn.
    + split; [lia|]. destruct e as [[]|]; discriminate.
    + split; [|discriminate].
      pose proof (length_slice_le data (Z.to_nat (Z.max 0 n))).
      unfold len. lia.
Qed.

Lemma serve_runs {heap : Heap} (w : Wiring.world) :
  runs HandleConnection (fst (fst (Wiring.serve w))) (snd (fst (Wiring.serve w))).
Proof. apply run_runs, oracle_valid. Qed.

(** The peer sends an empty line: the empty solution is rejected. *)
Lemma HandleConnection_rejects_witness :
  let w := Wiring.main_world [(LF, None)] [] in
  let tr := fst (fst (Wiring.serve w)) in
  let r := snd (fst (Wiring.serve w)) in
  runs HandleConnection tr r
  /\ In (EvValidateChallenge "7" "" false) tr
  /\ exists n reads line n' err,
      tr = EvGenerateChallenge "7"
           :: EvWrite (Protocol.PrefixChallenge +:+ "7" +:+ LF) n None
           :: reads
           ++ [EvValidateChallenge "7" "" false;
               EvWrite ("ERROR:Invalid PoW solution" +:+ LF) n' err]
      /\ Forall is_read reads
      /\ first_line (received reads) = Some line
      /\ "" = TrimSpace line
      /\ writes tr = [(Protocol.PrefixChallenge +:+ "7" +:+ LF, None);
                      (Protocol.PrefixError +:+ InvalidMsg +:+ LF, err)]
      /\ quote_calls tr = O
      /\ r = Returns (send_error "failed to send validate" err)
      /\ (err = None -> r = Returns None).
Proof.
  intros w tr r.
  assert (Hrun : runs HandleConnection tr r) by apply serve_runs.
  assert (Hin : In (EvValidateChallenge "7" "" false) tr)
    by (vm_compute; tauto).
  split; [exact Hrun|]. split; [exact Hin|].
  exact (HandleConnection_rejects tr r "7" "" Hrun Hin).
Defined.

Example serve_empty_solution :
  fst (Wiring.serve (Wiring.main_world [(LF, None)] []))
  = ([EvGenerateChallenge "7";
      EvWrite ("CHALLENGE:7" +:+ LF) 12 None;
      EvRead 1024 LF None;
      EvValidateChallenge "7" "" false;
      EvWrite ("ERROR:Invalid PoW solution" +:+ LF) 27 None],
     Returns None).
Proof. vm_compute. reflexivity. Qed.

(** A peer whose solution arrives in two pieces, with blanks around
    it: the line is read, trimmed and validated. *)
Lemma HandleConnection_reads_one_line_witness :
  let w := Wiring.main_world [(" 548", None); ("22 " +:+ LF +:+ "rest", None)] [] in
  let tr := fst (fst (Wiring.serve w)) in
  let r := snd (fst (Wiring.serve w)) in
  runs HandleConnection tr r
  /\ received tr = " 54822 " +:+ LF +:+ "rest"
  /\ first_line (received tr) = Some (" 54822 " +:+ LF)
  /\ (exists c ok, In (EvValidateChallenge c "54822" ok) tr)
  /\ len (received tr) <= 1024
  /\ (exists err, r = Returns err)
  /\ (forall c s ok, In (EvValidateChallenge c s ok) tr ->
        exists line, first_line (received tr) = Some line /\ s = TrimSpace line)
  /\ (forall b rest, writes tr = (b, None) :: rest ->
        first_line (received tr) = None -> read_failure r /\ rest = [])
  /\ (read_failure r ->
        first_line (received tr) = None /\ exists b, writes tr = [(b, None)])
  /\ (forall e, r = Returns (Some (Wrapped "failed to read client response" e)) ->
        gave_up tr e).
Proof.
  intros w tr r.
  assert (Hrun : runs HandleConnection tr r) by apply serve_runs.
  assert (Hrec : received tr = " 54822 " +:+ LF +:+ "rest") by (vm_compute; reflexivity).
  assert (Hline : first_line (received tr) = Some (" 54822 " +:+ LF))
    by (vm_compute; reflexivity).
  destruct (HandleConnection_reads_one_line tr r Hrun)
    as (H1 & H2 & H3 & H4 & H5 & H6 & H7).
  split; [exact Hrun|]. split; [exact Hrec|]. split; [exact Hline|].
  split; [exact (H4 _ Hline)|]. auto 10.
Defined.

(** A peer that sends 2000 bytes and no line feed: the reading is
    given up when the 1024 bytes are used up. *)
Example HandleConnection_gives_up :
  let w := Wiring.main_world [(repeat_nat "A" 2000, None)] [] in
  let tr := fst (fst (Wiring.serve w)) in
  let r := snd (fst (Wiring.serve w)) in
  r = Returns (Some (Wrapped "failed to read client response" EOF))
  /\ len (received tr) = maxReadSize
  /\ ~ (exists before n data, tr = before ++ [EvRead n data (Some EOF)]).
Proof.
  cbv zeta. split; [vm_compute; reflexivity|]. split; [vm_compute; reflexivity|].
  intros (before & n & data & H). revert H. vm_compute.
  destruct before as [|e1 [|e2 [|e3 [|e4 before]]]]; cbn; discriminate.
Qed.

Example serve_no_line_feed :
  let '(tr, r, _) := Wiring.serve (Wiring.main_world [(repeat_nat "A" 2000, None)] []) in
  tr = [EvGenerateChallenge "7";
        EvWrite ("CHALLENGE:7" +:+ LF) 12 None;
        EvRead 1024 (repeat_nat "A" 1024) None]
  /\ r = Returns (Some (Wrapped "failed to read client response" EOF)).
Proof. vm_compute. split; reflexivity. Qed.

Example serve_connection_error :
  fst (Wiring.serve (Wiring.main_world [("548", Some (NetError "i/o timeout"))] []))
  = ([EvGenerateChallenge "7";
      EvWrite ("CHALLENGE:7" +:+ LF) 12 None;
      EvRead 1024 "548" (Some (NetError "i/o timeout"))],
     Returns (Some (Wrapped "failed to read client response"
                      (NetError "i/o timeout")))).
Proof. vm_compute. reflexivity. Qed.

Example serve_valid_solution :
  fst (Wiring.serve (Wiring.main_world
         [(" 548", None); ("22 " +:+ LF +:+ "rest", None)] []))
  = ([EvGenerateChallenge "7";
      EvWrite ("CHALLENGE:7" +:+ LF) 12 None;
      EvRead 1024 " 548" None;
      EvRead 1020 ("22 " +:+ LF +:+ "rest") None;
      EvValidateChallenge "7" "54822" true;
      EvGetQuote "Opportunities don't happen. You create them.";
      EvWrite ("QUOTE:Opportunities don't happen. You create them." +:+ LF) 51 None],
     Returns None).
Proof. vm_compute. reflexivity. Qed.

Example serve_write_fails :
  fst (Wiring.serve (Wiring.main_world [] [Some (NetError "broken pipe")]))
  = ([EvGenerateChallenge "7";
      EvWrite ("CHALLENGE:7" +:+ LF) 0 (Some (NetError "broken pipe"))],
     Returns (Some (Wrapped "failed to send challenge"
                      (Wrapped "failed to send message" (NetError "broken pipe"))))).
Proof. vm_compute. reflexivity. Qed.

End HandlerFacts.

(* ================================================================== *)
(** ** The connection manager *)
(* ================================================================== *)

Module ServerFacts.
Import GoStrings Server.

Ltac walk :=
  repeat first
    [ progress cbn
    | progress intros
    | match goal with
      | |- _ /\ _ => split
      | |- True => exact I
      | |- _ = _ => reflexivity
      | |- context [Z.eqb ?a ?a] => rewrite Z.eqb_refl
      | b : bool |- _ => destruct b
      | b : option _ |- _ => destruct b
      | b : (_ * _)%type |- _ => destruct b
      | b : unit |- _ => destruct b
      | b : HandlerResult |- _ => destruct b
      | b : (_ + _)%type |- _ => destruct b
      | H : _ = None |- _ => discriminate H
      | |- context [if ?c then _ else _] => destruct c
      end ].

Lemma handleClient_settles cfg c : settles cfg unit_debt (handleClient cfg c).
Proof. unfold handleClient, handleClient_body, getLimiterForIP, recoverPanic. walk. Qed.

Lemma acceptConnections_settles cfg : settles cfg idle acceptConnections.
Proof. unfold acceptConnections, dispatch. walk. Qed.

Lemma Shutdown_settles cfg : settles cfg idle (Shutdown cfg).
Proof. unfold Shutdown, Once_Do, Shutdown_body. walk. Qed.

Lemma Start_wait_settles cfg : settles cfg idle (Start_wait cfg).
Proof. unfold Start_wait, Shutdown, Once_Do, Shutdown_body. walk. Qed.



(** The three predicates tell programs apart.  Without its deferred
    [recoverPanic] the body lets a panic out; [handleClient] gives back
    one token, neither none nor two; and a goroutine that holds no slot
    must not run it. *)
Example handleClient_body_may_panic cfg c :
  ~ returns_always (handleClient_body cfg c).
Proof.
  intros H. cbn in H. specialize (H None I). cbn in H. discriminate H.
Qed.

Example handleClient_releases_one_only cfg c :
  ~ releases 0 (handleClient cfg c) /\ ~ releases 2 (handleClient cfg c).
Proof.
  split; intros H; cbn in H; specialize (H None); cbn in H.
  - exact (H tt tt).
  - specialize (H tt tt tt tt None). cbn in H. discriminate H.
Qed.

Example handleClient_needs_a_slot cfg c :
  ~ settles cfg idle (handleClient cfg c).
Proof.
  intros H. cbn in H. specialize (H None). cbn in H.
  specialize (H tt). cbn in H. specialize (H tt). cbn in H.
  specialize (H tt). cbn in H. exact H.
Qed.


Lemma tally_app f (a b : list Debt) : tally f (a ++ b) = (tally f a + tally f b)%nat.
Proof. induction a as [|d a IH]; cbn; [reflexivity|]. rewrite IH. lia. Qed.

Lemma tally_Permutation f (a b : list Debt) :
  Permutation a b -> tally f a = tally f b.
Proof. induction 1; cbn; lia. Qed.

Lemma balanced_Permutation cfg s (a b : list Debt) :
  Permutation a b -> balanced cfg s a -> balanced cfg s b.
Proof.
  intros Hp [H1 H2 H3 H4 H5 H6 H7 H8].
  constructor; rewrite <- ?(tally_Permutation _ _ _ Hp); auto.
Qed.


Lemma limiter_ok_insert cfg (l : list Limiter) i x :
  Forall (limiter_ok cfg) l -> l !! i = Some x ->
  Forall (limiter_ok cfg) (<[i := took_token x]> l).
Proof.
  intros H Hx. apply Forall_insert; [exact H|].
  rewrite Forall_forall in H. apply (H x).
  eapply list_elem_of_lookup_2. exact Hx.
Qed.

(** An operation allowed by the debt of the goroutine that makes it
    keeps the server and the debts in balance. *)
Ltac split_in H :=
  repeat match type of H with
    | context [match ?x with _ => _ end] => destruct x eqn:?
    end.

Ltac split_goal :=
  repeat match goal with
    | |- context [if ?c then _ else _] => destruct c eqn:?
    | |- context [match ?x with _ => _ end] => is_var x; destruct x
    end.

Ltac reflect_tests :=
  repeat match goal with
    | H : (_ <? _)%nat = true |- _ => apply Nat.ltb_lt in H
    | H : (_ <? _)%nat = false |- _ => apply Nat.ltb_ge in H
    | H : (_ <? _) = true |- _ => apply Z.ltb_lt in H
    | H : (_ <? _) = false |- _ => apply Z.ltb_ge in H
    | H : (_ =? _) = true |- _ => apply Z.eqb_eq in H
    | H : _ && _ = true |- _ => apply andb_prop in H; destruct H
    | H : negb _ = true |- _ => apply negb_true_iff in H
    end.

Lemma tally_phases (ds : list Debt) :
  (tally entering ds + tally in_body ds <= tally busy ds)%nat.
Proof.
  induction ds as [|[sl co []] ds IH]; cbn in *; lia.
Qed.

Lemma op_balanced cfg (B : Type) (e : Op B) ch s b s' d rest :
  balanced cfg s (d :: rest) ->
  op B e ch s = Some (b, s') ->
  match after cfg d B e b with
  | Next d' => balanced cfg s' (d' :: spawned_debts B e ++ rest)
  | Never => False
  | Wrong => True
  end.
Proof.
  intros [Hcfg Hslots Hcap Hcnt Hmu Hcl Hdone Hlim] Hop.
  destruct d as [sl co ph]. unfold capacity in *. cbn in *.
  pose proof (tally_phases rest) as Hph.
  destruct (once_m s) eqn:Hm; destruct (once_done s) eqn:Hd;
    [destruct (Hdone eq_refl) as [Hen Hbo]|clear Hdone
    |destruct (Hdone eq_refl) as [Hen Hbo]|clear Hdone].
  all: destruct e; unfold op, update_conn in Hop; split_in Hop; try discriminate Hop;
    inversion Hop; subst; clear Hop; cbn; split_goal; cbn; try exact I;
    reflect_tests; subst; cbn in *.
  all: try lia.
  all: try (constructor; unfold capacity; cbn; rewrite ?Hm, ?Hd; cbn;
            repeat match goal with
              | H : once_done _ = _ |- _ => rewrite H
              end;
            auto; try lia; try discriminate; try (intros _; lia);
            try (apply Forall_app; split; [assumption|];
                 repeat constructor; cbn; assumption);
            try (eapply limiter_ok_insert; eassumption)).
Qed.

Lemma balanced_drop_idle cfg s ds : balanced cfg s (idle :: ds) -> balanced cfg s ds.
Proof. intros [H1 H2 H3 H4 H5 H6 H7 H8]; constructor; cbn in *; auto. Qed.

Lemma balanced_add_idle cfg s ds : balanced cfg s ds -> balanced cfg s (idle :: ds).
Proof. intros [H1 H2 H3 H4 H5 H6 H7 H8]; constructor; cbn in *; auto. Qed.

Lemma balanced_signal cfg s ds :
  balanced cfg s ds -> balanced cfg (set_ctx_done true s) ds.
Proof. intros [H1 H2 H3 H4 H5 H6 H7 H8]; constructor; cbn in *; auto. Qed.

Lemma spawned_settle cfg s (B : Type) (e : Op B) :
  config s = cfg ->
  Forall2 (thread_settles cfg) (spawned_debts B e) (spawned (config s) B e).
Proof.
  intros ->. destruct e; cbn; try constructor; [|constructor].
  split; [apply handleClient_settles|exact I].
Qed.

(** Steps keep the invariant. *)
Lemma invariant_step cfg w w' : invariant cfg w -> step w w' -> invariant cfg w'.
Proof.
  intros [_ (ds & Hts & Hbal)] Hstep.
  destruct Hstep as [s l1 t l2 s' ts' crash Ht|s ts|s ts]; cbn in *.
  - apply Forall2_app_inv_r in Hts as (d1 & ds2 & H1 & H2 & ->).
    apply Forall2_cons_inv_r in H2 as (d & d2 & Hd & H2 & ->).
    apply (balanced_Permutation _ _ _ (d :: d1 ++ d2)) in Hbal;
      [|symmetry; apply Permutation_middle].
    destruct t as [body [e|B e k]]; cbn in Hd, Ht.
    + destruct Hd as [[-> He] Hbody]. apply balanced_drop_idle in Hbal.
      destruct e as [|v|]; [|contradiction|]; destruct Ht as (-> & -> & ->);
        (split; [reflexivity|]).
      * exists (d1 ++ d2). split; [|exact Hbal].
        apply Forall2_app; assumption.
      * destruct body as [q|].
        -- exists (d1 ++ idle :: d2). split.
           ++ apply Forall2_app; [assumption|]. constructor; [|assumption].
              split; assumption.
           ++ apply (balanced_Permutation _ _ (idle :: d1 ++ d2));
                [apply Permutation_middle|]. now apply balanced_add_idle.
        -- exists (d1 ++ d2). split; [|exact Hbal].
           apply Forall2_app; assumption.
    + destruct Ht as (ch & b & Hop & -> & ->). destruct Hd as [Hp Hbody].
      cbn in Hp. specialize (Hp b).
      pose proof (op_balanced cfg B e ch s b s' d (d1 ++ d2) Hbal Hop) as Hnew.
      destruct (after cfg d B e b) as [d'| |]; [|contradiction..].
      split; [reflexivity|].
      exists (d1 ++ (d' :: spawned_debts B e) ++ d2). split.
      * apply Forall2_app; [assumption|]. cbn. constructor; [split; assumption|].
        apply Forall2_app; [|assumption].
        apply spawned_settle. apply Hbal.
      * eapply balanced_Permutation; [|exact Hnew].
        apply (Permutation_app_swap_app (d' :: spawned_debts B e) d1 d2).
  - split; [reflexivity|]. exists ds. split; [assumption|].
    now apply balanced_signal.
  - split; [reflexivity|]. exists (ds ++ [idle]). split.
    + apply Forall2_app; [assumption|]. constructor; [|constructor].
      split; [|exact I]. rewrite (bal_config _ _ _ Hbal). apply Shutdown_settles.
    + apply (balanced_Permutation _ _ (idle :: ds)).
      * rewrite Permutation_app_comm. reflexivity.
      * now apply balanced_add_idle.
Qed.

Lemma invariant_started cfg w : started cfg = Some w -> invariant cfg w.
Proof.
  unfold started. destruct (Z.ltb_spec (MaxConnections cfg) 0); [discriminate|].
  intros [= <-]. split; [reflexivity|]. exists [idle; idle]. split.
  - constructor; [split; apply acceptConnections_settles|].
    constructor; [split; [apply Start_wait_settles|exact I]|constructor].
  - constructor; cbn; auto; try lia; discriminate.
Qed.

Lemma invariant_reachable cfg w : reachable cfg w -> invariant cfg w.
Proof.
  induction 1 as [w Hw|w w' _ IH Hstep].
  - now apply invariant_started.
  - eapply invariant_step; eassumption.
Qed.
Lemma thread_run_step ch s t s' ts' crash :
  thread_run ch s t = Some (s', ts', crash) -> thread_step s t s' ts' crash.
Proof.
  destruct t as [body [e|B e k]]; cbn.
  - destruct e; intros [= <- <- <-]; auto.
  - destruct (op B e ch s) as [[b s'']|] eqn:Hop; [|discriminate].
    intros [= <- <- <-]. eauto.
Qed.

(** A move of a schedule is a step of the process. *)
Lemma move_step m w w' : move m w = Some w' -> step w w'.
Proof.
  destruct w as [s ts crashed]. unfold move. cbn.
  destruct crashed; [discriminate|]. destruct m as [i ch| |].
  - destruct (ts !! i) as [t|] eqn:Hi; [|discriminate].
    destruct (thread_run ch s t) as [[[s' ts'] crash]|] eqn:Hrun; [|discriminate].
    intros [= <-]. rewrite <- (take_drop_middle ts i t Hi) at 1.
    apply step_thread. now apply (thread_run_step ch).
  - intros [= <-]. constructor.
  - intros [= <-]. constructor.
Qed.

Lemma play_reachable cfg ms w w' :
  reachable cfg w -> play ms w = Some w' -> reachable cfg w'.
Proof.
  revert w. induction ms as [|m ms IH]; cbn; intros w Hw.
  - now intros [= <-].
  - destruct (move m w) as [w1|] eqn:Hm; [|discriminate].
    apply IH. eapply reachable_step; [exact Hw|]. now apply (move_step m).
Qed.

Lemma reachable_rtc cfg w w' : reachable cfg w -> rtc step w w' -> reachable cfg w'.
Proof. induction 2; eauto using reachable_step. Qed.

(** [LoadOrStore] is the only operation on the registry, and it leaves
    an entry it finds as it is. *)
Lemma op_limiterMap (B : Type) (e : Op B) ch s b s' ip l :
  op B e ch s = Some (b, s') ->
  limiterMap s !! ip = Some l -> limiterMap s' !! ip = Some l.
Proof.
  intros Hop Hl.
  destruct e; unfold op, update_conn in Hop; split_in Hop; try discriminate Hop;
    inversion Hop; subst; clear Hop; cbn; try exact Hl.
  destruct (decide (ip0 = ip)) as [->|Hne]; [congruence|].
  now rewrite lookup_insert_ne.
Qed.

Lemma step_limiterMap w w' ip l :
  step w w' ->
  limiterMap (srv w) !! ip = Some l -> limiterMap (srv w') !! ip = Some l.
Proof.
  intros [s l1 [body [e|B e k]] l2 s' ts' crash Ht|s ts|s ts]; cbn; auto.
  - destruct e; destruct Ht as (-> & _); auto.
  - destruct Ht as (ch & b & Hop & _). eauto using op_limiterMap.
Qed.

Lemma rtc_limiterMap w w' ip l :
  rtc step w w' ->
  limiterMap (srv w) !! ip = Some l -> limiterMap (srv w') !! ip = Some l.
Proof. induction 1; eauto using step_limiterMap. Qed.

(** An accepted socket is taken in while a slot is free. *)
Lemma dispatch_takes_in ch s conn :
  (semaphore s < capacity s)%nat ->
  solo ch (dispatch conn) s
  = Some (Again, set_wg (wg s + 1) (set_semaphore (S (semaphore s)) s),
          [Go None (handleClient (config s) conn)]).
Proof.
  intros Hfree. unfold dispatch. cbn [bind call solo op].
  apply Nat.ltb_lt in Hfree. rewrite Hfree. reflexivity.
Qed.



Lemma play_started cfg ms w :
  (w0 ← started cfg; play ms w0) = Some w -> reachable cfg w.
Proof.
  destruct (started cfg) as [w0|] eqn:H0; cbn; [|discriminate].
  intros Hw. eapply play_reachable; [|exact Hw]. now constructor.
Qed.

Lemma served_once_reachable w :
  served_once = Some w -> reachable test_config w.
Proof. unfold served_once. apply play_started. Qed.


Lemma full_house_reachable w :
  full_house = Some w -> reachable test_config w.
Proof. unfold full_house. apply play_started. Qed.

Lemma three_shutdowns_reachable w :
  three_shutdowns = Some w -> reachable test_config w.
Proof. unfold three_shutdowns. apply play_started. Qed.



(** The turn [dispatch] takes with every slot taken, as a state. *)
Lemma dispatch_full ch s conn :
  (capacity s <= semaphore s)%nat ->
  solo ch (dispatch conn) s
  = Some (Again,
          update_conn conn closed_once
            (add_log Warn "Too many connections. Rejecting client." s), []).
Proof.
  intros Hfull. unfold dispatch. cbn [bind call solo op].
  apply Nat.ltb_ge in Hfull. rewrite Hfull. reflexivity.
Qed.

(** C5.  With no slot free, [acceptConnections] logs and closes the
    socket it accepted and goes round again: it starts no goroutine, so
    that the handler never sees the socket; the limiters and their
    registry, the semaphore and the wait group are as they were; and
    nothing was written to the peer. *)
Theorem dispatch_sheds_load ch s conn x :
  (capacity s <= semaphore s)%nat ->
  conns s !! conn = Some x ->
  exists s',
    solo ch (dispatch conn) s = Some (Again, s', [])
    /\ conns s' = <[conn := closed_once x]> (conns s)
    /\ closes (closed_once x) = S (closes x)
    /\ written (closed_once x) = written x
    /\ limiters s' = limiters s
    /\ limiterMap s' = limiterMap s
    /\ semaphore s' = semaphore s
    /\ wg s' = wg s
    /\ log s' = log s ++ [(Warn, "Too many connections. Rejecting client.")].
Proof.
  intros Hfull Hx. rewrite (dispatch_full ch s conn Hfull).
  unfold update_conn. cbn [conns add_log]. rewrite Hx.
  eexists. split; [reflexivity|]. cbn. repeat split; reflexivity.
Qed.

Lemma dispatch_sheds_load_witness :
  match full_house with
  | Some w =>
      let s := srv w in
      let x := {| remote := Some "127.0.0.1"; closes := 0; written := [];
                  deadline := None |} in
      (capacity s <= semaphore s)%nat
      /\ conns s !! 2%nat = Some x
      /\ exists s',
          solo (peer HandlerNil) (dispatch 2) s = Some (Again, s', [])
          /\ conns s' = <[2%nat := closed_once x]> (conns s)
          /\ closes (closed_once x) = S (closes x)
          /\ written (closed_once x) = written x
          /\ limiters s' = limiters s
          /\ limiterMap s' = limiterMap s
          /\ semaphore s' = semaphore s
          /\ wg s' = wg s
          /\ log s' = log s ++ [(Warn, "Too many connections. Rejecting client.")]
  | None => False
  end.
Proof.
  destruct full_house as [w|] eqn:Hw; [|exfalso; revert Hw; vm_compute; discriminate].
  intros s x.
  assert (Hfull : (capacity s <= semaphore s)%nat).
  { subst s. revert Hw. vm_compute. intros [= <-]. cbn. lia. }
  assert (Hx : conns s !! 2%nat = Some x).
  { subst s x. revert Hw. vm_compute. now intros [= <-]. }
  split; [exact Hfull|]. split; [exact Hx|].
  exact (dispatch_sheds_load (peer HandlerNil) s 2 x Hfull Hx).
Defined.

(** The whole turn of the loop, from [Accept] on. *)
Corollary acceptConnections_sheds_load ch s addr :
  listener_closes s = O -> arrival ch = inl addr ->
  (capacity s <= semaphore s)%nat ->
  exists s',
    solo ch acceptConnections s = Some (Again, s', [])
    /\ conns s' = conns s ++ [ {| remote := addr; closes := 1; written := [];
                                  deadline := None |} ]
    /\ limiters s' = limiters s
    /\ limiterMap s' = limiterMap s
    /\ semaphore s' = semaphore s.
Proof.
  intros Hopen Harr Hfull. unfold acceptConnections.
  cbn [bind call solo op]. rewrite Hopen, Harr. cbn [bind].
  set (x := {| remote := addr; closes := 0; written := []; deadline := None |}).
  set (s1 := set_conns (conns s ++ [x]) s).
  assert (Hx : conns s1 !! List.length (conns s) = Some x)
    by (subst s1; cbn; apply list_lookup_middle; reflexivity).
  rewrite (dispatch_full ch s1 (List.length (conns s))) by exact Hfull.
  unfold update_conn. cbn [conns add_log]. rewrite Hx.
  eexists. split; [reflexivity|]. subst s1. cbn.
  repeat split; try reflexivity.
  rewrite insert_app_r_alt by lia. rewrite Nat.sub_diag. reflexivity.
Qed.


(** [LoadOrStore] returns the entry the registry holds afterwards: the
    one it found, the state unchanged, or else the one it was given. *)
Lemma LoadOrStore_atomic ch s ip fresh r s' :
  op _ (LoadOrStore ip fresh) ch s = Some (r, s') ->
  limiterMap s' !! ip = Some (fst r)
  /\ (snd r = true -> limiterMap s !! ip = Some (fst r) /\ s' = s)
  /\ (snd r = false -> limiterMap s !! ip = None /\ fst r = fresh).
Proof.
  cbn. destruct (limiterMap s !! ip) as [l|] eqn:Hl; intros [= <- <-]; cbn.
  - repeat split; auto; discriminate.
  - rewrite lookup_insert_eq. repeat split; auto; discriminate.
Qed.

(** C6, as the code has it.  Whatever the goroutines do and in whatever
    order, an entry of the registry, once stored, stays the entry of
    its IP; [LoadOrStore] looks up and stores in one step and returns
    the entry the registry holds; and every limiter is created with the
    interval of 100 ms between tokens and the burst
    [RateLimitEvery100MS] of the configuration. *)
Theorem limiter_registry cfg w w' ip l :
  reachable cfg w -> rtc step w w' ->
  (limiterMap (srv w) !! ip = Some l -> limiterMap (srv w') !! ip = Some l)
  /\ (forall ch s fresh r s',
        op _ (LoadOrStore ip fresh) ch s = Some (r, s') ->
        limiterMap s' !! ip = Some (fst r)
        /\ (snd r = true -> limiterMap s !! ip = Some (fst r) /\ s' = s)
        /\ (snd r = false -> limiterMap s !! ip = None /\ fst r = fresh))
  /\ Forall (fun x => every x = 100 * Millisecond
                      /\ burst x = RateLimitEvery100MS cfg)
       (limiters (srv w')).
Proof.
  intros Hw Hsteps. split; [|split].
  - now apply rtc_limiterMap.
  - intros ch s fresh r s'. apply LoadOrStore_atomic.
  - pose proof (reachable_rtc cfg w w' Hw Hsteps) as Hw'.
    destruct (invariant_reachable cfg w' Hw') as [_ (ds & _ & Hbal)].
    apply Hbal.
Qed.

Lemma play_rtc ms w w' : play ms w = Some w' -> rtc step w w'.
Proof.
  revert w. induction ms as [|m ms IH]; cbn; intros w.
  - intros [= <-]. constructor.
  - destruct (move m w) as [w1|] eqn:Hm; [|discriminate].
    intros H. eapply rtc_l; [exact (move_step m w w1 Hm)|]. now apply IH.
Qed.

(** The first peer's limiter is still the limiter of 127.0.0.1 after
    two more peers from that address. *)
Lemma limiter_registry_witness :
  match served_once, after_a_panic with
  | Some w, Some w' =>
      reachable test_config w
      /\ rtc step w w'
      /\ limiterMap (srv w) !! "127.0.0.1" = Some O
      /\ limiterMap (srv w') !! "127.0.0.1" = Some O
      /\ Forall (fun x => every x = 100 * Millisecond
                          /\ burst x = RateLimitEvery100MS test_config)
           (limiters (srv w'))
  | _, _ => False
  end.
Proof.
  destruct served_once as [w|] eqn:Hw; [|exfalso; revert Hw; vm_compute; discriminate].
  destruct after_a_panic as [w'|] eqn:Hw'; [|exfalso; revert Hw'; vm_compute; discriminate].
  assert (Hr : reachable test_config w) by exact (served_once_reachable w Hw).
  assert (Hs : rtc step w w').
  { unfold after_a_panic in Hw'. rewrite Hw in Hw'.
    cbn [mbind option_bind] in Hw'. exact (play_rtc _ _ _ Hw'). }
  assert (H0 : limiterMap (srv w) !! "127.0.0.1" = Some O).
  { revert Hw. vm_compute. now intros [= <-]. }
  destruct (limiter_registry test_config w w' "127.0.0.1" O Hr Hs)
    as (Hkeep & _ & Hall).
  repeat split; auto.
Defined.

(** C6 as stated fails: two configurations with no field in common
    give limiters with the same interval, 100 ms, which is no field of
    either; only the burst follows the configuration. *)
Lemma refill_interval_not_configured :
  first_limiter test_config
  = Some [ {| every := 100 * Millisecond; burst := 5; taken := 0 |} ]
  /\ first_limiter other_config
     = Some [ {| every := 100 * Millisecond; burst := 50; taken := 0 |} ]
  /\ Port test_config <> Port other_config
  /\ Forall (fun x => x ∉ numbers other_config) (numbers test_config)
  /\ 100 * Millisecond ∉ numbers test_config ++ numbers other_config.
Proof.
  split; [reflexivity|]. split; [reflexivity|]. split; [discriminate|].
  split; apply (bool_decide_unpack _); vm_compute; exact I.
Qed.


(** A call of [Shutdown] after [done] is set does nothing. *)
Lemma Shutdown_again cfg ch s :
  once_done s = true -> solo ch (Shutdown cfg) s = Some (Returned, s, []).
Proof.
  intros Hdone. unfold Shutdown, Once_Do. cbn [bind call solo op].
  rewrite Hdone. reflexivity.
Qed.

(** The first call of [Shutdown] runs the body: it closes the
    listener, waits, cancels the context and sets [done]. *)
Lemma Shutdown_first cfg ch s :
  once_done s = false -> once_m s = false ->
  exists s',
    solo ch (Shutdown cfg) s = Some (Returned, s', [])
    /\ once_done s' = true
    /\ once_m s' = false
    /\ listener_closes s' = S (listener_closes s)
    /\ ctx_done s' = true
    /\ config s' = config s.
Proof.
  intros Hdone Hm. unfold Shutdown, Once_Do, Shutdown_body.
  destruct s as [c lc cd w sem od om lm ls cs lg]. cbn in Hdone, Hm. subst od om.
  destruct lc as [|n]; cbn;
    (destruct (drained ch && (w =? 0)); cbn;
     eexists; (split; [reflexivity|]); cbn; auto).
Qed.

Lemma Shutdown_calls_again chs s :
  once_done s = true -> Shutdown_calls chs s = Some s.
Proof.
  intros Hdone. induction chs as [|ch chs IH]; cbn [Shutdown_calls]; [reflexivity|].
  now rewrite (Shutdown_again _ ch s Hdone).
Qed.

(** C8.  In every state the process reaches, however many goroutines
    have called [Shutdown] and however their steps interleave, the
    listener has been closed at most once, and exactly once when [done]
    is set: the body has run once.  With no call under way, a call of
    [Shutdown] returns; it leaves the server as it is if [done] is set,
    and otherwise runs the body - the listener closed once, the context
    cancelled, [done] set; and any number of calls after it leave the
    state the first call left. *)
Theorem Shutdown_once cfg w :
  reachable cfg w ->
  (listener_closes (srv w) <= 1)%nat
  /\ (once_done (srv w) = true -> listener_closes (srv w) = 1%nat)
  /\ (once_m (srv w) = false ->
      forall ch chs,
      exists s',
        solo ch (Shutdown cfg) (srv w) = Some (Returned, s', [])
        /\ Shutdown_calls (ch :: chs) (srv w) = Some s'
        /\ once_done s' = true
        /\ listener_closes s' = 1%nat
        /\ (once_done (srv w) = true -> s' = srv w)
        /\ (once_done (srv w) = false ->
            listener_closes (srv w) = O /\ ctx_done s' = true)).
Proof.
  intros Hw. destruct (invariant_reachable cfg w Hw) as [_ (ds & _ & Hbal)].
  destruct Hbal as [Hcfg _ _ _ Hmu Hcl Hdone _].
  pose proof (tally_phases ds) as Hph.
  split; [|split].
  - destruct (once_done (srv w)); [lia|].
    destruct (once_m (srv w)); lia.
  - intros Hd. rewrite Hd in Hcl. exact Hcl.
  - intros Hm ch chs. rewrite Hm in Hmu.
    destruct (once_done (srv w)) eqn:Hd.
    + exists (srv w). cbn [Shutdown_calls]. rewrite Hcfg.
      rewrite (Shutdown_again cfg ch (srv w) Hd).
      rewrite (Shutdown_calls_again chs (srv w) Hd).
      repeat split; auto; discriminate.
    + destruct (Shutdown_first cfg ch (srv w) Hd Hm)
        as (s' & Hrun & Hd' & Hm' & Hcl' & Hctx & Hcfg').
      exists s'. cbn [Shutdown_calls]. rewrite Hcfg, Hrun.
      rewrite (Shutdown_calls_again chs s' Hd').
      assert (listener_closes (srv w) = O) by lia.
      repeat split; auto; try lia; discriminate.
Qed.

Lemma Shutdown_once_witness :
  match full_house, three_shutdowns with
  | Some w, Some w' =>
      reachable test_config w
      /\ reachable test_config w'
      /\ once_done (srv w) = false
      /\ once_done (srv w') = true
      /\ listener_closes (srv w') = 1%nat
      /\ exists s',
          Shutdown_calls (repeat (peer HandlerNil) 3) (srv w) = Some s'
          /\ once_done s' = true
          /\ listener_closes s' = 1%nat
  | _, _ => False
  end.
Proof.
  destruct full_house as [w|] eqn:Hw; [|exfalso; revert Hw; vm_compute; discriminate].
  destruct three_shutdowns as [w'|] eqn:Hw'; [|exfalso; revert Hw'; vm_compute; discriminate].
  assert (Hr : reachable test_config w) by exact (full_house_reachable w Hw).
  assert (Hr' : reachable test_config w') by exact (three_shutdowns_reachable w' Hw').
  assert (Hd : once_done (srv w) = false).
  { revert Hw. vm_compute. now intros [= <-]. }
  assert (Hm : once_m (srv w) = false).
  { revert Hw. vm_compute. now intros [= <-]. }
  assert (Hd' : once_done (srv w') = true).
  { revert Hw'. vm_compute. now intros [= <-]. }
  destruct (Shutdown_once test_config w Hr) as (_ & _ & Hseq).
  destruct (Hseq Hm (peer HandlerNil) (repeat (peer HandlerNil) 2))
    as (s' & _ & Hcalls & Hdone & Hcl & _).
  destruct (Shutdown_once test_config w' Hr') as (_ & Hexact & _).
  repeat split; auto. exists s'. auto.
Defined.

End ServerFacts.

(* ================================================================== *)
(** ** The engine: digests, difficulties and challenges *)
(* ================================================================== *)

Module EngineFacts.
Import Pow GoStrings Numerals.

Lemma length_EncodeToString (src : list Z) :
  String.length (Hex.EncodeToString src) = (2 * List.length src)%nat.
Proof. induction src as [|v src IH]; cbn; [reflexivity|]. rewrite IH. lia. Qed.

Lemma length_block h chunk : List.length (SHA256.block h chunk) = 8%nat.
Proof. unfold SHA256.block. destruct (fold_left _ _ _). reflexivity. Qed.

Lemma length_blocks n : forall h p,
  List.length h = 8%nat -> List.length (SHA256.blocks n h p) = 8%nat.
Proof.
  induction n as [|n IH]; intros h p Hh; cbn; [exact Hh|].
  apply IH. apply length_block.
Qed.

Lemma length_Sum256 (data : list Z) : List.length (SHA256.Sum256 data) = 32%nat.
Proof.
  unfold SHA256.Sum256.
  pose proof (length_blocks (List.length (data ++ SHA256.padding (Z.of_nat (List.length data))) / 64)
                SHA256.init (data ++ SHA256.padding (Z.of_nat (List.length data))) eq_refl) as H.
  destruct (SHA256.blocks _ _ _) as [|a [|b [|c [|d [|e [|f [|g [|h [|]]]]]]]]];
    try discriminate H. reflexivity.
Qed.

Lemma length_digest (challenge solution : string) :
  String.length (digest challenge solution) = 64%nat.
Proof. unfold digest. rewrite length_EncodeToString, length_Sum256. reflexivity. Qed.


Lemma hex_value_hextable (d : Z) :
  0 <= d < 16 -> hex_value (Hex.hextable d) = Some d.
Proof.
  intros H.
  assert (Hd : d = 0 \/ d = 1 \/ d = 2 \/ d = 3 \/ d = 4 \/ d = 5 \/ d = 6 \/ d = 7
               \/ d = 8 \/ d = 9 \/ d = 10 \/ d = 11 \/ d = 12 \/ d = 13 \/ d = 14
               \/ d = 15) by lia.
  repeat (destruct Hd as [->|Hd]; [reflexivity|]). subst d. reflexivity.
Qed.

Lemma byte_nibbles (v : Z) :
  0 <= v < 256 -> 0 <= Z.shiftr v 4 < 16 /\ 0 <= Z.land v 15 < 16.
Proof.
  intros H. rewrite Z.shiftr_div_pow2 by lia.
  change 15 with (Z.ones 4). rewrite Z.land_ones by lia.
  change (2 ^ 4) with 16. split.
  - split; [apply Z.div_pos; lia|apply Z.div_lt_upper_bound; lia].
  - apply Z.mod_pos_bound. lia.
Qed.

Lemma lower_hex_EncodeToString (src : list Z) :
  Forall (fun v => 0 <= v < 256) src -> lower_hex (Hex.EncodeToString src) = true.
Proof.
  induction 1 as [|v src Hv _ IH]; [reflexivity|].
  cbn [Hex.EncodeToString lower_hex].
  destruct (byte_nibbles v Hv) as [Hh Hl].
  rewrite (hex_value_hextable _ Hh), (hex_value_hextable _ Hl), IH.
  reflexivity.
Qed.

Lemma be_bytes_range (k : nat) (v : Z) :
  Forall (fun b => 0 <= b < 256) (SHA256.be_bytes k v).
Proof.
  unfold SHA256.be_bytes. apply Forall_map. apply Forall_forall. intros i _. cbn.
  change 255 with (Z.ones 8). rewrite Z.land_ones by lia.
  apply Z.mod_pos_bound. lia.
Qed.

Lemma Sum256_range (data : list Z) :
  Forall (fun b => 0 <= b < 256) (SHA256.Sum256 data).
Proof.
  unfold SHA256.Sum256. apply Forall_concat. apply Forall_map.
  apply Forall_forall. intros h _. apply be_bytes_range.
Qed.

Lemma leading_zeros_le (s : string) : (leading_zeros s <= String.length s)%nat.
Proof.
  induction s as [|a s IH]; cbn; [lia|].
  destruct a as [[] [] [] [] [] [] [] []]; cbn; lia.
Qed.

(** X1.  The digest [ValidateChallenge] compares is a string of 64
    lower-case hexadecimal digits. *)
Theorem digest_shape (challenge solution : string) :
  String.length (digest challenge solution) = 64%nat
  /\ lower_hex (digest challenge solution) = true.
Proof.
  split; [apply length_digest|].
  unfold digest. apply lower_hex_EncodeToString, Sum256_range.
Qed.

(** X2.  No solution meets a difficulty above 64, the number of digits of
    the digest: [ValidateChallenge] returns false if [strings.Repeat]
    finds the memory for the zeros, and does not return if it does
    not; it never returns true. *)
Theorem ValidateChallenge_beyond_digest {heap : Heap}
    (p : SHA256PoW) (challenge solution : string) :
  64 < difficulty p <= maxInt ->
  ValidateChallenge p challenge solution
  = (if zeros_fit (difficulty p) then Some false else None)
  /\ ValidateChallenge p challenge solution <> Some true
  /\ (difficulty p <= smallSize -> ValidateChallenge p challenge solution = Some false)
  /\ (maxAlloc < difficulty p -> ValidateChallenge p challenge solution = None).
Proof.
  intros Hd.
  assert (H : ValidateChallenge p challenge solution
              = if zeros_fit (difficulty p) then Some false else None).
  { unfold ValidateChallenge. rewrite PowFacts.Repeat_zero by lia.
    destruct (zeros_fit (difficulty p)); [|reflexivity].
    rewrite GoStringsFacts.HasPrefix_zeros. f_equal.
    apply Nat.leb_gt.
    pose proof (leading_zeros_le (digest challenge solution)) as Hle.
    rewrite length_digest in Hle. fold (digest challenge solution). lia. }
  split; [exact H|]. rewrite H. split; [|split].
  - destruct (zeros_fit (difficulty p)); discriminate.
  - intros Hs. now rewrite PowFacts.zeros_fit_small.
  - intros Hb. now rewrite PowFacts.zeros_fit_beyond.
Qed.

Lemma ValidateChallenge_beyond_digest_witness :
  64 < difficulty (NewSHA256PoW 65 Rand.sevens) <= maxInt
  /\ ValidateChallenge (NewSHA256PoW 65 Rand.sevens) "7" "54822" = Some false
  /\ ValidateChallenge (NewSHA256PoW 65 Rand.sevens) "7" "54822" <> Some true.
Proof.
  assert (H : 64 < difficulty (NewSHA256PoW 65 Rand.sevens) <= maxInt)
    by (vm_compute; split; reflexivity || discriminate).
  split; [exact H|].
  destruct (ValidateChallenge_beyond_digest _ "7" "54822" H) as (_ & Hne & Hs & _).
  split; [apply Hs; vm_compute; discriminate|exact Hne].
Defined.

(** X3.  [ValidateChallenge] fails to return exactly when the difficulty
    is negative - [NewSHA256PoW] takes any [int], and the panic of
    [strings.Repeat] comes with the first validation - or so large that
    there is no memory for the zeros, as it always is above 2^48. *)
Theorem ValidateChallenge_panics_iff_negative {heap : Heap}
    (p : SHA256PoW) (challenge solution : string) :
  - 2 ^ 63 <= difficulty p <= maxInt ->
  (ValidateChallenge p challenge solution = None
   <-> difficulty p < 0 \/ zeros_fit (difficulty p) = false)
  /\ (0 <= difficulty p <= smallSize -> ValidateChallenge p challenge solution <> None)
  /\ (maxAlloc < difficulty p -> ValidateChallenge p challenge solution = None).
Proof.
  intros Hd.
  assert (H : ValidateChallenge p challenge solution = None
              <-> difficulty p < 0 \/ zeros_fit (difficulty p) = false).
  { unfold ValidateChallenge.
    destruct (Z.ltb_spec (difficulty p) 0) as [Hneg|Hpos].
    - unfold Repeat.
      destruct (Z.eqb_spec (difficulty p) 0) as [?|_]; [lia|].
      destruct (Z.eqb_spec (difficulty p) 1) as [?|_]; [lia|].
      destruct (Z.ltb_spec (difficulty p) 0) as [_|?]; [|lia].
      split; [auto|reflexivity].
    - rewrite PowFacts.Repeat_zero by lia.
      destruct (zeros_fit (difficulty p)).
      + split; [discriminate|]. intros [?|?]; [lia|discriminate].
      + split; [auto|reflexivity]. }
  split; [exact H|]. split.
  - intros Hs Hnone. apply H in Hnone. destruct Hnone as [?|Hfit]; [lia|].
    rewrite PowFacts.zeros_fit_small in Hfit by lia. discriminate.
  - intros Hbig. apply H. right. now apply PowFacts.zeros_fit_beyond.
Qed.

Lemma ValidateChallenge_panics_iff_negative_witness :
  - 2 ^ 63 <= difficulty (NewSHA256PoW (-1) Rand.sevens) <= maxInt
  /\ ValidateChallenge (NewSHA256PoW (-1) Rand.sevens) "7" "54822" = None.
Proof.
  assert (H : - 2 ^ 63 <= difficulty (NewSHA256PoW (-1) Rand.sevens) <= maxInt)
    by (vm_compute; split; discriminate).
  split; [exact H|].
  destruct (ValidateChallenge_panics_iff_negative _ "7" "54822" H) as [Hiff _].
  apply Hiff. left. vm_compute. reflexivity.
Defined.

(** X4.  A solution accepted at one difficulty is accepted at every lower
    one, whatever the seeds and the memory of the two engines. *)
Theorem ValidateChallenge_monotone {heap heap' : Heap}
    (d d' : Z) (seeded seeded' : Rand.t) (challenge solution : string) :
  0 <= d' <= d -> d <= maxInt ->
  ValidateChallenge (heap := heap) (NewSHA256PoW d seeded) challenge solution
  = Some true ->
  ValidateChallenge (heap := heap') (NewSHA256PoW d' seeded') challenge solution
  = Some true.
Proof.
  intros Hd' Hd. unfold ValidateChallenge. cbn [difficulty NewSHA256PoW].
  destruct (Repeat (heap := heap) "0" d) as [zeros|] eqn:Hz; [|discriminate].
  apply PowFacts.Repeat_zero_returns in Hz as [_ ->].
  rewrite GoStringsFacts.HasPrefix_zeros.
  intros [= H]. apply Nat.leb_le in H.
  pose proof (leading_zeros_le (Hex.EncodeToString
                (SHA256.Sum256 (bytes (challenge +:+ solution))))) as Hle.
  pose proof (length_digest challenge solution) as H64. unfold digest in H64.
  rewrite H64 in Hle.
  rewrite PowFacts.Repeat_zero_ok by (unfold smallSize; lia).
  rewrite GoStringsFacts.HasPrefix_zeros. f_equal. apply Nat.leb_le. lia.
Qed.

Lemma ValidateChallenge_monotone_witness :
  0 <= 2 <= 4 /\ 4 <= maxInt
  /\ ValidateChallenge (NewSHA256PoW 4 Rand.sevens) "7" "54822" = Some true
  /\ ValidateChallenge (NewSHA256PoW 2 Rand.sevens) "7" "54822" = Some true.
Proof.
  assert (H1 : 0 <= 2 <= 4) by lia.
  assert (H2 : 4 <= maxInt) by (vm_compute; discriminate).
  assert (H3 : ValidateChallenge (NewSHA256PoW 4 Rand.sevens) "7" "54822" = Some true)
    by (vm_compute; reflexivity).
  split; [exact H1|]. split; [exact H2|]. split; [exact H3|].
  exact (ValidateChallenge_monotone 4 2 Rand.sevens Rand.sevens "7" "54822" H1 H2 H3).
Defined.

End EngineFacts.

Module ChallengeFacts.
Import Pow GoStrings Numerals EngineFacts.

Lemma parse_hex_digits (n : nat) : forall (v : Z) (acc : string),
  0 <= v < 16 ^ Z.of_nat n ->
  parse_hex_from 0 (Fmt.hex_digits n v acc) = parse_hex_from v acc.
Proof.
  induction n as [|n IH]; intros v acc Hv.
  - cbn in Hv. assert (v = 0) by lia. subst v. reflexivity.
  - cbn [Fmt.hex_digits].
    assert (Hmod : 0 <= v mod 16 < 16) by (apply Z.mod_pos_bound; lia).
    assert (Hdiv : 0 <= v / 16 < 16 ^ Z.of_nat n).
    { rewrite Nat2Z.inj_succ, Z.pow_succ_r in Hv by lia.
      split; [apply Z.div_pos; lia|apply Z.div_lt_upper_bound; lia]. }
    assert (Hstep : forall a, parse_hex_from a (String (Hex.hextable (v mod 16)) acc)
                              = parse_hex_from (a * 16 + v mod 16) acc).
    { intros a. cbn [parse_hex_from]. now rewrite (hex_value_hextable _ Hmod). }
    destruct (Z.eqb_spec (v / 16) 0) as [Hz|Hnz].
    + rewrite Hstep. f_equal. rewrite (Z.div_mod v 16) at 2 by lia. lia.
    + rewrite (IH _ _ Hdiv), Hstep. f_equal.
      rewrite (Z.div_mod v 16) at 3 by lia. lia.
Qed.

Lemma length_hex_digits (n : nat) : forall (v : Z) (acc : string),
  (String.length acc + (if n is O then 0 else 1)
   <= String.length (Fmt.hex_digits n v acc) <= String.length acc + n)%nat.
Proof.
  induction n as [|n IH]; intros v acc; cbn [Fmt.hex_digits]; [lia|].
  destruct (v / 16 =? 0); [cbn; lia|].
  specialize (IH (v / 16) (String (Hex.hextable (v mod 16)) acc)).
  cbn [String.length] in IH. destruct n; lia.
Qed.

Lemma hextable_nonzero (d : Z) :
  0 < d < 16 -> Hex.hextable d <> "0"%char.
Proof.
  intros H.
  assert (Hd : d = 1 \/ d = 2 \/ d = 3 \/ d = 4 \/ d = 5 \/ d = 6 \/ d = 7
               \/ d = 8 \/ d = 9 \/ d = 10 \/ d = 11 \/ d = 12 \/ d = 13 \/ d = 14
               \/ d = 15) by lia.
  repeat (destruct Hd as [->|Hd]; [discriminate|]). subst d. discriminate.
Qed.

Lemma head_hex_digits (n : nat) : forall (v : Z) (acc : string),
  0 < v < 16 ^ Z.of_nat n ->
  exists a rest, Fmt.hex_digits n v acc = String a rest /\ a <> "0"%char.
Proof.
  induction n as [|n IH]; intros v acc Hv.
  - cbn in Hv. lia.
  - cbn [Fmt.hex_digits].
    assert (Hdiv : 0 <= v / 16 < 16 ^ Z.of_nat n).
    { rewrite Nat2Z.inj_succ, Z.pow_succ_r in Hv by lia.
      split; [apply Z.div_pos; lia|apply Z.div_lt_upper_bound; lia]. }
    destruct (Z.eqb_spec (v / 16) 0) as [Hz|Hnz].
    + eexists _, _. split; [reflexivity|]. apply hextable_nonzero.
      apply Z.div_small_iff in Hz; [|lia].
      rewrite Z.mod_small by lia. lia.
    + apply IH. lia.
Qed.

Lemma Int63_range (r : Rand.t) : 0 <= fst (Rand.Int63 r) < 2 ^ 63.
Proof. cbn. apply Z.mod_pos_bound. lia. Qed.

(** X5.  A challenge is the number [Int63] returned, written in base 16: it
    reads back as that number, has between one and sixteen digits, and
    starts with ['0'] only when it is ["0"].  [GenerateChallenge] leaves
    the difficulty as it is. *)
Theorem GenerateChallenge_encodes (p : SHA256PoW) :
  parse_hex (fst (GenerateChallenge p)) = Some (fst (Rand.Int63 (rng p)))
  /\ (1 <= String.length (fst (GenerateChallenge p)) <= 16)%nat
  /\ (fst (GenerateChallenge p) = "0"
      \/ exists a rest, fst (GenerateChallenge p) = String a rest /\ a <> "0"%char)
  /\ difficulty (snd (GenerateChallenge p)) = difficulty p.
Proof.
  pose proof (Int63_range (rng p)) as Hv.
  unfold GenerateChallenge. destruct (Rand.Int63 (rng p)) as [v r] eqn:Hr.
  cbn [fst snd difficulty] in *. unfold Fmt.Sprintf_x.
  assert (H16 : 0 <= v < 16 ^ Z.of_nat 16) by (change (16 ^ Z.of_nat 16) with (2 ^ 64); lia).
  split; [|split; [|split]].
  - unfold parse_hex. now rewrite (parse_hex_digits 16 v "" H16).
  - pose proof (length_hex_digits 16 v "") as H. cbn [String.length] in H. lia.
  - destruct (Z.eqb_spec v 0) as [->|Hnz]; [left; reflexivity|right].
    apply head_hex_digits. lia.
  - reflexivity.
Qed.

End ChallengeFacts.

(* ================================================================== *)
(** ** The handler, path by path *)
(* ================================================================== *)

Module HandlerPaths.
Import GoStrings GoStringsFacts StringFacts Handler HandlerTrace HandlerFacts.

Local Abbreviation always := (always Handler.observe Handler.valid).
Local Abbreviation runs := (runs Handler.observe Handler.valid).

Lemma validations_reads (reads : list event) :
  Forall is_read reads -> validations reads = O.
Proof.
  induction 1 as [|ev reads Hev _ IH]; [reflexivity|].
  destruct ev; cbn in *; tauto.
Qed.

Lemma challenges_reads (reads : list event) :
  Forall is_read reads -> challenges reads = O.
Proof.
  induction 1 as [|ev reads Hev _ IH]; [reflexivity|].
  destruct ev; cbn in *; tauto.
Qed.

Lemma validations_app (tr tr' : list event) :
  validations (tr ++ tr') = (validations tr + validations tr')%nat.
Proof.
  induction tr as [|ev tr IH]; [reflexivity|].
  destruct ev; cbn; now rewrite ?IH.
Qed.

Lemma challenges_app (tr tr' : list event) :
  challenges (tr ++ tr') = (challenges tr + challenges tr')%nat.
Proof.
  induction tr as [|ev tr IH]; [reflexivity|].
  destruct ev; cbn; now rewrite ?IH.
Qed.

(** X6.  When [ValidateChallenge] accepts a solution - the trimmed
    first line, validated against the challenge generated - the calls
    are the challenge written, the reads, that validation, one
    [GetQuote] and one write of the quote, and nothing else; what is
    returned is the error of that last write, wrapped, or [nil]. *)
Theorem HandleConnection_accepts tr r challenge solution :
  runs HandleConnection tr r ->
  In (EvValidateChallenge challenge solution true) tr ->
  exists n reads line quote n' err,
    tr = EvGenerateChallenge challenge
         :: EvWrite (Protocol.PrefixChallenge +:+ challenge +:+ LF) n None
         :: reads
         ++ [EvValidateChallenge challenge solution true;
             EvGetQuote quote;
             EvWrite (Protocol.PrefixQuote +:+ quote +:+ LF) n' err]
    /\ Forall is_read reads
    /\ first_line (received reads) = Some line
    /\ solution = TrimSpace line
    /\ writes tr = [(Protocol.PrefixChallenge +:+ challenge +:+ LF, None);
                    (Protocol.PrefixQuote +:+ quote +:+ LF, err)]
    /\ quote_calls tr = 1%nat
    /\ r = Returns (send_error "failed to send quote" err)
    /\ (err = None -> r = Returns None).
Proof.
  intros Hrun Hin. apply HandleConnection_exchange in Hrun.
  destruct Hrun as [c n e|c n reads e Hr Hlen Hline
                   |c n reads line n' err Hr Hlen Hline
                   |c n reads line q n' err Hr Hlen Hline];
    cbn in Hin.
  - intuition discriminate.
  - destruct Hin as [H|[H|H]]; try discriminate.
    apply (not_read_in _ _ Hr) in H. contradiction.
  - destruct Hin as [H|[H|H]]; try discriminate.
    apply in_app_or in H. destruct H as [H|H].
    + apply (not_read_in _ _ Hr) in H. contradiction.
    + cbn in H. destruct H as [H|[H|[]]]; discriminate.
  - destruct Hin as [H|[H|H]]; try discriminate.
    apply in_app_or in H. destruct H as [H|H].
    + apply (not_read_in _ _ Hr) in H. contradiction.
    + cbn in H. destruct H as [H|[H|[H|[]]]]; try discriminate.
      injection H as <- <-.
      exists n, reads, line, q, n', err. cbn [writes quote_calls].
      rewrite writes_app, quote_calls_app, (writes_reads _ Hr),
        (quote_calls_reads _ Hr).
      repeat split; auto. intros ->. reflexivity.
Qed.

Ltac inspect H :=
  repeat match type of H with
    | In _ (_ :: _) => destruct H as [H|H]; [try discriminate H|]
    | In _ (_ ++ _) =>
        apply in_app_or in H; destruct H as [H|H];
        [match goal with
         | Hr : Forall is_read _ |- _ => apply (not_read_in _ _ Hr) in H; contradiction
         end|]
    | In _ [] => destruct H
    | In _ ?l =>
        match goal with
        | Hr : Forall is_read l |- _ => apply (not_read_in _ _ Hr) in H; contradiction
        end
    end.

(** X7.  One attempt for each connection: one challenge, generated first; at
    most one validation, and of that challenge; at most one quote, and
    only after the validation accepted; at most two writes. *)
Theorem HandleConnection_one_attempt tr r :
  runs HandleConnection tr r ->
  exists challenge rest,
    tr = EvGenerateChallenge challenge :: rest
    /\ challenges tr = 1%nat
    /\ (validations tr <= 1)%nat
    /\ (forall c s ok, In (EvValidateChallenge c s ok) tr -> c = challenge)
    /\ (quote_calls tr <= validations tr)%nat
    /\ (forall q, In (EvGetQuote q) tr ->
          exists s, In (EvValidateChallenge challenge s true) tr
                    /\ forall c' s', ~ In (EvValidateChallenge c' s' false) tr)
    /\ (List.length (writes tr) <= 2)%nat.
Proof.
  intros Hrun. apply HandleConnection_exchange in Hrun.
  destruct Hrun as [c n e|c n reads e Hr Hlen Hline
                   |c n reads line n' err Hr Hlen Hline
                   |c n reads line q n' err Hr Hlen Hline];
    exists c; eexists; (split; [reflexivity|]);
    cbn [challenges validations quote_calls writes];
    rewrite ?challenges_app, ?validations_app, ?quote_calls_app, ?writes_app,
      ?(challenges_reads _ Hr), ?(validations_reads _ Hr),
      ?(quote_calls_reads _ Hr), ?(writes_reads _ Hr);
    cbn [challenges validations quote_calls writes app List.length Nat.add];
    (split; [lia|]); (split; [lia|]); (split; [|split; [lia|split; [|lia]]]).
  - intros c' s ok H. inspect H.
  - intros q H. inspect H.
  - intros c' s ok H. inspect H.
  - intros q H. inspect H.
  - intros c' s ok H. inspect H. now injection H.
  - intros q H. inspect H.
  - intros c' s ok H. inspect H. now injection H.
  - intros q' _. exists (TrimSpace line). split.
    + right. right. apply in_or_app. right. left. reflexivity.
    + intros c' s' H. inspect H.
Qed.


(** X8.  The first write fails: nothing is read, validated or fetched, and
    the error returned names both steps and the cause. *)
Theorem HandleConnection_send_failure tr r b e rest :
  runs HandleConnection tr r ->
  writes tr = (b, Some e) :: rest ->
  exists challenge n x,
    tr = [EvGenerateChallenge challenge; EvWrite b n (Some e)]
    /\ b = Protocol.PrefixChallenge +:+ challenge +:+ LF
    /\ rest = []
    /\ r = Returns (Some x)
    /\ Error x = "failed to send challenge: failed to send message: " +:+ Error e.
Proof.
  intros Hrun Hw. apply HandleConnection_exchange in Hrun.
  destruct Hrun as [c n e'|c n reads e' Hr Hlen Hline
                   |c n reads line n' err Hr Hlen Hline
                   |c n reads line q n' err Hr Hlen Hline];
    cbn [writes] in Hw; try discriminate Hw.
  injection Hw as <- <- <-.
  exists c, n. eexists. repeat split.
Qed.

(** X9.  [HandleConnection] returns [nil] exactly when it wrote two lines
    and both writes succeeded - the second being the quote or the
    rejection alike. *)
Theorem HandleConnection_nil tr r :
  runs HandleConnection tr r ->
  r = Returns None <-> exists b1 b2, writes tr = [(b1, None); (b2, None)].
Proof.
  intros Hrun. apply HandleConnection_exchange in Hrun.
  destruct Hrun as [c n e'|c n reads e' Hr Hlen Hline
                   |c n reads line n' err Hr Hlen Hline
                   |c n reads line q n' err Hr Hlen Hline];
    cbn [writes]; rewrite ?writes_app, ?(writes_reads _ Hr); cbn [writes app].
  - split; [discriminate|]. intros (b1 & b2 & H). discriminate.
  - split; [discriminate|]. intros (b1 & b2 & H). discriminate.
  - destruct err as [x|]; cbn.
    + split; [discriminate|]. intros (b1 & b2 & H). discriminate.
    + split; [eauto|reflexivity].
  - destruct err as [x|]; cbn.
    + split; [discriminate|]. intros (b1 & b2 & H). discriminate.
    + split; [eauto|reflexivity].
Qed.

Lemma budgeted_app (tr tr' : list event) : forall n,
  budgeted n tr -> budgeted (n - len (received tr)) tr' -> budgeted n (tr ++ tr').
Proof.
  induction tr as [|ev tr IH]; intros n H H'.
  - cbn in *. change (len "") with 0 in H'. now rewrite Z.sub_0_r in H'.
  - destruct ev; cbn [budgeted received app] in *; try (apply IH; assumption).
    destruct H as (-> & Hpos & H). repeat split; [exact Hpos|].
    apply IH; [exact H|]. rewrite len_append in H'.
    now replace (n - len data - len (received tr))
      with (n - (len data + len (received tr))) by lia.
Qed.

Lemma fill_from_budget (i : nat) : forall b : Reader,
  0 <= N b -> len (buf b) + N b <= maxReadSize ->
  always (fill_from i b) (fun tr _ => budgeted (N b) tr).
Proof.
  induction i as [|i IH]; intros b HN Hsize; [exact I|].
  cbn [fill_from]. unfold LimitedReader_Read.
  destruct (Z.leb_spec (N b) 0) as [Hle|Hgt]; [exact I|].
  pose proof (len_nonneg (buf b)) as Hbuf.
  destruct (Z.ltb_spec (N b) (defaultBufSize - len (buf b))) as [_|Hbig];
    [|unfold defaultBufSize, maxReadSize in *; lia].
  cbn. intros [data e] [Hlen He]. cbn in Hlen.
  pose proof (len_nonneg data) as Hdata.
  destruct e as [e|]; [cbn; auto|].
  cbn. destruct (Z.ltb_spec 0 (len data)) as [Hpos|Hzero]; [cbn; auto|].
  eapply always_mono; [|apply IH; cbn; rewrite ?len_append; lia].
  cbn. intros tr _ H. auto.
Qed.

Lemma ReadSlice_from_budget (fuel : nat) :
  forall (s : nat) (b : Reader),
    0 <= N b ->
    len (buf b) + N b <= maxReadSize ->
    err b <> Some ErrBufferFull ->
    always (ReadSlice_from fuel s "010" b) (fun tr _ => budgeted (N b) tr).
Proof.
  induction fuel as [|fuel IH]; intros s b HN Hsize Herr; [exact I|].
  cbn [ReadSlice_from].
  destruct (IndexByte (slice (buf b) s (String.length (buf b))) "010"); [exact I|].
  destruct (err b) as [e|] eqn:He; [exact I|].
  pose proof (len_nonneg (buf b)) as Hlen.
  destruct (Z.leb_spec defaultBufSize (len (buf b))) as [Hfull|_]; [exact I|].
  apply always_bind.
  eapply always_mono;
    [|apply always_and;
      [apply (fill_from_spec maxConsecutiveEmptyReads b HN He)
      |apply (fill_from_budget maxConsecutiveEmptyReads b HN Hsize)]].
  cbn beta. intros tr b' [(Hr & Hb & Hn & Hn0 & Hprog & Hne) Hbud].
  eapply always_mono; [|apply (IH (String.length (buf b)) b')].
  - cbn beta. intros tr' _ H. apply budgeted_app; [exact Hbud|]. now rewrite <- Hn.
  - exact Hn0.
  - rewrite Hb, len_append. lia.
  - exact Hne.
Qed.

Lemma readClientResponse_budget :
  always readClientResponse (fun tr _ => budgeted maxReadSize tr).
Proof.
  unfold readClientResponse. apply always_bind.
  unfold ReadString, fuel_for.
  replace (Z.to_nat (N (NewReader maxReadSize)) + 2)%nat
    with (S (S (Z.to_nat (N (NewReader maxReadSize))))) by lia.
  cbn [ReadString_from]. apply always_bind.
  eapply always_mono;
    [|apply always_and;
      [apply (ReadSlice_from_spec _ O (NewReader maxReadSize))
      |apply (ReadSlice_from_budget _ O (NewReader maxReadSize))]].
  - cbn beta. intros tr res [(Hr & Hlen & line & e & b' & -> & Hline) Hbud].
    cbn [NewReader N] in Hbud.
    assert (Hend : forall x : option (string * option error),
              always (Ret x) (fun tr' a =>
                always (match a with
                        | Some (_, Some e0) => Ret (Some ("", Some e0))
                        | Some (solution, None) => Ret (Some (TrimSpace solution, None))
                        | None => Ret None
                        end)
                  (fun tr'0 _ => budgeted maxReadSize ((tr ++ tr') ++ tr'0)))).
    { intros [[sol [e0|]]|]; cbn; now rewrite !app_nil_r. }
    destruct e as [x|]; [|apply Hend].
    destruct Hline as [_ Hx]. destruct x; try apply Hend. congruence.
  - cbn. unfold maxReadSize. lia.
  - cbn. unfold len, maxReadSize. cbn. lia.
  - cbn. lia.
  - reflexivity.
  - cbn. discriminate.
  - unfold fuel_for. cbn [NewReader err N]. lia.
  - cbn. unfold maxReadSize. lia.
  - cbn. unfold len, maxReadSize. cbn. lia.
  - cbn. discriminate.
Qed.

Lemma budgeted_no_reads (n : Z) (tr : list event) :
  Forall (fun ev => ~ is_read ev) tr -> budgeted n tr.
Proof.
  induction 1 as [|ev tr Hev _ IH]; [exact I|].
  destruct ev; cbn in *; auto. tauto.
Qed.

(** X10.  Every [Read] of [HandleConnection] asks for exactly what is left of
    the 1024 bytes - [io.LimitedReader] cuts the 4096 bytes of the
    buffer down to it - and never for an empty slice. *)
Theorem HandleConnection_read_sizes tr r :
  runs HandleConnection tr r -> budgeted 1024 tr.
Proof.
  intros Hrun.
  apply (always_runs Handler.observe Handler.valid HandleConnection
           (fun tr _ => budgeted 1024 tr) tr r); [clear Hrun|exact Hrun].
  unfold HandleConnection. cbn. intros challenge _ [n e] _.
  destruct e as [e|]; cbn; [exact I|].
  apply always_bind.
  eapply always_mono; [|apply always_and;
                        [apply readClientResponse_spec|apply readClientResponse_budget]].
  cbn beta. intros reads res [(Hr & Hlen & Hres) Hbud].
  assert (Htail : forall tail,
            Forall (fun ev => ~ is_read ev) tail -> budgeted 1024 (reads ++ tail)).
  { intros tail Htail. apply budgeted_app; [exact Hbud|].
    now apply budgeted_no_reads. }
  destruct (first_line (received reads)) as [line|].
  - subst res. cbn. intros [|] _; cbn.
    + intros quote _ [n' e'] _.
      destruct e'; cbn; apply Htail; repeat constructor; auto.
    + intros [n' e'] _.
      destruct e'; cbn; apply Htail; repeat constructor; auto.
  - destruct Hres as (e & ->). cbn. apply Htail. constructor.
Qed.


(** A peer whose solution arrives in two pieces. *)
Lemma HandleConnection_accepts_witness :
  let w := Wiring.main_world [(" 548", None); ("22 " +:+ LF +:+ "rest", None)] [] in
  let tr := fst (fst (Wiring.serve w)) in
  let r := snd (fst (Wiring.serve w)) in
  runs HandleConnection tr r
  /\ In (EvValidateChallenge "7" "54822" true) tr
  /\ exists n reads line quote n' err,
      tr = EvGenerateChallenge "7"
           :: EvWrite (Protocol.PrefixChallenge +:+ "7" +:+ LF) n None
           :: reads
           ++ [EvValidateChallenge "7" "54822" true;
               EvGetQuote quote;
               EvWrite (Protocol.PrefixQuote +:+ quote +:+ LF) n' err]
      /\ Forall is_read reads
      /\ first_line (received reads) = Some line
      /\ "54822" = TrimSpace line
      /\ writes tr = [(Protocol.PrefixChallenge +:+ "7" +:+ LF, None);
                      (Protocol.PrefixQuote +:+ quote +:+ LF, err)]
      /\ quote_calls tr = 1%nat
      /\ r = Returns (send_error "failed to send quote" err)
      /\ (err = None -> r = Returns None).
Proof.
  intros w tr r.
  assert (Hrun : runs HandleConnection tr r) by apply serve_runs.
  assert (Hin : In (EvValidateChallenge "7" "54822" true) tr)
    by (vm_compute; tauto).
  split; [exact Hrun|]. split; [exact Hin|].
  exact (HandleConnection_accepts tr r "7" "54822" Hrun Hin).
Defined.

Lemma HandleConnection_one_attempt_witness :
  let w := Wiring.main_world [(" 548", None); ("22 " +:+ LF +:+ "rest", None)] [] in
  let tr := fst (fst (Wiring.serve w)) in
  let r := snd (fst (Wiring.serve w)) in
  runs HandleConnection tr r
  /\ exists challenge rest,
      tr = EvGenerateChallenge challenge :: rest
      /\ challenges tr = 1%nat
      /\ (validations tr <= 1)%nat
      /\ (forall c s ok, In (EvValidateChallenge c s ok) tr -> c = challenge)
      /\ (quote_calls tr <= validations tr)%nat
      /\ (forall q, In (EvGetQuote q) tr ->
            exists s, In (EvValidateChallenge challenge s true) tr
                      /\ forall c' s', ~ In (EvValidateChallenge c' s' false) tr)
      /\ (List.length (writes tr) <= 2)%nat.
Proof.
  intros w tr r.
  assert (Hrun : runs HandleConnection tr r) by apply serve_runs.
  split; [exact Hrun|].
  exact (HandleConnection_one_attempt tr r Hrun).
Defined.

(** The peer has gone before the challenge is written. *)
Lemma HandleConnection_send_failure_witness :
  let w := Wiring.main_world [] [Some (NetError "broken pipe")] in
  let tr := fst (fst (Wiring.serve w)) in
  let r := snd (fst (Wiring.serve w)) in
  runs HandleConnection tr r
  /\ writes tr = [("CHALLENGE:7" +:+ LF, Some (NetError "broken pipe"))]
  /\ exists challenge n x,
      tr = [EvGenerateChallenge challenge;
            EvWrite ("CHALLENGE:7" +:+ LF) n (Some (NetError "broken pipe"))]
      /\ "CHALLENGE:7" +:+ LF = Protocol.PrefixChallenge +:+ challenge +:+ LF
      /\ @nil (string * option error) = []
      /\ r = Returns (Some x)
      /\ Error x = "failed to send challenge: failed to send message: "
                   +:+ Error (NetError "broken pipe").
Proof.
  intros w tr r.
  assert (Hrun : runs HandleConnection tr r) by apply serve_runs.
  assert (Hw : writes tr = [("CHALLENGE:7" +:+ LF, Some (NetError "broken pipe"))])
    by (vm_compute; reflexivity).
  split; [exact Hrun|]. split; [exact Hw|].
  exact (HandleConnection_send_failure tr r _ _ _ Hrun Hw).
Defined.

(** A rejected solution is no error. *)
Lemma HandleConnection_nil_witness :
  let w := Wiring.main_world [(LF, None)] [] in
  let tr := fst (fst (Wiring.serve w)) in
  let r := snd (fst (Wiring.serve w)) in
  runs HandleConnection tr r
  /\ In (EvValidateChallenge "7" "" false) tr
  /\ (r = Returns None <-> exists b1 b2, writes tr = [(b1, None); (b2, None)]).
Proof.
  intros w tr r.
  assert (Hrun : runs HandleConnection tr r) by apply serve_runs.
  split; [exact Hrun|]. split; [vm_compute; tauto|].
  exact (HandleConnection_nil tr r Hrun).
Defined.

Lemma HandleConnection_read_sizes_witness :
  let w := Wiring.main_world [(" 548", None); ("22 " +:+ LF +:+ "rest", None)] [] in
  let tr := fst (fst (Wiring.serve w)) in
  let r := snd (fst (Wiring.serve w)) in
  runs HandleConnection tr r
  /\ In (EvRead 1020 ("22 " +:+ LF +:+ "rest") None) tr
  /\ budgeted 1024 tr.
Proof.
  intros w tr r.
  assert (Hrun : runs HandleConnection tr r) by apply serve_runs.
  split; [exact Hrun|]. split; [vm_compute; tauto|].
  exact (HandleConnection_read_sizes tr r Hrun).
Defined.

(** [budgeted] tells traces apart. *)
Example budgeted_samples :
  budgeted 1024 [EvRead 1024 "abc" None; EvRead 1021 "d" None]
  /\ ~ budgeted 1024 [EvRead 1024 "abc" None; EvRead 1024 "d" None]
  /\ ~ budgeted 1024 [EvRead 4096 "abc" None].
Proof.
  repeat split; try (vm_compute; congruence).
  - intros (_ & _ & H & _). vm_compute in H. discriminate H.
  - intros (H & _). discriminate H.
Qed.

End HandlerPaths.

(* ================================================================== *)
(** ** [strings.TrimSpace] on a line *)
(* ================================================================== *)

Module EdgesFacts.
Import GoStrings GoStringsFacts StringFacts Edges.

Lemma get_append_l (s t : string) (i : nat) :
  (i < String.length s)%nat -> get i (s +:+ t) = get i s.
Proof.
  revert i. induction s as [|a s IH]; intros i Hi; cbn in Hi; [lia|].
  rewrite append_cons. destruct i as [|i]; cbn; [reflexivity|]. apply IH. lia.
Qed.

Lemma get_append_r (s t : string) (i : nat) :
  get (String.length s + i) (s +:+ t) = get i t.
Proof.
  induction s as [|a s IH]; [now rewrite append_nil_l|].
  rewrite append_cons. cbn. exact IH.
Qed.

Lemma byte_at_append_l (s t : string) (i : nat) :
  (i < String.length s)%nat -> byte_at (s +:+ t) i = byte_at s i.
Proof. intros H. unfold byte_at. now rewrite get_append_l. Qed.

Lemma byte_at_append_r (s t : string) (i : nat) :
  byte_at (s +:+ t) (String.length s + i) = byte_at t i.
Proof. unfold byte_at. now rewrite get_append_r. Qed.

Lemma blanks_get (s : string) (i : nat) (a : ascii) :
  blanks s = true -> get i s = Some a -> blank a = true.
Proof.
  revert i. induction s as [|b s IH]; intros i Hs Hi; cbn in *; [discriminate|].
  apply andb_prop in Hs as [Hb Hs]. destruct i as [|i].
  - now injection Hi as <-.
  - eauto.
Qed.

Lemma get_Some (s : string) (i : nat) :
  (i < String.length s)%nat -> exists a, get i s = Some a.
Proof.
  revert i. induction s as [|b s IH]; intros i Hi; cbn in *; [lia|].
  destruct i as [|i]; [eauto|]. apply IH. lia.
Qed.

Lemma blank_not_solid (c : Z) :
  asciiSpace c = true -> (RuneSelf <=? c) = false.
Proof.
  unfold asciiSpace, RuneSelf. intros H. apply Z.leb_gt.
  repeat (apply orb_prop in H; destruct H as [H|H]); apply Z.eqb_eq in H; lia.
Qed.

(** The first loop of [TrimSpace] runs over the blanks and stops. *)
Lemma scan_start_stops (fuel : nat) (s : string) : forall i j : nat,
  (i <= j <= String.length s)%nat ->
  (String.length s - i <= fuel)%nat ->
  (forall k, (i <= k < j)%nat -> asciiSpace (byte_at s k) = true) ->
  (j = String.length s
   \/ ((RuneSelf <=? byte_at s j) = false /\ asciiSpace (byte_at s j) = false)) ->
  scan_start fuel s i = Stop j.
Proof.
  induction fuel as [|fuel IH]; intros i j Hij Hfuel Hsp Hend; cbn [scan_start].
  - f_equal. lia.
  - destruct (Nat.leb_spec (String.length s) i) as [Hle|Hlt]; [f_equal; lia|].
    destruct (Nat.eq_dec i j) as [->|Hne].
    + destruct Hend as [Hend|[H1 H2]]; [lia|]. now rewrite H1, H2.
    + assert (Hi : asciiSpace (byte_at s i) = true) by (apply Hsp; lia).
      rewrite (blank_not_solid _ Hi), Hi.
      apply IH; auto; try lia. intros k Hk. apply Hsp. lia.
Qed.

(** The second loop runs back over the blanks and stops. *)
Lemma scan_stop_stops (fuel : nat) (s : string) (start : nat) : forall stop j : nat,
  (start <= j <= stop)%nat ->
  (stop - start <= fuel)%nat ->
  (forall k, (j <= k < stop)%nat -> asciiSpace (byte_at s k) = true) ->
  (j = start
   \/ ((RuneSelf <=? byte_at s (j - 1)) = false
       /\ asciiSpace (byte_at s (j - 1)) = false)) ->
  scan_stop fuel s start stop = Stop j.
Proof.
  induction fuel as [|fuel IH]; intros stop j Hj Hfuel Hsp Hend; cbn [scan_stop].
  - f_equal. lia.
  - destruct (Nat.leb_spec stop start) as [Hle|Hlt]; [f_equal; lia|].
    destruct (Nat.eq_dec stop j) as [->|Hne].
    + destruct Hend as [Hend|[H1 H2]]; [lia|]. now rewrite H1, H2.
    + assert (Hi : asciiSpace (byte_at s (stop - 1)) = true) by (apply Hsp; lia).
      rewrite (blank_not_solid _ Hi), Hi.
      apply IH; auto; try lia. intros k Hk. apply Hsp. lia.
Qed.

Lemma blanks_byte_at (s : string) (i : nat) :
  blanks s = true -> (i < String.length s)%nat -> asciiSpace (byte_at s i) = true.
Proof.
  intros Hs Hi. destruct (get_Some s i Hi) as [a Ha].
  unfold byte_at. rewrite Ha. exact (blanks_get s i a Hs Ha).
Qed.

Lemma substring_middle (s t u : string) :
  substring (String.length s) (String.length t) (s +:+ t +:+ u) = t.
Proof.
  induction s as [|a s IH]; cbn [String.length substring].
  - rewrite append_nil_l. revert u. induction t as [|b t IHt]; intros u.
    + cbn. now destruct (_ +:+ _).
    + rewrite append_cons. cbn. now rewrite IHt.
  - rewrite append_cons. exact IH.
Qed.

Lemma substring_nothing (s : string) (i : nat) : substring i 0 s = "".
Proof. revert i. induction s as [|a s IH]; intros [|i]; cbn; auto. Qed.

Lemma blank_ends (lead body trail : string) :
  blanks lead = true -> blanks trail = true ->
  String.length (lead +:+ body +:+ trail)
  = (String.length lead + String.length body + String.length trail)%nat
  /\ (forall k, (k < String.length lead)%nat ->
        asciiSpace (byte_at (lead +:+ body +:+ trail) k) = true)
  /\ (forall k, (String.length lead + String.length body <= k
                 < String.length (lead +:+ body +:+ trail))%nat ->
        asciiSpace (byte_at (lead +:+ body +:+ trail) k) = true).
Proof.
  intros Hlead Htrail.
  assert (Hlen : String.length (lead +:+ body +:+ trail)
                 = (String.length lead + String.length body + String.length trail)%nat)
    by (rewrite !length_append; lia).
  split; [exact Hlen|]. split.
  - intros k Hk. rewrite byte_at_append_l by exact Hk. now apply blanks_byte_at.
  - intros k Hk.
    replace k with (String.length lead
                    + (String.length body + (k - String.length lead - String.length body)))%nat
      by lia.
    rewrite byte_at_append_r, byte_at_append_r. apply blanks_byte_at; [exact Htrail|lia].
Qed.

(** [TrimSpace] takes the blanks from both ends of a string whose
    middle starts and ends with solid bytes, whatever lies between
    them, and leaves the middle. *)
Lemma TrimSpace_blank_ends (lead body trail : string) :
  blanks lead = true -> blanks trail = true -> solid_ends body = true ->
  TrimSpace (lead +:+ body +:+ trail) = body.
Proof.
  intros Hlead Htrail Hbody.
  destruct (blank_ends lead body trail Hlead Htrail) as (Hlen & Hl & Ht).
  unfold TrimSpace. destruct body as [|a body'].
  - (* nothing but blanks *)
    cbn [String.length] in *.
    rewrite (scan_start_stops _ _ O (String.length (lead +:+ "" +:+ trail)));
      auto; try lia.
    + rewrite (scan_stop_stops _ _ _ _ (String.length (lead +:+ "" +:+ trail)));
        auto; try lia.
      unfold slice. rewrite Nat.sub_diag. apply substring_nothing.
    + intros k Hk. destruct (Nat.lt_ge_cases k (String.length lead)); [auto|].
      apply Ht. lia.
  - remember (String a body') as body eqn:Hb.
    assert (Hpos : (0 < String.length body)%nat) by (rewrite Hb; cbn; lia).
    assert (Ha : solid a = true /\ exists z, get (String.length body - 1) body = Some z
                                             /\ solid z = true).
    { rewrite Hb in Hbody. cbn [solid_ends] in Hbody. rewrite <- Hb in Hbody.
      apply andb_prop in Hbody as [Ha Hz]. split; [exact Ha|].
      destruct (get (String.length body - 1) body) as [z|]; [eauto|discriminate]. }
    destruct Ha as (Ha & z & Hlast & Hz).
    assert (Hfirst : byte_at (lead +:+ body +:+ trail) (String.length lead) = code a).
    { pose proof (byte_at_append_r lead (body +:+ trail) 0) as H0.
      rewrite Nat.add_0_r in H0. rewrite H0, byte_at_append_l by exact Hpos.
      rewrite Hb. reflexivity. }
    assert (Hlastb : byte_at (lead +:+ body +:+ trail)
                       (String.length lead + String.length body - 1) = code z).
    { replace (String.length lead + String.length body - 1)%nat
        with (String.length lead + (String.length body - 1))%nat by lia.
      rewrite byte_at_append_r, byte_at_append_l by lia.
      unfold byte_at. now rewrite Hlast. }
    unfold solid in Ha, Hz.
    apply andb_prop in Ha as [Ha1 Ha2]. apply andb_prop in Hz as [Hz1 Hz2].
    apply negb_true_iff in Ha2, Hz2.
    apply Z.ltb_lt in Ha1, Hz1.
    rewrite (scan_start_stops _ _ O (String.length lead)); auto; try lia.
    + rewrite (scan_stop_stops _ _ _ _ (String.length lead + String.length body));
        auto; try lia.
      * unfold slice.
        replace (String.length lead + String.length body - String.length lead)%nat
          with (String.length body) by lia.
        apply substring_middle.
      * right. rewrite Hlastb. split; [apply Z.leb_gt; lia|exact Hz2].
    + intros k Hk. apply Hl. lia.
    + right. rewrite Hfirst. split; [apply Z.leb_gt; lia|exact Ha2].
Qed.

End EdgesFacts.

Module TrimFacts.
Import GoStrings GoStringsFacts StringFacts Edges EdgesFacts Handler HandlerFacts.

Local Abbreviation runs := (runs Handler.observe Handler.valid).

Lemma received_no_reads (tr : list event) :
  Forall (fun ev => ~ is_read ev) tr -> received tr = "".
Proof.
  induction 1 as [|ev tr Hev _ IH]; [reflexivity|].
  destruct ev; cbn in *; auto. tauto.
Qed.

(** X11.  Blanks around the solution are dropped, blanks inside it are kept:
    when the first line received is a run of ASCII blanks, a body that
    starts and ends with another ASCII byte, and blanks up to the line
    feed, the solution validated is the body. *)
Theorem HandleConnection_ignores_blanks tr r (lead body trail : string) :
  runs HandleConnection tr r ->
  blanks lead = true -> blanks trail = true -> solid_ends body = true ->
  first_line (received tr) = Some (lead +:+ body +:+ trail) ->
  exists challenge ok,
    In (EvValidateChallenge challenge body ok) tr
    /\ forall c s ok', In (EvValidateChallenge c s ok') tr -> s = body.
Proof.
  intros Hrun Hlead Htrail Hbody Hline. apply HandleConnection_exchange in Hrun.
  destruct Hrun as [c n e|c n reads e Hr Hlen Hnone
                   |c n reads line n' err Hr Hlen Hsome
                   |c n reads line q n' err Hr Hlen Hsome];
    cbn [received] in Hline.
  - discriminate Hline.
  - congruence.
  - rewrite received_app in Hline. cbn [received] in Hline.
    rewrite append_nil_r in Hline. rewrite Hsome in Hline. injection Hline as ->.
    rewrite (TrimSpace_blank_ends _ _ _ Hlead Htrail Hbody).
    exists c, false. split.
    + right. right. apply in_or_app. right. left. reflexivity.
    + intros c' s ok' H. HandlerPaths.inspect H. now injection H.
  - rewrite received_app in Hline. cbn [received] in Hline.
    rewrite append_nil_r in Hline. rewrite Hsome in Hline. injection Hline as ->.
    rewrite (TrimSpace_blank_ends _ _ _ Hlead Htrail Hbody).
    exists c, true. split.
    + right. right. apply in_or_app. right. left. reflexivity.
    + intros c' s ok' H. HandlerPaths.inspect H. now injection H.
Qed.

Lemma HandleConnection_ignores_blanks_witness :
  let w := Wiring.main_world
             [(" 54", None); ("8 22" +:+ str [9; 13; 10]%nat +:+ "rest", None)] [] in
  let tr := fst (fst (Wiring.serve w)) in
  let r := snd (fst (Wiring.serve w)) in
  runs HandleConnection tr r
  /\ first_line (received tr) = Some (" " +:+ "548 22" +:+ str [9; 13; 10]%nat)
  /\ exists challenge ok,
      In (EvValidateChallenge challenge "548 22" ok) tr
      /\ forall c s ok', In (EvValidateChallenge c s ok') tr -> s = "548 22".
Proof.
  intros w tr r.
  assert (Hrun : runs HandleConnection tr r) by apply serve_runs.
  assert (Hline : first_line (received tr)
                  = Some (" " +:+ "548 22" +:+ str [9; 13; 10]%nat))
    by (vm_compute; reflexivity).
  split; [exact Hrun|]. split; [exact Hline|].
  exact (HandleConnection_ignores_blanks tr r " " "548 22" (str [9; 13; 10]%nat)
           Hrun eq_refl eq_refl eq_refl Hline).
Defined.

End TrimFacts.

(* ================================================================== *)
(** ** The solvers of the client and of the tests *)
(* ================================================================== *)

Module SolverFacts.
Import GoStrings GoStringsFacts StringFacts Numerals Edges EdgesFacts Decimal Pow EngineFacts.

Lemma solid_hextable (d : Z) : 0 <= d < 16 -> solid (Hex.hextable d) = true.
Proof.
  intros H.
  assert (Hd : d = 0 \/ d = 1 \/ d = 2 \/ d = 3 \/ d = 4 \/ d = 5 \/ d = 6 \/ d = 7
               \/ d = 8 \/ d = 9 \/ d = 10 \/ d = 11 \/ d = 12 \/ d = 13 \/ d = 14
               \/ d = 15) by lia.
  repeat (destruct Hd as [->|Hd]; [reflexivity|]). subst d. reflexivity.
Qed.

Lemma solids_hex_digits (n : nat) : forall (v : Z) (acc : string),
  solids acc = true -> solids (Fmt.hex_digits n v acc) = true.
Proof.
  induction n as [|n IH]; intros v acc Hacc; cbn [Fmt.hex_digits]; [exact Hacc|].
  assert (Hd : solids (String (Hex.hextable (v mod 16)) acc) = true).
  { cbn [solids]. rewrite Hacc, solid_hextable; [reflexivity|].
    apply Z.mod_pos_bound. lia. }
  destruct (v / 16 =? 0); [exact Hd|]. now apply IH.
Qed.

Lemma solids_dec_digits (n : nat) : forall (v : Z) (acc : string),
  solids acc = true -> solids (dec_digits n v acc) = true.
Proof.
  induction n as [|n IH]; intros v acc Hacc; cbn [dec_digits]; [exact Hacc|].
  assert (Hd : solids (String (Hex.hextable (v mod 10)) acc) = true).
  { cbn [solids]. rewrite Hacc, solid_hextable; [reflexivity|].
    pose proof (Z.mod_pos_bound v 10). lia. }
  destruct (v / 10 =? 0); [exact Hd|]. now apply IH.
Qed.

Lemma dec_digits_nonempty (n : nat) (v : Z) (acc : string) :
  dec_digits (S n) v acc <> "".
Proof.
  revert v acc. induction n as [|n IH]; intros v acc; cbn [dec_digits].
  - destruct (v / 10 =? 0); discriminate.
  - destruct (v / 10 =? 0); [discriminate|]. apply IH.
Qed.

Lemma hex_digits_nonempty (n : nat) (v : Z) (acc : string) :
  Fmt.hex_digits (S n) v acc <> "".
Proof.
  revert v acc. induction n as [|n IH]; intros v acc; cbn [Fmt.hex_digits].
  - destruct (v / 16 =? 0); discriminate.
  - destruct (v / 16 =? 0); [discriminate|]. apply IH.
Qed.

Lemma solids_Sprintf_x (v : Z) : solids (Fmt.Sprintf_x v) = true /\ Fmt.Sprintf_x v <> "".
Proof. split; [now apply solids_hex_digits|apply hex_digits_nonempty]. Qed.

Lemma solids_Sprintf_d (v : Z) : solids (Sprintf_d v) = true /\ Sprintf_d v <> "".
Proof.
  unfold Sprintf_d. destruct (v <? 0).
  - split; [|discriminate]. rewrite append_cons, append_nil_l. cbn [solids].
    now rewrite solids_dec_digits.
  - split; [now apply solids_dec_digits|apply dec_digits_nonempty].
Qed.

Lemma solids_get (s : string) (i : nat) (a : ascii) :
  solids s = true -> get i s = Some a -> solid a = true.
Proof.
  revert i. induction s as [|b s IH]; intros i Hs Hi; cbn in *; [discriminate|].
  apply andb_prop in Hs as [Hb Hs]. destruct i as [|i].
  - now injection Hi as <-.
  - eauto.
Qed.

Lemma solids_solid_ends (s : string) : solids s = true -> solid_ends s = true.
Proof.
  intros Hs. destruct s as [|a s'] eqn:Hb; [reflexivity|]. rewrite <- Hb in *.
  assert (Hlen : (String.length s - 1 < String.length s)%nat) by (rewrite Hb; cbn; lia).
  destruct (get_Some s _ Hlen) as [z Hz].
  assert (Ha : solid a = true) by (apply (solids_get s 0 a Hs); now rewrite Hb).
  rewrite Hb at 1. cbn [solid_ends]. rewrite <- Hb. rewrite Ha, Hz.
  exact (solids_get s _ z Hs Hz).
Qed.

Lemma solids_no_line_feed (s : string) : solids s = true -> IndexByte s "010" = None.
Proof.
  induction s as [|a s IH]; [reflexivity|]. cbn [solids IndexByte].
  intros H. apply andb_prop in H as [Ha Hs]. rewrite (IH Hs).
  destruct (Ascii.eqb_spec a "010") as [->|_]; [discriminate Ha|reflexivity].
Qed.

(** The test of the loops, and [ValidateChallenge]. *)
Lemma validates_prefix {heap : Heap}
    (d : Z) (seeded : Rand.t) (challenge solution : string) :
  0 <= d <= smallSize ->
  ValidateChallenge (NewSHA256PoW d seeded) challenge solution
  = Some (HasPrefix (Hex.EncodeToString
                       (SHA256.Sum256 (bytes (challenge +:+ solution))))
            (repeat_nat "0" (Z.to_nat d))).
Proof.
  intros Hd. unfold ValidateChallenge. cbn [difficulty NewSHA256PoW].
  now rewrite PowFacts.Repeat_zero_ok.
Qed.

(** A digest that starts with [d] zeros: [d] is at most 64. *)
Lemma prefix_within_digest (d : Z) (challenge solution : string) :
  0 <= d ->
  HasPrefix (Hex.EncodeToString (SHA256.Sum256 (bytes (challenge +:+ solution))))
    (repeat_nat "0" (Z.to_nat d)) = true ->
  d <= 64.
Proof.
  intros Hd H. rewrite HasPrefix_zeros in H. apply Nat.leb_le in H.
  pose proof (leading_zeros_le (Hex.EncodeToString
                (SHA256.Sum256 (bytes (challenge +:+ solution))))) as Hle.
  pose proof (length_digest challenge solution) as H64. unfold digest in H64.
  rewrite H64 in Hle. lia.
Qed.

(** The search returns the first nonce, counted from [start], whose
    digest has the prefix. *)
Lemma search_least (fuel : nat) (prefix challenge : string) :
  forall start nonce : Z,
    0 <= start <= nonce -> nonce < start + Z.of_nat fuel -> nonce <= maxInt ->
    HasPrefix (Hex.EncodeToString
                 (SHA256.Sum256 (bytes (challenge +:+ Sprintf_d nonce)))) prefix = true ->
    exists m, start <= m <= nonce
      /\ PowTest.search fuel prefix challenge start = Some (Sprintf_d m)
      /\ HasPrefix (Hex.EncodeToString
                      (SHA256.Sum256 (bytes (challenge +:+ Sprintf_d m)))) prefix = true
      /\ forall k, start <= k < m ->
           HasPrefix (Hex.EncodeToString
                        (SHA256.Sum256 (bytes (challenge +:+ Sprintf_d k)))) prefix = false.
Proof.
  induction fuel as [|fuel IH]; intros start nonce Hs Hfuel Hmax Hok; [lia|].
  cbn [PowTest.search].
  destruct (HasPrefix (Hex.EncodeToString
                         (SHA256.Sum256 (bytes (challenge +:+ Sprintf_d start))))
              prefix) eqn:Hhere.
  - exists start. split; [lia|]. split; [reflexivity|]. split; [exact Hhere|].
    intros k Hk. lia.
  - assert (Hne : start <> nonce) by (intros ->; congruence).
    assert (Hincr : incr start = start + 1).
    { unfold incr. destruct (Z.eqb_spec start maxInt); [lia|reflexivity]. }
    rewrite Hincr.
    destruct (IH (start + 1) nonce) as (m & Hm & Hrun & Hgood & Hleast); auto; try lia.
    exists m. split; [lia|]. split; [exact Hrun|]. split; [exact Hgood|].
    intros k Hk. destruct (Z.eq_dec k start) as [->|Hk']; [exact Hhere|].
    apply Hleast. lia.
Qed.

Lemma Client_search {heap : Heap} (fuel : nat) (challenge : string) : forall start,
  Client.solvePoW_from fuel challenge start
  = PowTest.search fuel "0000" challenge start.
Proof.
  induction fuel as [|fuel IH]; intros start; [reflexivity|].
  cbn [Client.solvePoW_from PowTest.search].
  rewrite (PowFacts.Repeat_zero_ok Client.difficulty)
    by (unfold Client.difficulty, smallSize; lia).
  change (repeat_nat "0" (Z.to_nat Client.difficulty)) with "0000".
  cbv iota. now rewrite IH.
Qed.

(** X12.  The client's solver and the server's validator agree: if some
    nonce within reach is a solution, [solvePoW] returns the least such
    nonce in decimal, and [ValidateChallenge] at difficulty 4 accepts
    it and rejects every smaller one. *)
Theorem solvePoW_least_solution {client server : Heap}
    (fuel : nat) (seeded : Rand.t) (challenge : string) (nonce : Z) :
  0 <= nonce < Z.of_nat fuel -> nonce <= maxInt ->
  ValidateChallenge (heap := server) (NewSHA256PoW 4 seeded) challenge (Sprintf_d nonce)
  = Some true ->
  exists m, 0 <= m <= nonce
    /\ Client.solvePoW (heap := client) fuel challenge = Some (Sprintf_d m)
    /\ ValidateChallenge (heap := server) (NewSHA256PoW 4 seeded) challenge (Sprintf_d m)
       = Some true
    /\ forall k, 0 <= k < m ->
         ValidateChallenge (heap := server) (NewSHA256PoW 4 seeded) challenge
           (Sprintf_d k) = Some false.
Proof.
  intros Hn Hmax Hok.
  assert (Hv : forall solution,
             ValidateChallenge (heap := server) (NewSHA256PoW 4 seeded) challenge solution
             = Some (HasPrefix (Hex.EncodeToString
                                  (SHA256.Sum256 (bytes (challenge +:+ solution))))
                       "0000")).
  { intros solution. apply (validates_prefix 4). unfold smallSize. lia. }
  rewrite Hv in Hok. injection Hok as Hok.
  destruct (search_least fuel "0000" challenge 0 nonce)
    as (m & Hm & Hrun & Hgood & Hleast); [lia|lia|exact Hmax|exact Hok|].
  exists m. split; [exact Hm|]. split; [|split].
  - unfold Client.solvePoW. rewrite Client_search. exact Hrun.
  - rewrite Hv. now f_equal.
  - intros k Hk. rewrite Hv. f_equal. now apply Hleast.
Qed.

Lemma solvePoW_least_solution_witness :
  0 <= 2 < Z.of_nat 3 /\ 2 <= maxInt
  /\ ValidateChallenge (NewSHA256PoW 4 Rand.sevens) "71f1" (Sprintf_d 2) = Some true
  /\ exists m, 0 <= m <= 2
       /\ Client.solvePoW 3 "71f1" = Some (Sprintf_d m)
       /\ ValidateChallenge (NewSHA256PoW 4 Rand.sevens) "71f1" (Sprintf_d m) = Some true
       /\ forall k, 0 <= k < m ->
            ValidateChallenge (NewSHA256PoW 4 Rand.sevens) "71f1" (Sprintf_d k)
            = Some false.
Proof.
  assert (H1 : 0 <= 2 < Z.of_nat 3) by (cbn; lia).
  assert (H2 : 2 <= maxInt) by (unfold maxInt; lia).
  assert (H3 : ValidateChallenge (NewSHA256PoW 4 Rand.sevens) "71f1" (Sprintf_d 2)
               = Some true) by (vm_compute; reflexivity).
  split; [exact H1|]. split; [exact H2|]. split; [exact H3|].
  exact (solvePoW_least_solution 3 Rand.sevens "71f1" 2 H1 H2 H3).
Defined.

End SolverFacts.

Module PowTestFacts.
Import GoStrings GoStringsFacts StringFacts Numerals Edges EdgesFacts Decimal Pow EngineFacts.
Import SolverFacts.

Lemma search_first (fuel : nat) (prefix challenge : string) :
  forall (start : Z) (s : string),
    0 <= start -> start + Z.of_nat fuel <= maxInt + 1 ->
    PowTest.search fuel prefix challenge start = Some s ->
    exists m, start <= m < start + Z.of_nat fuel
      /\ s = Sprintf_d m
      /\ HasPrefix (Hex.EncodeToString
                      (SHA256.Sum256 (bytes (challenge +:+ Sprintf_d m)))) prefix = true
      /\ forall k, start <= k < m ->
           HasPrefix (Hex.EncodeToString
                        (SHA256.Sum256 (bytes (challenge +:+ Sprintf_d k)))) prefix = false.
Proof.
  induction fuel as [|fuel IH]; intros start s Hs Hfuel; cbn [PowTest.search];
    [discriminate|].
  destruct (HasPrefix (Hex.EncodeToString
                         (SHA256.Sum256 (bytes (challenge +:+ Sprintf_d start))))
              prefix) eqn:Hhere.
  - intros [= <-]. exists start. split; [lia|]. split; [reflexivity|].
    split; [exact Hhere|]. intros k Hk. lia.
  - intros Hrun.
    destruct fuel as [|fuel']; [discriminate Hrun|]. revert Hrun.
    assert (Hincr : incr start = start + 1).
    { unfold incr. destruct (Z.eqb_spec start maxInt); [lia|reflexivity]. }
    rewrite Hincr. intros Hrun.
    destruct (IH (start + 1) s) as (m & Hm & -> & Hgood & Hleast); [lia|lia|exact Hrun|].
    exists m. split; [lia|]. split; [reflexivity|]. split; [exact Hgood|].
    intros k Hk. destruct (Z.eq_dec k start) as [->|Hk']; [exact Hhere|].
    apply Hleast. lia.
Qed.

Lemma length_dec_digits_acc (n : nat) : forall (v : Z) (acc : string),
  (String.length acc <= String.length (dec_digits n v acc))%nat.
Proof.
  induction n as [|n IH]; intros v acc; cbn [dec_digits]; [lia|].
  destruct (v / 10 =? 0); [cbn; lia|].
  specialize (IH (v / 10) (String (Hex.hextable (v mod 10)) acc)).
  cbn [String.length] in IH. lia.
Qed.

Lemma length_dec_digits_mono (n : nat) : forall (a b : Z) (acc acc' : string),
  0 <= a <= b -> String.length acc = String.length acc' ->
  (String.length (dec_digits n a acc) <= String.length (dec_digits n b acc'))%nat.
Proof.
  induction n as [|n IH]; intros a b acc acc' Hab Hacc; cbn [dec_digits]; [lia|].
  assert (Hdiv : 0 <= a / 10 <= b / 10).
  { split; [apply Z.div_pos; lia|apply Z.div_le_mono; lia]. }
  destruct (Z.eqb_spec (a / 10) 0) as [Ha|Ha].
  - destruct (b / 10 =? 0); [cbn; lia|].
    pose proof (length_dec_digits_acc n (b / 10)
                  (String (Hex.hextable (b mod 10)) acc')) as H.
    cbn [String.length] in *. lia.
  - destruct (Z.eqb_spec (b / 10) 0) as [Hb|Hb]; [lia|].
    apply IH; [exact Hdiv|cbn; lia].
Qed.

Lemma length_Sprintf_d_mono (a b : Z) :
  0 <= a <= b -> (String.length (Sprintf_d a) <= String.length (Sprintf_d b))%nat.
Proof.
  intros Hab. unfold Sprintf_d.
  destruct (Z.ltb_spec a 0) as [?|_]; [lia|].
  destruct (Z.ltb_spec b 0) as [?|_]; [lia|].
  now apply length_dec_digits_mono.
Qed.

(** X13.  What [TestDifficultyLevel] checks, for every challenge and every
    pair of difficulties: the solutions the helper [solvePoW] finds
    are accepted by engines of these difficulties, the one found for
    the higher difficulty is accepted at the lower one too, and it is
    not the shorter of the two. *)
Theorem harder_is_not_shorter {heap heap' : Heap}
    (fuel fuel' : nat) (seeded seeded' : Rand.t) (challenge : string)
    (low high : Z) (solutionLow solutionHigh : string) :
  0 <= low <= high -> high <= maxInt ->
  Z.of_nat fuel <= 2 ^ 63 -> Z.of_nat fuel' <= 2 ^ 63 ->
  PowTest.solvePoW (heap := heap) fuel challenge low = Some (Some solutionLow) ->
  PowTest.solvePoW (heap := heap) fuel' challenge high = Some (Some solutionHigh) ->
  ValidateChallenge (heap := heap') (NewSHA256PoW low seeded) challenge solutionLow
  = Some true
  /\ ValidateChallenge (heap := heap') (NewSHA256PoW high seeded') challenge solutionHigh
     = Some true
  /\ ValidateChallenge (heap := heap') (NewSHA256PoW low seeded) challenge solutionHigh
     = Some true
  /\ (String.length solutionLow <= String.length solutionHigh)%nat.
Proof.
  intros Hlow Hhigh Hfuel Hfuel'. unfold PowTest.solvePoW.
  destruct (Repeat (heap := heap) "0" low) as [zl|] eqn:Hzl; [|discriminate].
  destruct (Repeat (heap := heap) "0" high) as [zh|] eqn:Hzh; [|discriminate].
  apply PowFacts.Repeat_zero_returns in Hzl as [_ ->].
  apply PowFacts.Repeat_zero_returns in Hzh as [_ ->].
  intros [= Hl] [= Hh].
  apply search_first in Hl as (m & Hm & -> & Hgood & Hleast);
    [|lia|unfold maxInt; lia].
  apply search_first in Hh as (m' & Hm' & -> & Hgood' & _);
    [|lia|unfold maxInt; lia].
  assert (Hhigh64 : high <= 64) by (eapply prefix_within_digest; [lia|exact Hgood']).
  assert (Hdown : HasPrefix (Hex.EncodeToString
                    (SHA256.Sum256 (bytes (challenge +:+ Sprintf_d m'))))
                    (repeat_nat "0" (Z.to_nat low)) = true).
  { rewrite HasPrefix_zeros in *. apply Nat.leb_le. apply Nat.leb_le in Hgood'. lia. }
  rewrite !validates_prefix by (unfold smallSize; lia).
  split; [now f_equal|]. split; [now f_equal|]. split; [now f_equal|].
  apply length_Sprintf_d_mono. split; [lia|].
  destruct (Z.le_gt_cases m m') as [Hle|Hgt]; [exact Hle|].
  rewrite (Hleast m') in Hdown by lia. discriminate Hdown.
Qed.

Lemma harder_is_not_shorter_witness :
  0 <= 1 <= 2 /\ 2 <= maxInt /\ Z.of_nat 11 <= 2 ^ 63
  /\ PowTest.solvePoW 11 "3f0" 1 = Some (Some "0")
  /\ PowTest.solvePoW 11 "3f0" 2 = Some (Some "10")
  /\ ValidateChallenge (NewSHA256PoW 1 Rand.sevens) "3f0" "0" = Some true
  /\ ValidateChallenge (NewSHA256PoW 2 Rand.sevens) "3f0" "10" = Some true
  /\ ValidateChallenge (NewSHA256PoW 1 Rand.sevens) "3f0" "10" = Some true
  /\ (String.length "0" <= String.length "10")%nat.
Proof.
  assert (H1 : 0 <= 1 <= 2) by lia.
  assert (H2 : 2 <= maxInt) by (unfold maxInt; lia).
  assert (H3 : Z.of_nat 11 <= 2 ^ 63) by (cbn; lia).
  assert (H4 : PowTest.solvePoW 11 "3f0" 1 = Some (Some "0"))
    by (vm_compute; reflexivity).
  assert (H5 : PowTest.solvePoW 11 "3f0" 2 = Some (Some "10"))
    by (vm_compute; reflexivity).
  split; [exact H1|]. split; [exact H2|]. split; [exact H3|].
  split; [exact H4|]. split; [exact H5|].
  exact (harder_is_not_shorter 11 11 Rand.sevens Rand.sevens "3f0" 1 2 "0" "10"
           H1 H2 H3 H3 H4 H5).
Defined.

End PowTestFacts.

(* ================================================================== *)
(** ** Client and server together *)
(* ================================================================== *)

Module Interop.
Import GoStrings GoStringsFacts StringFacts Numerals Edges EdgesFacts Decimal Pow EngineFacts.
Import Handler HandlerFacts SolverFacts Wiring.

Lemma run_bind {S A C : Type} (oracle : forall B : Type, Call B -> S -> B * S)
    (p : prog Call A) (f : A -> prog Call C) (s : S) :
  run observe oracle (bind p f) s
  = let '(tr, a, s') := run observe oracle p s in
    let '(tr', c, s'') := run observe oracle (f a) s' in
    (tr ++ tr', c, s'').
Proof.
  revert s. induction p as [a|B e k IH]; intros s; cbn.
  - now destruct (run observe oracle (f a) s) as [[tr' c] s''].
  - destruct (oracle B e s) as [b s']. rewrite IH.
    destruct (run observe oracle (k b) s') as [[tr a] s1].
    now destruct (run observe oracle (f a) s1) as [[tr' c] s''].
Qed.

Lemma HasPrefix_append (prefix s : string) : HasPrefix (prefix +:+ s) prefix = true.
Proof.
  unfold HasPrefix. rewrite length_append.
  apply andb_true_intro. split; [apply Nat.leb_le; lia|].
  apply String.eqb_eq. pose proof (slice_append_prefix prefix s) as H.
  unfold slice in H. now rewrite Nat.sub_0_r in H.
Qed.

Lemma TrimPrefix_append (prefix s : string) : TrimPrefix (prefix +:+ s) prefix = s.
Proof.
  unfold TrimPrefix. rewrite HasPrefix_append. unfold slice.
  rewrite length_append.
  replace (String.length prefix + String.length s - String.length prefix)%nat
    with (String.length s) by lia.
  pose proof (substring_middle prefix s "") as H. now rewrite append_nil_r in H.
Qed.

Lemma TrimSpace_line (s : string) : solids s = true -> TrimSpace (s +:+ LF) = s.
Proof.
  intros Hs. apply (TrimSpace_blank_ends "" s LF); auto using solids_solid_ends.
Qed.

Lemma search_sound (fuel : nat) (prefix challenge : string) : forall (start : Z) (s : string),
  PowTest.search fuel prefix challenge start = Some s ->
  solids s = true
  /\ HasPrefix (Hex.EncodeToString (SHA256.Sum256 (bytes (challenge +:+ s)))) prefix = true.
Proof.
  induction fuel as [|fuel IH]; intros start s; cbn [PowTest.search]; [discriminate|].
  destruct (HasPrefix _ prefix) eqn:Hhere.
  - intros [= <-]. split; [apply solids_Sprintf_d|exact Hhere].
  - apply IH.
Qed.


(** One read that delivers a whole line: what [readClientResponse]
    does against the connection of [Wiring]. *)
Lemma fill_one_read {heap : Heap} (i : nat) (p : SHA256PoW) (qp : Quotes.RandomQuoteProvider)
    (data : string) (rest : list (string * option error)) (o : list (option error))
    (out : list string) :
  0 < len data <= maxReadSize ->
  run observe oracle (fill_from (S i) (NewReader maxReadSize))
    {| pow := p; quoteProvider := qp; incoming := (data, None) :: rest;
       outcomes := o; sent := out |}
  = ([EvRead maxReadSize data None],
     {| N := maxReadSize - len data; buf := data; err := None |},
     {| pow := p; quoteProvider := qp; incoming := rest; outcomes := o; sent := out |}).
Proof.
  intros Hlen. cbn [fill_from NewReader N buf err]. unfold LimitedReader_Read.
  change (maxReadSize <=? 0) with false.
  change (len "") with 0.
  change (maxReadSize <? defaultBufSize - 0) with true. cbv iota.
  cbn [bind call run oracle observe conn_Read incoming fst snd].
  destruct (Z.leb_spec (len data) maxReadSize) as [_|?]; [|lia].
  cbn [run bind fst snd pow quoteProvider outcomes sent].
  destruct (Z.ltb_spec 0 (len data)) as [_|?]; [|lia].
  reflexivity.
Qed.

Lemma IndexByte_line (s : string) :
  solids s = true -> IndexByte (s +:+ LF) "010" = Some (String.length s).
Proof.
  intros Hs. rewrite IndexByte_append, (solids_no_line_feed s Hs).
  cbn. f_equal. lia.
Qed.

Lemma ReadSlice_one_read {heap : Heap} (p : SHA256PoW) (qp : Quotes.RandomQuoteProvider)
    (s : string) (rest : list (string * option error)) (o : list (option error))
    (out : list string) :
  solids s = true -> len (s +:+ LF) <= maxReadSize ->
  run observe oracle (ReadSlice "010" (NewReader maxReadSize))
    {| pow := p; quoteProvider := qp; incoming := (s +:+ LF, None) :: rest;
       outcomes := o; sent := out |}
  = ([EvRead maxReadSize (s +:+ LF) None],
     Some (s +:+ LF, None,
           {| N := maxReadSize - len (s +:+ LF); buf := ""; err := None |}),
     {| pow := p; quoteProvider := qp; incoming := rest; outcomes := o; sent := out |}).
Proof.
  intros Hs Hlen.
  assert (Hpos : 0 < len (s +:+ LF) <= maxReadSize).
  { split; [|exact Hlen]. rewrite len_append. pose proof (len_nonneg s).
    change (len LF) with 1. lia. }
  unfold ReadSlice, fuel_for.
  replace (Z.to_nat (N (NewReader maxReadSize)) + 2)%nat
    with (S (S (Z.to_nat (N (NewReader maxReadSize))))) by lia.
  generalize (Z.to_nat (N (NewReader maxReadSize))). intros fuel.
  cbn [ReadSlice_from]. cbn [NewReader buf err N].
  change (String.length "") with O.
  change (IndexByte (slice "" 0 0) "010") with (@None nat).
  change (len "") with 0. change (defaultBufSize <=? 0) with false. cbv iota.
  rewrite run_bind. unfold fill. change maxConsecutiveEmptyReads with (S 99).
  rewrite (fill_one_read 99 p qp (s +:+ LF) rest o out Hpos).
  cbv iota beta. cbn [buf N err].
  rewrite slice_0_length, (IndexByte_line s Hs).
  cbn [run]. rewrite Nat.add_0_r.
  replace (slice (s +:+ LF) 0 (String.length s + 1)) with (s +:+ LF).
  2:{ rewrite <- (slice_0_length (s +:+ LF)) at 1. f_equal.
      rewrite length_append. reflexivity. }
  replace (slice (s +:+ LF) (String.length s + 1) (String.length (s +:+ LF))) with "".
  2:{ unfold slice. rewrite length_append. cbn [String.length LF].
      rewrite Nat.sub_diag. symmetry. apply substring_nothing. }
  reflexivity.
Qed.

Lemma readClientResponse_one_read {heap : Heap} (p : SHA256PoW) (qp : Quotes.RandomQuoteProvider)
    (s : string) (rest : list (string * option error)) (o : list (option error))
    (out : list string) :
  solids s = true -> len (s +:+ LF) <= maxReadSize ->
  run observe oracle readClientResponse
    {| pow := p; quoteProvider := qp; incoming := (s +:+ LF, None) :: rest;
       outcomes := o; sent := out |}
  = ([EvRead maxReadSize (s +:+ LF) None], Some (s, None),
     {| pow := p; quoteProvider := qp; incoming := rest; outcomes := o; sent := out |}).
Proof.
  intros Hs Hlen.
  unfold readClientResponse, ReadString, fuel_for.
  replace (Z.to_nat (N (NewReader maxReadSize)) + 2)%nat
    with (S (S (Z.to_nat (N (NewReader maxReadSize))))) by lia.
  generalize (Z.to_nat (N (NewReader maxReadSize))). intros fuel.
  cbn [ReadString_from]. rewrite !run_bind.
  rewrite (ReadSlice_one_read p qp s rest o out Hs Hlen).
  cbv iota beta. cbn [run app]. rewrite append_nil_l.
  now rewrite (TrimSpace_line s Hs).
Qed.

Lemma length_dec_digits (n : nat) : forall (v : Z) (acc : string),
  (String.length (dec_digits n v acc) <= n + String.length acc)%nat.
Proof.
  induction n as [|n IH]; intros v acc; cbn [dec_digits]; [lia|].
  destruct (v / 10 =? 0); [cbn; lia|].
  specialize (IH (v / 10) (String (Hex.hextable (v mod 10)) acc)).
  cbn [String.length] in IH. lia.
Qed.

Lemma length_Sprintf_d (v : Z) : (String.length (Sprintf_d v) <= 20)%nat.
Proof.
  unfold Sprintf_d. destruct (v <? 0).
  - rewrite append_cons, append_nil_l. cbn [String.length].
    pose proof (length_dec_digits 19 (- v) ""). cbn [String.length] in *. lia.
  - pose proof (length_dec_digits 19 v ""). cbn [String.length] in *. lia.
Qed.

Lemma search_short (fuel : nat) (prefix challenge : string) : forall (start : Z) (s : string),
  PowTest.search fuel prefix challenge start = Some s -> (String.length s <= 20)%nat.
Proof.
  induction fuel as [|fuel IH]; intros start s; cbn [PowTest.search]; [discriminate|].
  destruct (HasPrefix _ prefix).
  - intros [= <-]. apply length_Sprintf_d.
  - apply IH.
Qed.

Lemma GetQuote_returns (q : Quotes.RandomQuoteProvider) :
  exists s q',
    Quotes.GetQuote q = Some (s, q')
    /\ (s ∈ Quotes.quotes q \/ Quotes.quotes q = [] /\ s = Quotes.Stub).
Proof.
  unfold Quotes.GetQuote. destruct (Quotes.quotes q) as [|x l] eqn:Hq.
  - exists Quotes.Stub, q. cbn. auto.
  - set (n := Z.of_nat (List.length (x :: l))).
    assert (Hn : 0 < n) by (unfold n; cbn [List.length]; lia).
    destruct (Z.eqb_spec n 0) as [?|_]; [lia|].
    unfold Rand.Intn. destruct (Z.leb_spec n 0) as [?|_]; [lia|].
    set (i := Rand.draws (Quotes.rng q) (Rand.used (Quotes.rng q)) mod n).
    assert (Hi : 0 <= i < n) by (apply Z.mod_pos_bound; exact Hn).
    destruct ((x :: l) !! Z.to_nat i) as [s|] eqn:Hs.
    + eexists s, _. split; [reflexivity|]. left.
      eapply list_elem_of_lookup_2; exact Hs.
    + apply lookup_ge_None in Hs. unfold n in Hi. lia.
Qed.

(** X14.  The client of cmd/client and the server of cmd/server agree.
    Whatever line the client sends in answer to the line the server
    writes first, the server - its engine at the difficulty 4 of
    [main], whatever its seed and its quotes - accepts: it validates
    the line without its line feed against its challenge, writes the
    challenge and one quote and nothing else, and returns [nil]. *)
Theorem client_is_served {client server : Heap}
    (seeded : Rand.t) (qp : Quotes.RandomQuoteProvider)
    (fuel : nat) (line : string) (rest : list (string * option error)) :
  let p := NewSHA256PoW 4 seeded in
  let challenge := fst (Pow.GenerateChallenge p) in
  Client.reply (heap := client) fuel (Protocol.PrefixChallenge +:+ challenge +:+ LF)
  = Client.Sends line ->
  exists tr w' quote solution,
    Wiring.serve (heap := server)
      {| pow := p; quoteProvider := qp; incoming := (line, None) :: rest;
         outcomes := []; sent := [] |}
    = (tr, Returns None, w')
    /\ line = solution +:+ LF
    /\ In (EvValidateChallenge challenge solution true) tr
    /\ sent w' = [Protocol.PrefixChallenge +:+ challenge +:+ LF;
                  Protocol.PrefixQuote +:+ quote +:+ LF]
    /\ (quote ∈ Quotes.quotes qp \/ Quotes.quotes qp = [] /\ quote = Quotes.Stub)
    /\ incoming w' = rest.
Proof.
  intros p challenge Hreply.
  assert (Hc : solids challenge = true) by apply solids_Sprintf_x.
  unfold Client.reply in Hreply.
  rewrite HasPrefix_append, TrimPrefix_append, (TrimSpace_line _ Hc) in Hreply.
  unfold Client.solvePoW in Hreply. rewrite Client_search in Hreply.
  destruct (PowTest.search fuel "0000" challenge 0) as [s|] eqn:Hsearch;
    [|discriminate Hreply].
  injection Hreply as <-.
  destruct (search_sound _ _ _ _ _ Hsearch) as [Hs Hgood].
  pose proof (search_short _ _ _ _ _ Hsearch) as Hshort.
  destruct (GetQuote_returns qp) as (quote & qp' & Hq & Hin).
  assert (Hlen : len (s +:+ LF) <= maxReadSize).
  { unfold len, maxReadSize. rewrite length_append. cbn [String.length LF]. lia. }
  assert (Hok : Pow.ValidateChallenge (heap := server)
                  (snd (Pow.GenerateChallenge p)) challenge s = Some true).
  { change (snd (Pow.GenerateChallenge p))
      with (NewSHA256PoW 4 (Rand.advance seeded)).
    rewrite (validates_prefix 4) by (unfold smallSize; lia). f_equal. exact Hgood. }
  unfold Wiring.serve, HandleConnection.
  rewrite run_bind. cbn [run call oracle observe pow quoteProvider incoming outcomes sent].
  destruct (Pow.GenerateChallenge p) as [c p'] eqn:Hgen.
  cbn [fst snd] in challenge, Hok. subst challenge.
  rewrite run_bind. unfold sendMessage at 1. rewrite run_bind.
  cbn [run call oracle observe conn_Write pow quoteProvider incoming outcomes sent
         fst snd tl app].
  rewrite run_bind, (readClientResponse_one_read p' qp s rest [] _ Hs Hlen).
  cbv iota beta. rewrite run_bind.
  cbn [run call oracle observe pow quoteProvider incoming outcomes sent fst snd].
  rewrite Hok. cbn [negb]. cbv iota.
  rewrite run_bind. cbn [run call oracle observe pow quoteProvider incoming outcomes sent].
  rewrite Hq. rewrite run_bind. unfold sendMessage. rewrite run_bind.
  cbn [run call oracle observe conn_Write pow quoteProvider incoming outcomes sent
         fst snd tl app].
  eexists _, _, quote, s. split; [reflexivity|].
  split; [reflexivity|]. split; [|split; [reflexivity|split; [exact Hin|reflexivity]]].
  cbn. tauto.
Qed.

Lemma client_is_served_witness :
  let seeded := {| Rand.draws := fun _ => 29169; Rand.used := O |} in
  let qp := Quotes.NewRandomQuoteProvider ["a"; "b"; "c"] Rand.sevens in
  let p := NewSHA256PoW 4 seeded in
  let challenge := fst (Pow.GenerateChallenge p) in
  challenge = "71f1"
  /\ Client.reply 3 (Protocol.PrefixChallenge +:+ challenge +:+ LF)
     = Client.Sends ("2" +:+ LF)
  /\ exists tr w' quote solution,
      Wiring.serve {| pow := p; quoteProvider := qp;
                      incoming := [("2" +:+ LF, None)];
                      outcomes := []; sent := [] |}
      = (tr, Returns None, w')
      /\ "2" +:+ LF = solution +:+ LF
      /\ In (EvValidateChallenge challenge solution true) tr
      /\ sent w' = [Protocol.PrefixChallenge +:+ challenge +:+ LF;
                    Protocol.PrefixQuote +:+ quote +:+ LF]
      /\ (quote ∈ Quotes.quotes qp \/ Quotes.quotes qp = [] /\ quote = Quotes.Stub)
      /\ incoming w' = [].
Proof.
  intros seeded qp p challenge.
  assert (Hreply : Client.reply 3 (Protocol.PrefixChallenge +:+ challenge +:+ LF)
                   = Client.Sends ("2" +:+ LF)) by (vm_compute; reflexivity).
  split; [reflexivity|]. split; [exact Hreply|].
  exact (client_is_served seeded qp 3 ("2" +:+ LF) [] Hreply).
Defined.

End Interop.

(* ================================================================== *)
(** ** The server, path by path *)
(* ================================================================== *)

Module ServerPaths.
Import GoStrings Server ServerFacts ServerStates.

Ltac in_range :=
  rewrite ?length_insert; eapply lookup_lt_Some; eassumption.

(** Evaluation by rewriting: every choice a run depends on is a
    hypothesis, split beforehand on the goal as it is stated. *)
Ltac lookups :=
  repeat match goal with
    | H : ?l !! ?c = _ |- context [?l !! ?c] => rewrite H
    | H : ?b = true |- context [if ?b then _ else _] => rewrite H
    | H : ?b = false |- context [if ?b then _ else _] => rewrite H
    | H : ?v = _ |- context [match ?v with _ => _ end] => rewrite H
    | H : token_left ?c = _ |- context [token_left ?c] => rewrite H
    | |- context [<[?c := ?v]> ?l !! ?c] =>
        rewrite (list_lookup_insert_eq l c v) by in_range
    end.

(** States are kept as flat records: a setter applied to a setter
    names its argument once for every field. *)
Ltac flatten :=
  cbv beta iota delta
    [set_listener_closes set_ctx_done set_wg set_semaphore set_once_done
     set_once_m set_limiterMap set_limiters set_conns add_log
     config listener_closes ctx_done wg semaphore once_done once_m
     limiterMap limiters conns log].

Ltac evaluate :=
  repeat first
    [ progress (cbn; flatten) | progress (unfold update_conn; flatten)
    | progress lookups ].

Lemma lookup_fresh cfg (ls : list Limiter) :
  (ls ++ [ {| every := 100 * Millisecond; burst := RateLimitEvery100MS cfg;
              taken := O |} ]) !! List.length ls = Some (fresh_limiter cfg).
Proof. apply list_lookup_middle. reflexivity. Qed.

(** The choices of a run of [handleClient], split on the goal. *)
Ltac choices cfg ch s x :=
  destruct (remote x) as [?ip|] eqn:?Hip;
  [ match goal with
    | Hip : remote x = Some ?ip |- _ =>
        destruct (limiterMap s !! ip) as [?a|] eqn:?Ha;
        [ match goal with
          | Ha : limiterMap s !! ip = Some ?a |- _ =>
              destruct ((limiters s ++ [ {| every := 100 * Millisecond;
                                            burst := RateLimitEvery100MS cfg;
                                            taken := O |} ]) !! a)
                as [?l|] eqn:?Hl;
              [ match goal with
                | Hl : _ !! a = Some ?l |- _ =>
                    destruct (token_left ch && (1 <=? burst l)) eqn:?Htok
                end
              | ]
          end
        | pose proof (lookup_fresh cfg (limiters s)) as ?Hl;
          destruct (token_left ch && (1 <=? burst (fresh_limiter cfg))) eqn:?Htok ]
    end
  | ];
  destruct (deadline_error ch) as [?e|] eqn:?Hd;
  destruct (handler_result ch) as [|?msg|?v] eqn:?Hh.

(** [handleClient] run by itself, from any state in which it holds a
    slot and a unit of the wait group. *)
Lemma handleClient_run cfg ch s c x n :
  conns s !! c = Some x -> semaphore s = S n -> 1 <= wg s ->
  exists s' x',
    solo ch (handleClient cfg c) s = Some (Returned, s', [])
    /\ semaphore s' = n /\ wg s' = wg s - 1
    /\ conns s' !! c = Some x' /\ closes x' = S (closes x) /\ remote x' = remote x
    /\ (exists out, written x' = written x ++ out)
    /\ (forall c', c' <> c -> conns s' !! c' = conns s !! c')
    /\ listener_closes s' = listener_closes s /\ ctx_done s' = ctx_done s
    /\ once_done s' = once_done s /\ once_m s' = once_m s.
Proof.
  intros Hc Hsem Hwg.
  assert (Hdone : (wg s - 1 <? 0) = false) by (apply Z.ltb_ge; lia).
  choices cfg ch s x.
  all: destruct s as [cf lc cd w sem od om lm ls cs lg];
    cbn [limiterMap limiters conns semaphore wg] in *; subst sem.
  all: unfold handleClient, handleClient_body, getLimiterForIP.
  all: evaluate.
  all: eexists; eexists; (split; [reflexivity|]); evaluate.
  all: repeat split; auto.
  all: try (eexists; cbn; rewrite <- ?app_assoc; reflexivity).
  all: try (intros c' Hne; rewrite ?list_lookup_insert_ne by auto; reflexivity).
Qed.


(** The limiter [Allow] is called on, and its verdict when a token is
    left. *)
Lemma has_burst_allows cfg ch s ip :
  has_burst cfg s ip -> token_left ch = true ->
  exists l,
    (limiters s ++ [ {| every := 100 * Millisecond;
                        burst := RateLimitEvery100MS cfg; taken := O |} ])
      !! match limiterMap s !! ip with
         | Some a => a
         | None => List.length (limiters s)
         end = Some l
    /\ token_left ch && (1 <=? burst l) = true.
Proof.
  intros [Hcfg Hreg] ->. destruct (limiterMap s !! ip) as [a|].
  - destruct (Hreg a eq_refl) as (l & Hl & Hb). exists l. split.
    + now apply lookup_app_l_Some.
    + now apply Z.leb_le.
  - eexists. split; [apply list_lookup_middle; reflexivity|].
    now apply Z.leb_le.
Qed.

(** [Allow] refuses: the run of [handleClient]. *)
Lemma denied_run cfg ch s c x ip n :
  conns s !! c = Some x -> remote x = Some ip ->
  semaphore s = S n -> 1 <= wg s ->
  (forall l,
     (limiters s ++ [ {| every := 100 * Millisecond;
                         burst := RateLimitEvery100MS cfg; taken := O |} ])
       !! match limiterMap s !! ip with
          | Some a => a
          | None => List.length (limiters s)
          end = Some l ->
     token_left ch && (1 <=? burst l) = false) ->
  exists s',
    solo ch (handleClient cfg c) s = Some (Returned, s', [])
    /\ conns s' !! c = Some {| remote := Some ip; closes := S (closes x);
                               written := written x ++ [MsgOnManyReq];
                               deadline := deadline x |}
    /\ semaphore s' = n /\ wg s' = wg s - 1.
Proof.
  intros Hc Hip Hsem Hwg Hrefuse.
  assert (Hdone : (wg s - 1 <? 0) = false) by (apply Z.ltb_ge; lia).
  destruct (limiterMap s !! ip) as [a|] eqn:Ha;
    [destruct ((limiters s ++ [ {| every := 100 * Millisecond;
                                   burst := RateLimitEvery100MS cfg;
                                   taken := O |} ]) !! a) as [l|] eqn:Hl;
       [pose proof (Hrefuse l eq_refl) as Hallow|]
    |pose proof (lookup_fresh cfg (limiters s)) as Hl;
     pose proof (Hrefuse _ Hl) as Hallow; unfold fresh_limiter in Hl, Hallow];
    clear Hrefuse.
  all: destruct s as [cf lc cd w sem od om lm ls cs lg];
    cbn [limiterMap limiters conns semaphore wg] in *; subst sem.
  all: unfold handleClient, handleClient_body, getLimiterForIP.
  all: evaluate.
  all: eexists; (split; [reflexivity|]); evaluate.
  all: unfold closed_once, with_written; cbn; rewrite Hip; auto.
Qed.

(** X15.  The limiter finds no token: the peer is told so, and neither the
    deadline nor the handler is reached. *)
Theorem handleClient_denies cfg ch s c x ip n :
  conns s !! c = Some x -> remote x = Some ip ->
  semaphore s = S n -> 1 <= wg s ->
  token_left ch = false ->
  exists s',
    solo ch (handleClient cfg c) s = Some (Returned, s', [])
    /\ conns s' !! c = Some {| remote := Some ip; closes := S (closes x);
                               written := written x ++ [MsgOnManyReq];
                               deadline := deadline x |}
    /\ semaphore s' = n /\ wg s' = wg s - 1.
Proof.
  intros Hc Hip Hsem Hwg Htok. apply denied_run; auto.
  intros l _. now rewrite Htok.
Qed.

(** X16.  A burst below one - the zero value of [RateLimitEvery100MS]
    included - leaves no limiter that ever allows: whatever the
    surroundings, every peer is refused and no handler runs. *)
Theorem burst_below_one_denies_all cfg w ch c x ip n :
  reachable cfg w -> RateLimitEvery100MS cfg <= 0 ->
  conns (srv w) !! c = Some x -> remote x = Some ip ->
  semaphore (srv w) = S n -> 1 <= wg (srv w) ->
  exists s',
    solo ch (handleClient cfg c) (srv w) = Some (Returned, s', [])
    /\ conns s' !! c = Some {| remote := Some ip; closes := S (closes x);
                               written := written x ++ [MsgOnManyReq];
                               deadline := deadline x |}
    /\ semaphore s' = n /\ wg s' = wg (srv w) - 1.
Proof.
  intros Hw Hzero Hc Hip Hsem Hwg.
  destruct (invariant_reachable cfg w Hw) as [_ (ds & _ & Hbal)].
  pose proof (bal_limiters _ _ _ Hbal) as Hlim.
  apply denied_run; auto.
  intros l Hl. apply andb_false_intro2. apply Z.leb_gt.
  apply list_elem_of_lookup_2 in Hl. apply elem_of_app in Hl.
  destruct Hl as [Hl|Hl].
  - rewrite Forall_forall in Hlim. destruct (Hlim l Hl) as [_ ->]. lia.
  - apply list_elem_of_singleton in Hl. subst l. cbn. lia.
Qed.

(** X17.  A token is left and the handler returns, with an error or without:
    the deadline is set first, nothing but the handler writes to the
    peer, and the socket is closed after it. *)
Theorem handleClient_serves cfg ch s c x ip n :
  conns s !! c = Some x -> remote x = Some ip ->
  semaphore s = S n -> 1 <= wg s ->
  token_left ch = true -> has_burst cfg s ip ->
  (forall v, handler_result ch <> HandlerPanic v) ->
  exists s',
    solo ch (handleClient cfg c) s = Some (Returned, s', [])
    /\ conns s' !! c
       = Some {| remote := Some ip; closes := S (closes x);
                 written := written x ++ handler_output ch;
                 deadline := match deadline_error ch with
                             | None => Some (ConnectionTimeout cfg)
                             | Some _ => deadline x
                             end |}
    /\ semaphore s' = n /\ wg s' = wg s - 1.
Proof.
  intros Hc Hip Hsem Hwg Htok Hb Hnp.
  assert (Hdone : (wg s - 1 <? 0) = false) by (apply Z.ltb_ge; lia).
  destruct (has_burst_allows cfg ch s ip Hb Htok) as (l & Hl & Hallow).
  clear Htok Hb.
  destruct (limiterMap s !! ip) as [a|] eqn:Ha.
  all: destruct (deadline_error ch) as [e|] eqn:Hd.
  all: destruct (handler_result ch) as [|msg|v] eqn:Hh; [| |now destruct (Hnp v)].
  all: destruct s as [cf lc cd w sem od om lm ls cs lg];
    cbn [limiterMap limiters conns semaphore wg] in *; subst sem.
  all: unfold handleClient, handleClient_body, getLimiterForIP.
  all: evaluate.
  all: eexists; (split; [reflexivity|]); evaluate.
  all: unfold closed_once, with_written, with_deadline; cbn; rewrite Hip; auto.
Qed.

(** X18.  A token is left and the handler panics: [recoverPanic] logs the
    panic and tells the peer, after whatever the handler had written;
    then the deferred calls run as on every other path. *)
Theorem handleClient_recovers cfg ch s c x ip n v :
  conns s !! c = Some x -> remote x = Some ip ->
  semaphore s = S n -> 1 <= wg s ->
  token_left ch = true -> has_burst cfg s ip ->
  handler_result ch = HandlerPanic v ->
  exists s',
    solo ch (handleClient cfg c) s = Some (Returned, s', [])
    /\ conns s' !! c
       = Some {| remote := Some ip; closes := S (closes x);
                 written := written x ++ handler_output ch ++ [MsgOnErrInternal];
                 deadline := match deadline_error ch with
                             | None => Some (ConnectionTimeout cfg)
                             | Some _ => deadline x
                             end |}
    /\ (exists msg, last (log s') = Some (Error, msg))
    /\ semaphore s' = n /\ wg s' = wg s - 1.
Proof.
  intros Hc Hip Hsem Hwg Htok Hb Hh.
  assert (Hdone : (wg s - 1 <? 0) = false) by (apply Z.ltb_ge; lia).
  destruct (has_burst_allows cfg ch s ip Hb Htok) as (l & Hl & Hallow).
  clear Htok Hb.
  destruct (limiterMap s !! ip) as [a|] eqn:Ha.
  all: destruct (deadline_error ch) as [e|] eqn:Hd.
  all: destruct s as [cf lc cd w sem od om lm ls cs lg];
    cbn [limiterMap limiters conns semaphore wg] in *; subst sem.
  all: unfold handleClient, handleClient_body, getLimiterForIP.
  all: evaluate.
  all: eexists; (split; [reflexivity|]); evaluate.
  all: unfold closed_once, with_written, with_deadline; cbn; rewrite Hip.
  all: rewrite <- ?(app_assoc (written x)); cbn [app].
  all: (split; [reflexivity|]); (split; [|split; reflexivity]).
  all: eexists; apply last_snoc.
Qed.


Lemma closed_error_recognised :
  Contains "accept tcp: use of closed network connection"
    "use of closed network connection" = true.
Proof. vm_compute. reflexivity. Qed.

(** X19.  Once the listener is closed the loop of [acceptConnections] ends at
    its next turn, whether the context is cancelled yet or not: it
    takes no slot, starts no goroutine and leaves all but the log as it
    is. *)
Theorem acceptConnections_stops ch s :
  (1 <= listener_closes s)%nat ->
  exists msg,
    solo ch acceptConnections s = Some (Returned, add_log Info msg s, [])
    /\ (msg = "Server is shutting down, stopping connection handling..."
        \/ msg = "Listener closed, stopping connection handling...").
Proof.
  intros Hclosed. unfold acceptConnections. cbn [bind call solo op].
  destruct (listener_closes s) as [|k]; [lia|]. cbn [bind call solo op].
  destruct (ctx_done s).
  - eexists. split; [reflexivity|]. now left.
  - rewrite closed_error_recognised. eexists. split; [reflexivity|]. now right.
Qed.

(** X20.  One connection from [Accept] to the end of [handleClient]: the
    semaphore and the wait group are back where they were, and the
    socket has been closed once. *)
Theorem admission_round_trip cfg ch ch' s addr :
  config s = cfg -> listener_closes s = O -> arrival ch = inl addr ->
  (semaphore s < capacity s)%nat -> 0 <= wg s ->
  exists s1 s2 x,
    solo ch acceptConnections s
    = Some (Again, s1, [Go None (handleClient cfg (List.length (conns s)))])
    /\ solo ch' (handleClient cfg (List.length (conns s))) s1
       = Some (Returned, s2, [])
    /\ semaphore s1 = S (semaphore s) /\ wg s1 = wg s + 1
    /\ semaphore s2 = semaphore s /\ wg s2 = wg s
    /\ conns s2 !! List.length (conns s) = Some x
    /\ closes x = 1%nat /\ remote x = addr
    /\ (forall c, (c < List.length (conns s))%nat -> conns s2 !! c = conns s !! c).
Proof.
  intros Hcfg Hopen Harr Hfree Hwg.
  set (x0 := {| remote := addr; closes := O; written := []; deadline := None |}).
  set (s0 := set_conns (conns s ++ [x0]) s).
  set (s1 := set_wg (wg s0 + 1) (set_semaphore (S (semaphore s0)) s0)).
  assert (Hacc : solo ch acceptConnections s
                 = Some (Again, s1, [Go None (handleClient cfg (List.length (conns s)))])).
  { unfold acceptConnections. cbn [bind call solo op]. rewrite Hopen, Harr.
    cbn [bind]. fold x0. fold s0.
    rewrite (dispatch_takes_in ch s0 (List.length (conns s))) by exact Hfree.
    cbn. now rewrite Hcfg. }
  assert (Hx0 : conns s1 !! List.length (conns s) = Some x0)
    by (cbn; apply list_lookup_middle; reflexivity).
  destruct (handleClient_run cfg ch' s1 (List.length (conns s)) x0 (semaphore s) Hx0)
    as (s2 & x & Hrun & Hsem & Hwg2 & Hx & Hcl & Hrem & _ & Hother & _);
    [reflexivity|cbn; lia|].
  exists s1, s2, x. repeat split; auto.
  - cbn in Hwg2. lia.
  - intros c Hc. rewrite Hother by lia. cbn. now apply lookup_app_l.
Qed.

(** X21.  The first call of [Shutdown]: what it logs and what it leaves
    alone.  The connections are drained only if the wait group is at
    zero; and when the timer fires first, no socket is closed for it. *)
Theorem Shutdown_outcome cfg ch s :
  once_done s = false -> once_m s = false -> listener_closes s = O ->
  exists s',
    solo ch (Shutdown cfg) s = Some (Returned, s', [])
    /\ log s' = log s
                ++ [(Info, "Shutting down server...");
                    if drained ch && (wg s =? 0)
                    then (Info, "All connections closed. Server stopped.")
                    else (Warn, "Shutdown timeout reached. Forcing termination.")]
    /\ conns s' = conns s /\ wg s' = wg s /\ semaphore s' = semaphore s
    /\ listener_closes s' = 1%nat /\ ctx_done s' = true /\ once_done s' = true.
Proof.
  intros Hdone Hm Hopen. unfold Shutdown, Once_Do, Shutdown_body.
  destruct s as [c lc cd w sem od om lm ls cs lg]. cbn in Hdone, Hm, Hopen.
  subst od om lc. cbn.
  destruct (drained ch && (w =? 0)); cbn;
    (eexists; split; [reflexivity|]); cbn; rewrite <- app_assoc; auto 10.
Qed.

Lemma handleClient_denies_witness :
  exists s',
    solo no_token (handleClient test_config 0) (bucket_used test_config)
    = Some (Returned, s', [])
    /\ conns s' !! O = Some {| remote := Some "127.0.0.1"; closes := 1;
                               written := [] ++ [MsgOnManyReq];
                               deadline := None |}
    /\ semaphore s' = O /\ wg s' = 1 - 1.
Proof.
  apply (handleClient_denies test_config no_token (bucket_used test_config)
           O waiting_conn "127.0.0.1" O);
    [reflexivity|reflexivity|reflexivity|cbn; lia|reflexivity].
Defined.

Lemma main_first_peer_reachable w :
  main_first_peer = Some w -> reachable main_config w.
Proof. unfold main_first_peer. apply play_started. Qed.

Lemma burst_below_one_denies_all_witness :
  match main_first_peer with
  | Some w =>
      reachable main_config w
      /\ RateLimitEvery100MS main_config <= 0
      /\ conns (srv w) !! O = Some waiting_conn
      /\ exists s',
          solo (peer HandlerNil) (handleClient main_config 0) (srv w)
          = Some (Returned, s', [])
          /\ conns s' !! O = Some {| remote := Some "127.0.0.1"; closes := 1;
                                     written := [] ++ [MsgOnManyReq];
                                     deadline := None |}
          /\ semaphore s' = O /\ wg s' = wg (srv w) - 1
  | None => False
  end.
Proof.
  destruct main_first_peer as [w|] eqn:Hw;
    [|exfalso; revert Hw; vm_compute; discriminate].
  assert (Hr : reachable main_config w) by exact (main_first_peer_reachable w Hw).
  assert (Hz : RateLimitEvery100MS main_config <= 0) by (cbn; lia).
  assert (Hc : conns (srv w) !! O = Some waiting_conn).
  { revert Hw. vm_compute. now intros [= <-]. }
  assert (Hs : semaphore (srv w) = 1%nat).
  { revert Hw. vm_compute. now intros [= <-]. }
  assert (Hg : 1 <= wg (srv w)).
  { revert Hw. vm_compute. intros [= <-]. cbn. discriminate. }
  split; [exact Hr|]. split; [exact Hz|]. split; [exact Hc|].
  exact (burst_below_one_denies_all main_config w (peer HandlerNil) O waiting_conn
           "127.0.0.1" O Hr Hz Hc eq_refl Hs Hg).
Defined.

Lemma has_burst_first cfg :
  1 <= RateLimitEvery100MS cfg -> has_burst cfg (one_admitted cfg) "127.0.0.1".
Proof. intros H. split; [exact H|]. intros a Ha. discriminate Ha. Qed.

Lemma handleClient_serves_witness :
  exists s',
    solo rejecting (handleClient test_config 0) (one_admitted test_config)
    = Some (Returned, s', [])
    /\ conns s' !! O
       = Some {| remote := Some "127.0.0.1"; closes := 1;
                 written := [] ++ ["CHALLENGE:7" +:+ LF;
                                   "ERROR:Invalid PoW solution" +:+ LF];
                 deadline := Some (ConnectionTimeout test_config) |}
    /\ semaphore s' = O /\ wg s' = 1 - 1.
Proof.
  apply (handleClient_serves test_config rejecting (one_admitted test_config)
           O waiting_conn "127.0.0.1" O);
    [reflexivity|reflexivity|reflexivity|cbn; lia|reflexivity
    |apply has_burst_first; cbn; lia|intros v; discriminate].
Defined.

Lemma handleClient_recovers_witness :
  exists s',
    solo panicking (handleClient test_config 0) (one_admitted test_config)
    = Some (Returned, s', [])
    /\ conns s' !! O
       = Some {| remote := Some "127.0.0.1"; closes := 1;
                 written := [] ++ ["CHALLENGE:7" +:+ LF] ++ [MsgOnErrInternal];
                 deadline := None |}
    /\ (exists msg, last (log s') = Some (Error, msg))
    /\ semaphore s' = O /\ wg s' = 1 - 1.
Proof.
  apply (handleClient_recovers test_config panicking (one_admitted test_config)
           O waiting_conn "127.0.0.1" O "hello panic");
    [reflexivity|reflexivity|reflexivity|cbn; lia|reflexivity
    |apply has_burst_first; cbn; lia|reflexivity].
Defined.

Lemma acceptConnections_stops_witness :
  let s := mkServer test_config 1 false 1 1 false true ∅ [] [waiting_conn] [] in
  exists msg,
    solo (peer HandlerNil) acceptConnections s = Some (Returned, add_log Info msg s, [])
    /\ (msg = "Server is shutting down, stopping connection handling..."
        \/ msg = "Listener closed, stopping connection handling...").
Proof.
  intros s. apply (acceptConnections_stops (peer HandlerNil) s). cbn. lia.
Defined.

Lemma admission_round_trip_witness :
  let s := one_admitted test_config in
  exists s1 s2 x,
    solo (peer HandlerNil) acceptConnections s
    = Some (Again, s1, [Go None (handleClient test_config 1)])
    /\ solo rejecting (handleClient test_config 1) s1 = Some (Returned, s2, [])
    /\ semaphore s1 = 2%nat /\ wg s1 = 1 + 1
    /\ semaphore s2 = 1%nat /\ wg s2 = 1
    /\ conns s2 !! 1%nat = Some x
    /\ closes x = 1%nat /\ remote x = Some "127.0.0.1"
    /\ (forall c, (c < 1)%nat -> conns s2 !! c = conns s !! c).
Proof.
  intros s.
  apply (admission_round_trip test_config (peer HandlerNil) rejecting s
           (Some "127.0.0.1"));
    [reflexivity|reflexivity|reflexivity|vm_compute; lia|cbn; lia].
Defined.

Lemma Shutdown_outcome_witness :
  exists s',
    solo too_slow (Shutdown test_config) (one_admitted test_config)
    = Some (Returned, s', [])
    /\ log s' = [] ++ [(Info, "Shutting down server...");
                       (Warn, "Shutdown timeout reached. Forcing termination.")]
    /\ conns s' = [waiting_conn] /\ wg s' = 1 /\ semaphore s' = 1%nat
    /\ listener_closes s' = 1%nat /\ ctx_done s' = true /\ once_done s' = true.
Proof.
  apply (Shutdown_outcome test_config too_slow (one_admitted test_config));
    reflexivity.
Defined.

End ServerPaths.

(* ================================================================== *)
(** ** What the goroutines can rely on *)
(* ================================================================== *)

Module ServerInvariants.
Import GoStrings Server ServerFacts ServerStates.

Lemma tally_lookup (f : Debt -> bool) (ds : list Debt) i d :
  ds !! i = Some d -> f d = true -> (1 <= tally f ds)%nat.
Proof.
  revert i. induction ds as [|d' ds IH]; intros [|i]; cbn; try discriminate.
  - intros [= ->] ->. lia.
  - intros Hi Hd. specialize (IH i Hi Hd). lia.
Qed.

(** The debt of the goroutine [i] of a state the process reaches. *)
Lemma debt_of cfg w i t :
  reachable cfg w -> threads w !! i = Some t ->
  exists ds d, ds !! i = Some d /\ thread_settles cfg d t /\ balanced cfg (srv w) ds.
Proof.
  intros Hw Ht. destruct (invariant_reachable cfg w Hw) as [_ (ds & Hts & Hbal)].
  destruct (Forall2_lookup_r _ _ _ _ _ Hts Ht) as (d & Hd & Hdt).
  exists ds, d. auto.
Qed.

(** X22.  The calls a goroutine has deferred find what they need: the
    receive from the semaphore finds a token, [wg.Done] finds the
    counter above zero, and [Unlock] finds the mutex locked - whatever
    the other goroutines have done in between. *)
Theorem deferred_calls_succeed cfg w i body ch :
  reachable cfg w ->
  (forall k, threads w !! i = Some (Go body (Vis Release k)) ->
     exists s', op _ Release ch (srv w) = Some (tt, s'))
  /\ (forall k, threads w !! i = Some (Go body (Vis WgDone k)) ->
        exists s', op _ WgDone ch (srv w) = Some (None, s'))
  /\ (forall k, threads w !! i = Some (Go body (Vis OnceUnlock k)) ->
        once_m (srv w) = true)
  /\ 0 <= wg (srv w).
Proof.
  intros Hw. split; [|split; [|split]].
  - intros k Ht. destruct (debt_of cfg w i _ Hw Ht) as (ds & d & Hd & [Hp _] & Hbal).
    cbn in Hp. specialize (Hp tt).
    destruct (slot d) eqn:Hs; [|contradiction].
    pose proof (tally_lookup slot ds i d Hd Hs) as H1.
    rewrite <- (bal_slots _ _ _ Hbal) in H1. cbn.
    destruct (semaphore (srv w)); [lia|eauto].
  - intros k Ht. destruct (debt_of cfg w i _ Hw Ht) as (ds & d & Hd & [Hp _] & Hbal).
    cbn in Hp. specialize (Hp None).
    destruct (counted d) eqn:Hs; [|contradiction].
    pose proof (tally_lookup counted ds i d Hd Hs) as H1.
    pose proof (bal_counted _ _ _ Hbal) as H2. cbn.
    destruct (Z.ltb_spec (wg (srv w) - 1) 0); [lia|eauto].
  - intros k Ht. destruct (debt_of cfg w i _ Hw Ht) as (ds & d & Hd & [Hp _] & Hbal).
    cbn in Hp. specialize (Hp tt).
    assert (Hb : busy d = true) by (unfold busy; destruct (phase d); auto; contradiction).
    pose proof (tally_lookup busy ds i d Hd Hb) as H1.
    rewrite (bal_mutex _ _ _ Hbal) in H1. destruct (once_m (srv w)); [reflexivity|lia].
  - destruct (invariant_reachable cfg w Hw) as [_ (ds & _ & Hbal)].
    rewrite (bal_counted _ _ _ Hbal). lia.
Qed.

Lemma about_to_release_reachable w :
  about_to_release = Some w -> reachable test_config w.
Proof. unfold about_to_release. apply play_started. Qed.

Lemma deferred_calls_succeed_witness :
  match about_to_release with
  | Some w =>
      reachable test_config w
      /\ (exists k, threads w !! 1%nat = Some (Go None (Vis Release k)))
      /\ (exists s', op _ Release (peer HandlerNil) (srv w) = Some (tt, s'))
      /\ 0 <= wg (srv w)
  | None => False
  end.
Proof.
  destruct about_to_release as [w|] eqn:Hw;
    [|exfalso; revert Hw; vm_compute; discriminate].
  assert (Hr : reachable test_config w) by exact (about_to_release_reachable w Hw).
  assert (Hk : exists k, threads w !! 1%nat = Some (Go None (Vis Release k))).
  { revert Hw. vm_compute. intros [= <-]. eexists. reflexivity. }
  destruct (deferred_calls_succeed test_config w 1 None (peer HandlerNil) Hr)
    as (H1 & _ & _ & H4).
  split; [exact Hr|]. split; [exact Hk|]. split; [|exact H4].
  destruct Hk as [k Hk]. exact (H1 k Hk).
Defined.

End ServerInvariants.

Module HoldingsFacts.
Import GoStrings Server ServerFacts ServerStates Holdings.

Ltac stroll :=
  repeat first
    [ progress cbn
    | progress intros
    | rewrite Nat.eqb_refl
    | match goal with
      | |- _ /\ _ => split
      | |- True => exact I
      | |- _ = _ => reflexivity
      | b : bool |- _ => destruct b
      | b : option _ |- _ => destruct b
      | b : (_ * _)%type |- _ => destruct b
      | b : unit |- _ => destruct b
      | b : HandlerResult |- _ => destruct b
      | b : (_ + _)%type |- _ => destruct b
      | |- context [if ?c then _ else _] => destruct c
      end ].

Lemma handleClient_keeps cfg c : keeps (holding c) (handleClient cfg c).
Proof. unfold handleClient, handleClient_body, getLimiterForIP, recoverPanic. stroll. Qed.

Lemma acceptConnections_keeps b :
  keeps {| socket := None; cancelled := b |} acceptConnections.
Proof. unfold acceptConnections, dispatch. stroll. Qed.

Lemma Shutdown_keeps cfg : keeps empty_handed (Shutdown cfg).
Proof. unfold Shutdown, Once_Do, Shutdown_body. stroll. Qed.

Lemma Start_wait_keeps cfg : keeps empty_handed (Start_wait cfg).
Proof. unfold Start_wait, Shutdown, Once_Do, Shutdown_body. stroll. Qed.

Example handleClient_needs_its_socket cfg c :
  ~ keeps empty_handed (handleClient cfg c)
  /\ ~ keeps (holding 1) (handleClient cfg 0).
Proof.
  split; intros H; cbn in H; specialize (H None); exact H.
Qed.


Lemma holders_app c (a b : list Grip) :
  holders c (a ++ b) = (holders c a + holders c b)%nat.
Proof. induction a as [|g a IH]; cbn; [reflexivity|]. rewrite IH. lia. Qed.

Lemma holders_Permutation c (a b : list Grip) :
  Permutation a b -> holders c a = holders c b.
Proof. induction 1; cbn; lia. Qed.

Lemma kept_Permutation s (a b : list Grip) :
  Permutation a b -> kept s a -> kept s b.
Proof.
  intros Hp [H1 H2 H3]. constructor; auto.
  - intros c. rewrite <- (holders_Permutation c _ _ Hp). apply H1.
  - now rewrite <- Hp.
Qed.

(** An operation that leaves the sockets, the context and [done] as
    they are. *)
Lemma kept_frame s s' gs :
  conns s' = conns s -> ctx_done s' = ctx_done s -> once_done s' = once_done s ->
  kept s gs -> kept s' gs.
Proof.
  intros Hc Hx Hd [H1 H2 H3]. constructor.
  - intros c. unfold closes_at. rewrite Hc. apply H1.
  - now rewrite Hx.
  - now rewrite Hx, Hd.
Qed.

Lemma has_socket_eq c c' g :
  has_socket c g = true -> has_socket c' g = (c =? c')%nat.
Proof.
  unfold has_socket. destruct (socket g) as [c0|]; [|discriminate].
  intros H. apply Nat.eqb_eq in H. now subst c0.
Qed.

Lemma has_socket_none c g : socket g = None -> has_socket c g = false.
Proof. unfold has_socket. now intros ->. Qed.

(** The holder of an open socket: the socket exists, nobody else holds
    it, and it has not been closed. *)
Lemma held_open s g rest c :
  kept s (g :: rest) -> has_socket c g = true ->
  exists x, conns s !! c = Some x /\ closes x = O /\ holders c rest = O.
Proof.
  intros [H _ _] Hs. specialize (H c). cbn [holders] in H. rewrite Hs in H.
  unfold closes_at in H.
  destruct (Nat.ltb_spec c (List.length (conns s))) as [Hlt|Hge];
    cbv iota in H; [|lia].
  destruct (conns s !! c) as [x|] eqn:Hx.
  - exists x. repeat split; lia.
  - apply lookup_ge_None in Hx. lia.
Qed.

(** A socket is written to, given a deadline or handled: its closes
    are as they were. *)
Lemma kept_update s gs c f :
  (forall x, closes (f x) = closes x) ->
  kept s gs -> kept (update_conn c f s) gs.
Proof.
  intros Hf [H1 H2 H3]. unfold update_conn.
  destruct (conns s !! c) as [x|] eqn:Hx; [|now constructor].
  constructor; cbn; auto.
  intros c'. specialize (H1 c'). rewrite length_insert.
  unfold closes_at in *. cbn.
  destruct (decide (c = c')) as [->|Hne].
  - rewrite list_lookup_insert_eq by (eapply lookup_lt_Some; eassumption).
    rewrite Hx in H1. now rewrite Hf.
  - now rewrite list_lookup_insert_ne.
Qed.

Lemma op_kept (B : Type) (e : Op B) ch s b s' g rest :
  kept s (g :: rest) ->
  op B e ch s = Some (b, s') ->
  match grip_after g B e b with
  | Some g' => kept s' (g' :: spawned_grips B e ++ rest)
  | None => True
  end.
Proof.
  intros Hk Hop.
  destruct e; cbn [grip_after spawned_grips app];
    try (destruct (has_socket _ g) eqn:Hs; [|exact I]);
    try (unfold op in Hop; split_in Hop; try discriminate Hop;
         inversion Hop; subst; clear Hop;
         first [ exact Hk
               | apply (kept_frame s); [reflexivity..|exact Hk]
               | apply kept_update; [reflexivity|exact Hk] ]).
  - (* Accept *)
    unfold op in Hop. destruct (listener_closes s); [|now inversion Hop; subst].
    destruct (arrival ch) as [addr|err]; inversion Hop; subst; clear Hop; [|exact Hk].
    destruct (socket g) eqn:Hg; [exact I|].
    destruct Hk as [H1 H2 H3]. constructor; cbn [ctx_done set_conns once_done]; auto.
    + intros c. specialize (H1 c). cbn [holders] in *.
      rewrite (has_socket_none c g Hg) in H1.
      unfold has_socket, closes_at in *. cbn [socket with_socket conns set_conns].
      rewrite length_app. cbn [List.length].
      destruct (Nat.ltb_spec c (List.length (conns s))) as [Hlt|Hge].
      * rewrite lookup_app_l by exact Hlt.
        destruct (Nat.eqb_spec (List.length (conns s)) c) as [Heq|_]; [lia|].
        destruct (Nat.ltb_spec c (List.length (conns s) + 1)); lia.
      * rewrite (lookup_ge_None_2 (conns s) c) in H1 by exact Hge.
        destruct (Nat.eqb_spec (List.length (conns s)) c) as [<-|Hne].
        -- rewrite list_lookup_middle by reflexivity. cbn [closes].
           destruct (Nat.ltb_spec (List.length (conns s)) (List.length (conns s) + 1)); lia.
        -- rewrite lookup_ge_None_2 by (rewrite length_app; cbn; lia).
           destruct (Nat.ltb_spec c (List.length (conns s) + 1)); lia.
    + inversion H2; subst. constructor; auto.
  - (* go handleClient *)
    inversion Hop; subst; clear Hop.
    destruct Hk as [H1 H2 H3]. constructor; auto.
    + intros c. specialize (H1 c). cbn [holders] in *.
      rewrite (has_socket_eq conn c g Hs) in H1.
      unfold has_socket at 1 2. cbn [socket with_socket holding]. lia.
    + inversion H2; subst. repeat constructor; auto. discriminate.
  - (* Close *)
    inversion Hop; subst; clear Hop.
    destruct (held_open s g rest conn Hk Hs) as (x & Hx & Hcl & Hno).
    destruct Hk as [H1 H2 H3]. unfold update_conn. rewrite Hx.
    constructor; cbn [ctx_done set_conns once_done conns]; auto.
    + intros c. specialize (H1 c). cbn [holders] in *.
      rewrite (has_socket_eq conn c g Hs) in H1.
      rewrite (has_socket_none c (with_socket None g)) by reflexivity.
      rewrite length_insert. unfold closes_at in *. cbn [conns set_conns].
      destruct (Nat.eqb_spec conn c) as [Heq|Hne].
      * subst c.
        rewrite list_lookup_insert_eq by (eapply lookup_lt_Some; eassumption).
        rewrite Hx in H1. cbn [closes closed_once]. lia.
      * rewrite list_lookup_insert_ne by exact Hne. lia.
    + inversion H2; subst. constructor; auto.
  - (* cancel *)
    inversion Hop; subst; clear Hop.
    destruct Hk as [H1 H2 H3]. constructor; cbn [ctx_done set_ctx_done].
    + intros c. apply (H1 c).
    + inversion H2; subst. constructor; [reflexivity|].
      eapply Forall_impl; [eassumption|]. reflexivity.
    + reflexivity.
  - (* done.Store *)
    destruct (cancelled g) eqn:Hc; [|exact I].
    inversion Hop; subst; clear Hop.
    destruct Hk as [H1 H2 H3]. constructor.
    + intros c. apply (H1 c).
    + exact H2.
    + intros _. inversion H2; subst. cbn. auto.
Qed.


Lemma kept_drop s g gs : socket g = None -> kept s (g :: gs) -> kept s gs.
Proof.
  intros Hg [H1 H2 H3]. constructor; auto.
  - intros c. specialize (H1 c). cbn [holders] in H1.
    now rewrite (has_socket_none c g Hg) in H1.
  - now inversion H2.
Qed.

Lemma kept_add s g gs :
  socket g = None -> (cancelled g = true -> ctx_done s = true) ->
  kept s gs -> kept s (g :: gs).
Proof.
  intros Hg Hc [H1 H2 H3]. constructor; auto.
  intros c. cbn [holders]. rewrite (has_socket_none c g Hg). apply H1.
Qed.

Lemma kept_signal s gs : kept s gs -> kept (set_ctx_done true s) gs.
Proof.
  intros [H1 H2 H3]. constructor; cbn [ctx_done set_ctx_done].
  - intros c. apply (H1 c).
  - eapply Forall_impl; [eassumption|]. reflexivity.
  - reflexivity.
Qed.

Lemma spawned_keep s (B : Type) (e : Op B) :
  Forall2 thread_keeps (spawned_grips B e) (spawned (config s) B e).
Proof.
  destruct e; cbn; try constructor; [|constructor].
  split; [apply handleClient_keeps|exact I].
Qed.

(** Steps keep the sockets in hand. *)
Lemma in_hand_step w w' : in_hand w -> step w w' -> in_hand w'.
Proof.
  intros (gs & Hts & Hk) Hstep.
  destruct Hstep as [s l1 t l2 s' ts' crash Ht|s ts|s ts]; cbn in *.
  - apply Forall2_app_inv_r in Hts as (g1 & gs2 & H1 & H2 & ->).
    apply Forall2_cons_inv_r in H2 as (g & g2 & Hg & H2 & ->).
    apply (kept_Permutation _ _ (g :: g1 ++ g2)) in Hk;
      [|symmetry; apply Permutation_middle].
    destruct t as [body [e|B e k]]; cbn in Hg, Ht.
    + destruct Hg as [Hnone Hbody].
      assert (Hrest : kept s (g1 ++ g2)) by (eapply kept_drop; eassumption).
      destruct e as [|v|]; destruct Ht as (-> & _ & ->).
      * exists (g1 ++ g2). split; [now apply Forall2_app|exact Hrest].
      * exists (g1 ++ g2). split; [now apply Forall2_app|exact Hrest].
      * destruct body as [q|].
        -- exists (g1 ++ g :: g2). split.
           ++ apply Forall2_app; [assumption|]. constructor; [|assumption].
              split; [|exact Hbody]. destruct g as [so ca]. cbn in Hnone. subst so.
              apply Hbody.
           ++ eapply kept_Permutation; [apply Permutation_middle|exact Hk].
        -- exists (g1 ++ g2). split; [now apply Forall2_app|exact Hrest].
    + destruct Ht as (ch & b & Hop & -> & _). destruct Hg as [Hp Hbody].
      cbn in Hp. specialize (Hp b).
      pose proof (op_kept B e ch s b s' g (g1 ++ g2) Hk Hop) as Hnew.
      destruct (grip_after g B e b) as [g'|]; [|contradiction].
      exists (g1 ++ (g' :: spawned_grips B e) ++ g2). split.
      * apply Forall2_app; [assumption|]. cbn. constructor; [split; assumption|].
        apply Forall2_app; [|assumption]. apply spawned_keep.
      * eapply kept_Permutation; [|exact Hnew].
        apply (Permutation_app_swap_app (g' :: spawned_grips B e) g1 g2).
  - exists gs. split; [assumption|]. now apply kept_signal.
  - exists (gs ++ [empty_handed]). split.
    + apply Forall2_app; [assumption|]. constructor; [|constructor].
      split; [apply Shutdown_keeps|exact I].
    + apply (kept_Permutation _ (empty_handed :: gs)).
      * rewrite Permutation_app_comm. reflexivity.
      * apply kept_add; [reflexivity|discriminate|exact Hk].
Qed.

Lemma in_hand_started cfg w : started cfg = Some w -> in_hand w.
Proof.
  unfold started. destruct (MaxConnections cfg <? 0); [discriminate|].
  intros [= <-]. exists [empty_handed; empty_handed]. split.
  - constructor; [split; [|intros c]; apply acceptConnections_keeps|].
    constructor; [split; [apply Start_wait_keeps|exact I]|constructor].
  - constructor; cbn [srv once_done ctx_done].
    + intros c. reflexivity.
    + repeat constructor; discriminate.
    + discriminate.
Qed.

Lemma in_hand_reachable cfg w : reachable cfg w -> in_hand w.
Proof.
  induction 1 as [w Hw|w w' _ IH Hstep].
  - eapply in_hand_started; eassumption.
  - eapply in_hand_step; eassumption.
Qed.


Lemma holders_lookup c (gs : list Grip) i g :
  gs !! i = Some g -> has_socket c g = true -> (1 <= holders c gs)%nat.
Proof.
  revert i. induction gs as [|g' gs IH]; intros [|i]; cbn; try discriminate.
  - intros [= ->] ->. lia.
  - intros Hi Hg. specialize (IH i Hi Hg). lia.
Qed.

(** The socket a goroutine is about to use is open. *)
Lemma in_use_open cfg w i body (B : Type) (e : Op B) k c :
  reachable cfg w ->
  threads w !! i = Some (Go body (Vis e k)) ->
  (forall g b, grip_after g B e b <> None -> has_socket c g = true) ->
  B ->
  exists x, conns (srv w) !! c = Some x /\ closes x = O.
Proof.
  intros Hw Ht He b.
  destruct (in_hand_reachable cfg w Hw) as (gs & Hts & [H1 _ _]).
  destruct (Forall2_lookup_r _ _ _ _ _ Hts Ht) as (g & Hg & [Hp _]).
  cbn in Hp. specialize (Hp b).
  assert (Hs : has_socket c g = true).
  { apply (He g b). destruct (grip_after g B e b); [discriminate|contradiction]. }
  pose proof (holders_lookup c gs i g Hg Hs) as Hh.
  specialize (H1 c). unfold closes_at in H1.
  destruct (Nat.ltb_spec c (List.length (conns (srv w)))) as [Hlt|Hge]; [|lia].
  destruct (conns (srv w) !! c) as [x|] eqn:Hx.
  - exists x. split; [reflexivity|lia].
  - apply lookup_ge_None in Hx. lia.
Qed.

(** X24.  An accepted socket is held by one goroutine until it is closed, and
    closed once: in every state the process reaches, each socket is
    either in the hand of exactly one goroutine and open, or in nobody's
    hand and closed once; and the socket a goroutine is about to write
    to, to pass to the handler or to close is open. *)
Theorem sockets_closed_once cfg w :
  reachable cfg w ->
  (exists gs, Forall2 thread_keeps gs (threads w)
              /\ forall c x, conns (srv w) !! c = Some x ->
                   (holders c gs + closes x = 1)%nat)
  /\ (forall c x, conns (srv w) !! c = Some x -> (closes x <= 1)%nat)
  /\ (forall i body c b k,
        threads w !! i = Some (Go body (Vis (ConnWrite c b) k)) ->
        exists x, conns (srv w) !! c = Some x /\ closes x = O)
  /\ (forall i body c k,
        threads w !! i = Some (Go body (Vis (Handle c) k)) ->
        exists x, conns (srv w) !! c = Some x /\ closes x = O)
  /\ (forall i body c k,
        threads w !! i = Some (Go body (Vis (Close c) k)) ->
        exists x, conns (srv w) !! c = Some x /\ closes x = O).
Proof.
  intros Hw.
  assert (Hall : exists gs, Forall2 thread_keeps gs (threads w)
              /\ forall c x, conns (srv w) !! c = Some x ->
                   (holders c gs + closes x = 1)%nat).
  { destruct (in_hand_reachable cfg w Hw) as (gs & Hts & [H1 _ _]).
    exists gs. split; [exact Hts|]. intros c x Hx. specialize (H1 c).
    unfold closes_at in H1. rewrite Hx in H1.
    apply lookup_lt_Some in Hx. apply Nat.ltb_lt in Hx. now rewrite Hx in H1. }
  split; [exact Hall|]. split; [|split; [|split]].
  - destruct Hall as (gs & _ & H). intros c x Hx. specialize (H c x Hx). lia.
  - intros i body c b k Ht.
    apply (in_use_open cfg w i body _ _ k c Hw Ht); [|exact tt].
    intros g b0 H. cbn in H. destruct (has_socket c g); [reflexivity|contradiction].
  - intros i body c k Ht.
    apply (in_use_open cfg w i body _ _ k c Hw Ht); [|exact HandlerNil].
    intros g b0 H. cbn in H. destruct (has_socket c g); [reflexivity|contradiction].
  - intros i body c k Ht.
    apply (in_use_open cfg w i body _ _ k c Hw Ht); [|exact tt].
    intros g b0 H. cbn in H. destruct (has_socket c g); [reflexivity|contradiction].
Qed.

(** X25.  [done] is set after the context was cancelled: once [Shutdown] has
    run, [Start] - which waits for the context and then calls
    [Shutdown] - returns and changes nothing. *)
Theorem Start_returns_after_Shutdown cfg w ch :
  reachable cfg w -> once_done (srv w) = true ->
  ctx_done (srv w) = true
  /\ solo ch (Start_wait cfg) (srv w) = Some (Returned, srv w, []).
Proof.
  intros Hw Hdone.
  destruct (in_hand_reachable cfg w Hw) as (gs & _ & [_ _ H3]).
  pose proof (H3 Hdone) as Hctx. split; [exact Hctx|].
  unfold Start_wait, Shutdown, Once_Do. cbn [bind call solo op].
  rewrite Hctx. cbn [bind call solo op]. now rewrite Hdone.
Qed.

(** X26.  When every goroutine has returned, nothing is left behind: the
    semaphore is empty, the wait group at zero, the mutex of
    [shutdownOnce] free, and every socket that was accepted has been
    closed once. *)
Theorem nothing_left_behind cfg w :
  reachable cfg w -> threads w = [] ->
  semaphore (srv w) = O /\ wg (srv w) = 0 /\ once_m (srv w) = false
  /\ forall c x, conns (srv w) !! c = Some x -> closes x = 1%nat.
Proof.
  intros Hw Hnone.
  destruct (invariant_reachable cfg w Hw) as [_ (ds & Hds & Hbal)].
  destruct (in_hand_reachable cfg w Hw) as (gs & Hgs & [H1 _ _]).
  rewrite Hnone in Hds, Hgs.
  apply Forall2_nil_inv_r in Hds. apply Forall2_nil_inv_r in Hgs. subst ds gs.
  split; [apply (bal_slots _ _ _ Hbal)|].
  split; [apply (bal_counted _ _ _ Hbal)|]. split.
  - pose proof (bal_mutex _ _ _ Hbal) as Hm. cbn in Hm.
    destruct (once_m (srv w)); [discriminate|reflexivity].
  - intros c x Hx. specialize (H1 c). unfold closes_at in H1. rewrite Hx in H1.
    apply lookup_lt_Some in Hx. apply Nat.ltb_lt in Hx. now rewrite Hx in H1.
Qed.

Example rest_of_three_shutdowns :
  (threads <$> three_shutdowns) = Some [].
Proof. vm_compute. reflexivity. Qed.

Lemma sockets_closed_once_witness :
  match full_house with
  | Some w =>
      reachable test_config w
      /\ List.length (conns (srv w)) = 3%nat
      /\ (exists gs, Forall2 thread_keeps gs (threads w)
                     /\ forall c x, conns (srv w) !! c = Some x ->
                          (holders c gs + closes x = 1)%nat)
      /\ (forall c x, conns (srv w) !! c = Some x -> (closes x <= 1)%nat)
  | None => False
  end.
Proof.
  destruct full_house as [w|] eqn:Hw; [|exfalso; revert Hw; vm_compute; discriminate].
  assert (Hr : reachable test_config w) by exact (full_house_reachable w Hw).
  assert (Hn : List.length (conns (srv w)) = 3%nat).
  { revert Hw. vm_compute. now intros [= <-]. }
  destruct (sockets_closed_once test_config w Hr) as (H1 & H2 & _).
  split; [exact Hr|]. split; [exact Hn|]. split; [exact H1|exact H2].
Defined.

Lemma Start_returns_after_Shutdown_witness :
  match three_shutdowns with
  | Some w =>
      reachable test_config w
      /\ once_done (srv w) = true
      /\ ctx_done (srv w) = true
      /\ solo (peer HandlerNil) (Start_wait test_config) (srv w)
         = Some (Returned, srv w, [])
  | None => False
  end.
Proof.
  destruct three_shutdowns as [w|] eqn:Hw;
    [|exfalso; revert Hw; vm_compute; discriminate].
  assert (Hr : reachable test_config w) by exact (three_shutdowns_reachable w Hw).
  assert (Hd : once_done (srv w) = true).
  { revert Hw. vm_compute. now intros [= <-]. }
  split; [exact Hr|]. split; [exact Hd|].
  exact (Start_returns_after_Shutdown test_config w (peer HandlerNil) Hr Hd).
Defined.

Lemma nothing_left_behind_witness :
  match three_shutdowns with
  | Some w =>
      reachable test_config w
      /\ threads w = []
      /\ List.length (conns (srv w)) = 1%nat
      /\ semaphore (srv w) = O /\ wg (srv w) = 0 /\ once_m (srv w) = false
      /\ forall c x, conns (srv w) !! c = Some x -> closes x = 1%nat
  | None => False
  end.
Proof.
  destruct three_shutdowns as [w|] eqn:Hw;
    [|exfalso; revert Hw; vm_compute; discriminate].
  assert (Hr : reachable test_config w) by exact (three_shutdowns_reachable w Hw).
  assert (Ht : threads w = []).
  { revert Hw. vm_compute. now intros [= <-]. }
  assert (Hn : List.length (conns (srv w)) = 1%nat).
  { revert Hw. vm_compute. now intros [= <-]. }
  split; [exact Hr|]. split; [exact Ht|]. split; [exact Hn|].
  exact (nothing_left_behind test_config w Hr Ht).
Defined.

End HoldingsFacts.
